(** * bruteforce.py: the concurrent credential search, embedded and verified

    The program submits one [try_password] task per candidate to a
    [ThreadPoolExecutor(max_workers=10)], lets the tasks race for a
    lock-guarded [found_password] flag, and cancels what is still queued as
    soon as the main thread observes the flag.

    The embedding is an interleaving semantics.  Every access to shared
    state (the three fields of the [BruteForcer] object, the lock, standard
    output, the network) is one atomic step of the thread that performs it;
    a scheduler choice picks the thread that moves next.  The step function
    is executable, so concrete schedules can be run by computation.

    machanger.py, the sequential tool of the repository, is embedded in the
    module [MacChanger]: its pure functions as functions on strings, its
    procedures as trees of calls to the system, run against any system. *)

From Stdlib Require Import String Ascii DecimalString.
From Stdlib Require HexadecimalString HexadecimalN.
From stdpp Require Import base list.

(* stdpp's [naive_solver] clears hypotheses by guessed names. *)
#[local] Set Warnings "-clear-no-such-hyp".

(** ** Module-level constants of the script *)

Definition url : string := "http://python.thm/labs/lab1/index.php".
Definition username : string := "Mark".

(** [f"{num:03}"]: decimal, zero-padded on the left to width three. *)
Fixpoint zfill (fuel : nat) (s : string) : string :=
  match fuel with
  | 0 => s
  | S fuel' => zfill fuel' (String "0"%char s)
  end.

Definition format_03 (num : nat) : string :=
  let d := NilZero.string_of_uint (Nat.to_uint num) in
  zfill (3 - String.length d) d.

Definition ascii_uppercase : list ascii :=
  list_ascii_of_string "ABCDEFGHIJKLMNOPQRSTUVWXYZ".

(** [password_list], line 11: the cross product in [itertools.product]
    order, the number varying slowest. *)
Definition password_list : list string :=
  flat_map
    (fun num => map (fun char => String.append (format_03 num) (String char EmptyString))
                    ascii_uppercase)
    (seq 0 1000).

(** A decimal digit, and the number that three of them write. *)
Definition is_digit (c : ascii) : bool :=
  (48 <=? nat_of_ascii c) && (nat_of_ascii c <=? 57).

Definition digit_value (c : ascii) : nat := nat_of_ascii c - 48.

Definition value_03 (s : string) : option nat :=
  match s with
  | String a (String b (String c EmptyString)) =>
    if is_digit a && is_digit b && is_digit c
    then Some (100 * digit_value a + 10 * digit_value b + digit_value c)
    else None
  | _ => None
  end.

(** [max_workers=10], line 47. *)
Definition MAX_WORKERS : nat := 10.

(** ** The remote endpoint *)

(** What [requests.post] does: it returns a response, of which the script
    reads only [.text], or it raises.  [Raise] is the raise of an
    exception whose class derives from [Exception], as those of
    [requests] do, and carries [str(e)]; [Raise_base] is the raise of any
    other exception ([KeyboardInterrupt], [SystemExit], ...), which an
    [except Exception] clause does not catch. *)
Inductive Response : Type :=
| Text (body : string)
| Raise (err : string)
| Raise_base (err : string).

(** Python's [needle in hay] on strings. *)
Fixpoint contains (needle hay : string) : bool :=
  String.prefix needle hay ||
  match hay with
  | EmptyString => false
  | String _ hay' => contains needle hay'
  end.

(** The three lines the script prints. *)
Definition attempted_line (password : string) : string :=
  String.append "[-] Attempted: " password.

Definition error_line (password err : string) : string :=
  String.append "Error with " (String.append password (String.append ": " err)).

Definition found_line (password : string) : string :=
  String.append "[+] Found valid credentials: "
    (String.append username (String.append ":" password)).

Definition is_found_line (line : string) : bool :=
  String.prefix "[+] Found valid credentials: " line.

(** ** Control points *)

(** Where a thread running [try_password] stands.  Each constructor is the
    statement about to be executed. *)
Inductive WorkerPc : Type :=
| W_check                      (* line 26: if self.found_password *)
| W_post                       (* line 31: the request leaves *)
| W_await (response : Response) (* line 31: the response (or the fault) arrives *)
| W_claim_lock                 (* line 34: with self.lock *)
| W_claim_test                 (* line 35: if not self.found_password *)
| W_set_found                  (* line 36 *)
| W_set_correct                (* line 37 *)
| W_print_found                (* line 38 *)
| W_return_true                (* line 39: leaves the with block *)
| W_claim_unlock               (* line 35 was false: leave the with block, line 44 *)
| W_log_lock (message : string)   (* line 21 *)
| W_log_test (message : string)   (* line 22 *)
| W_log_print (message : string)  (* line 23 *)
| W_log_unlock.                (* leave the with block of log, line 44 *)

(** A [concurrent.futures.Future] as the script can observe it.
    [Failed]: the task raised, and the pool thread, which catches
    whatever a task raises, stored the exception in the future
    ([set_exception]). *)
Inductive Future : Type :=
| Pending
| Running (pc : WorkerPc)
| Finished (result : bool)
| Cancelled
| Failed.

(** Where the main thread stands in [run]. *)
Inductive MainPc : Type :=
| M_submit (k : nat)           (* line 48: k candidates submitted so far *)
| M_wait                       (* line 50: next(as_completed) *)
| M_test                       (* line 51: if self.found_password *)
| M_cancel (j : nat)           (* lines 52-53: about to cancel futures[j] *)
| M_shutdown                   (* line 56 *)
| M_join                       (* end of the with block: shutdown(wait=True) *)
| M_done.

(** ** State *)

(** The fields of the [BruteForcer] object, the futures list of [run], and
    the effects the claims speak about: what was printed, the candidates
    whose request has left, and the calls of [requests.post] with the
    arguments they were made with. *)
Record State : Type := mkState {
  found_password : bool;
  lock : bool;                       (* threading.Lock: true while held *)
  correct_password : option string;  (* None is Python's None *)
  futures : list (string * Future);  (* argument and status, in submission order *)
  main : MainPc;
  yielded : nat;                     (* futures as_completed has handed out *)
  stdout : list string;
  posted : list string;
  requests : list (string * list (string * string));  (* url and form data *)
}.

Definition set_found (b : bool) (s : State) : State :=
  mkState b (lock s) (correct_password s) (futures s) (main s) (yielded s)
          (stdout s) (posted s) (requests s).
Definition set_lock (b : bool) (s : State) : State :=
  mkState (found_password s) b (correct_password s) (futures s) (main s)
          (yielded s) (stdout s) (posted s) (requests s).
Definition set_correct (c : option string) (s : State) : State :=
  mkState (found_password s) (lock s) c (futures s) (main s) (yielded s)
          (stdout s) (posted s) (requests s).
Definition set_futures (fs : list (string * Future)) (s : State) : State :=
  mkState (found_password s) (lock s) (correct_password s) fs (main s)
          (yielded s) (stdout s) (posted s) (requests s).
Definition set_main (m : MainPc) (s : State) : State :=
  mkState (found_password s) (lock s) (correct_password s) (futures s) m
          (yielded s) (stdout s) (posted s) (requests s).
Definition set_yielded (n : nat) (s : State) : State :=
  mkState (found_password s) (lock s) (correct_password s) (futures s) (main s)
          n (stdout s) (posted s) (requests s).
Definition print (line : string) (s : State) : State :=
  mkState (found_password s) (lock s) (correct_password s) (futures s) (main s)
          (yielded s) (stdout s ++ [line]) (posted s) (requests s).
(** The task for [password] calls [requests.post(u, data=d)]. *)
Definition send (password u : string) (d : list (string * string)) (s : State)
  : State :=
  mkState (found_password s) (lock s) (correct_password s) (futures s) (main s)
          (yielded s) (stdout s) (posted s ++ [password])
          (requests s ++ [(u, d)]).

(** Task [i] moves to status [f]. *)
Definition goto (i : nat) (password : string) (f : Future) (s : State) : State :=
  set_futures (<[i := (password, f)]> (futures s)) s.

(** [__init__], lines 14-17, and the state in which [run] is entered. *)
Definition init : State :=
  mkState false false None [] (M_submit 0) 0 [] [] [].

(** ** Counting futures by status *)

Fixpoint total (w : Future -> nat) (fs : list (string * Future)) : nat :=
  match fs with
  | [] => 0
  | (_, f) :: fs' => w f + total w fs'
  end.

Definition count (P : Future -> bool) (fs : list (string * Future)) : nat :=
  total (fun f => if P f then 1 else 0) fs.

Definition is_pending (f : Future) : bool :=
  match f with Pending => true | _ => false end.
Definition is_running (f : Future) : bool :=
  match f with Running _ => true | _ => false end.
(** [Future.done()]: finished, with a result or with an exception, or
    cancelled. *)
Definition is_done (f : Future) : bool :=
  match f with Finished _ | Cancelled | Failed => true | _ => false end.
Definition is_active (f : Future) : bool :=
  match f with Pending | Running _ => true | _ => false end.
(** The request has left and the response has not arrived. *)
Definition in_flight (f : Future) : bool :=
  match f with Running (W_await _) => true | _ => false end.

(** *** Classes of control points used in the statements *)

(** The thread is inside one of the two [with self.lock] blocks. *)
Definition holds_lock (f : Future) : bool :=
  match f with
  | Running (W_claim_test | W_set_found | W_set_correct | W_print_found
            | W_return_true | W_claim_unlock
            | W_log_test _ | W_log_print _ | W_log_unlock) => true
  | _ => false
  end.

(** The test of line 35 succeeded for this task: its claim returned true. *)
Definition has_claimed (f : Future) : bool :=
  match f with
  | Running (W_set_found | W_set_correct | W_print_found | W_return_true)
  | Finished true => true
  | _ => false
  end.

(** Line 36 has been executed by this task. *)
Definition flag_set (f : Future) : bool :=
  match f with
  | Running (W_set_correct | W_print_found | W_return_true)
  | Finished true => true
  | _ => false
  end.

(** Line 37 has been executed by this task. *)
Definition winner_written (f : Future) : bool :=
  match f with
  | Running (W_print_found | W_return_true) | Finished true => true
  | _ => false
  end.

(** Line 38 has been executed by this task. *)
Definition has_printed (f : Future) : bool :=
  match f with
  | Running W_return_true | Finished true => true
  | _ => false
  end.

(** The request of this task has left (line 31). *)
Definition has_posted (f : Future) : bool :=
  match f with
  | Running (W_check | W_post) | Pending | Cancelled => false
  | _ => true
  end.

(** The candidates of the futures that satisfy [P], in submission order. *)
Fixpoint passwords_where (P : Future -> bool) (fs : list (string * Future))
  : list string :=
  match fs with
  | [] => []
  | (p, f) :: fs' =>
    if P f then p :: passwords_where P fs' else passwords_where P fs'
  end.

(** *** A bound on the steps that remain *)

Definition pc_weight (pc : WorkerPc) : nat :=
  match pc with
  | W_check => 9
  | W_post => 8
  | W_await _ => 7
  | W_claim_lock => 6
  | W_claim_test => 5
  | W_set_found => 4
  | W_set_correct => 3
  | W_print_found => 2
  | W_return_true => 1
  | W_claim_unlock => 1
  | W_log_lock _ => 4
  | W_log_test _ => 3
  | W_log_print _ => 2
  | W_log_unlock => 1
  end.

Definition future_weight (f : Future) : nat :=
  match f with
  | Pending => 10
  | Running pc => pc_weight pc
  | Finished _ | Cancelled | Failed => 0
  end.

(** The first future that is still pending, with its index: the head of
    the executor's work queue once cancelled items are skipped. *)
Fixpoint first_pending (fs : list (string * Future)) : option (nat * string) :=
  match fs with
  | [] => None
  | (password, Pending) :: _ => Some (0, password)
  | _ :: fs' => prod_map S id <$> first_pending fs'
  end.

(** ** The program, one step at a time *)

(** Who moves: the main thread, the pool (a pool thread dequeues the next
    work item and starts it), or the pool thread running task [i]. *)
Inductive Choice : Type :=
| Main
| Start
| Worker (i : nat).

Inductive RunOutcome : Type :=
| Found (candidate : option string)
| Exhausted.

(** ** Scenarios *)

(** The form field "password" of a request body. *)
Fixpoint password_field (d : list (string * string)) : string :=
  match d with
  | [] => EmptyString
  | (k, v) :: d' => if String.eqb k "password" then v else password_field d'
  end.

(** An endpoint that faults on the passwords in [faulty], welcomes those
    in [accepted] and turns the others away. *)
Definition endpoint (accepted faulty : list string)
  : string -> list (string * string) -> Response :=
  fun _ d =>
    let p := password_field d in
    if existsb (String.eqb p) faulty then Raise "connection refused"
    else if existsb (String.eqb p) accepted then Text "Welcome back, Mark"
    else Text "Invalid username or password".

(** Section 8 of the specification: three candidates, the second one
    right, two pool threads. *)
Definition abc : list string := ["000A"; "000B"; "000C"]%string.
Definition abc_endpoint := endpoint ["000B"%string] [].

(** Section 8 again: two candidates, both wrong. *)
Definition aa : list string := ["AAA"; "AAB"]%string.
Definition aa_endpoint := endpoint [] [].

(** A race: the endpoint accepts both "A" and "B"; the two pool threads
    both receive an accepting response before either takes the lock. *)
Definition race : list string := ["A"; "B"; "C"]%string.
Definition race_endpoint := endpoint ["A"; "B"]%string [].

Definition race_both_accepted : list Choice :=
  [Main; Main; Main; Main; Start; Start;
   Worker 0; Worker 0; Worker 0; Worker 1; Worker 1; Worker 1].
(** Task 1 takes the lock and passes the test of line 35. *)
Definition race_claiming : list Choice :=
  race_both_accepted ++ [Worker 1; Worker 1].
(** Task 1 runs lines 36 to 39. *)
Definition race_won : list Choice :=
  race_claiming ++ [Worker 1; Worker 1; Worker 1; Worker 1].
(** The pool starts the task of "C" after the flag went up. *)
Definition race_late_start : list Choice := race_won ++ [Start].
(** And on to the end of [run]. *)
Definition race_whole : list Choice :=
  race_late_start
  ++ [Worker 0; Worker 0; Worker 0; Worker 2;
      Main; Main; Main; Main; Main; Main; Main; Main].

(** A fault that goes unreported: "B" faults, and before its task reaches
    [log] the task of "A" has claimed. *)
Definition ab : list string := ["A"; "B"]%string.
Definition ab_endpoint := endpoint ["A"%string] ["B"%string].
Definition ab_schedule : list Choice :=
  [Main; Main; Main; Start; Start;
   Worker 1; Worker 1; Worker 1;
   Worker 0; Worker 0; Worker 0; Worker 0; Worker 0; Worker 0; Worker 0;
   Worker 0; Worker 0;
   Worker 1; Worker 1; Worker 1;
   Main; Main; Main; Main; Main; Main; Main].

(** A queue longer than the pool: eleven candidates for the ten threads
    of the script, the first one right.  Ten tasks are started and the
    eleventh waits in the queue; the task of "000A" claims; [run] sees the
    flag and cancels; the nine other tasks that were started return at
    line 26, and [run] returns. *)
Definition eleven : list string :=
  ["000A"; "000B"; "000C"; "000D"; "000E"; "000F"; "000G"; "000H"; "000I";
   "000J"; "000K"]%string.
Definition eleven_endpoint := endpoint ["000A"%string] [].
Definition eleven_schedule : list Choice :=
  replicate 12 Main ++ replicate 10 Start ++ replicate 9 (Worker 0)
  ++ replicate 15 Main ++ (Worker <$> seq 1 9) ++ [Main].

(** The request for "B" is out. *)
Definition ab_awaiting : list Choice :=
  [Main; Main; Main; Start; Start; Worker 1; Worker 1].
(** Both requests are out. *)
Definition ab_in_flight : list Choice :=
  [Main; Main; Main; Start; Start; Worker 0; Worker 0; Worker 1; Worker 1].

(** * machanger.py

    Strings are sequences of code points below 256.  Console output is
    what [print_colored] hands to [console.print]: a message and a style. *)

Module MacChanger.

(** ** The pure functions *)

(** [LEVEL_STYLES], lines 24-30. *)
Definition LEVEL_STYLES : list (string * string) :=
  [("info", "cyan"); ("success", "bold green"); ("warning", "yellow");
   ("error", "red"); ("verbose", "blue")]%string.

(** [dict.get(key, default)]. *)
Fixpoint get (d : list (string * string)) (key default : string) : string :=
  match d with
  | [] => default
  | (k, v) :: d' => if String.eqb k key then v else get d' key default
  end.

(** [print_colored], lines 33-36: the message and the style it is printed
    with. *)
Definition print_colored (message level : string) : string * string :=
  (message, get LEVEL_STYLES level "white").

(** *** Character classes *)

Definition code_in (lo hi : nat) (c : ascii) : bool :=
  (lo <=? nat_of_ascii c) && (nat_of_ascii c <=? hi).

(** [[0-9A-Fa-f]]. *)
Definition is_hex (c : ascii) : bool :=
  code_in 48 57 c || code_in 65 70 c || code_in 97 102 c.

(** [[0-9a-fA-F:]]. *)
Definition is_mac_char (c : ascii) : bool :=
  is_hex c || Ascii.eqb c ":".

(** [\s] of a str pattern, and the characters [str.strip] removes: tab to
    carriage return, the four separators 28-31, space, NEL and the
    no-break space. *)
Definition is_space (c : ascii) : bool :=
  code_in 9 13 c || code_in 28 32 c ||
  Nat.eqb (nat_of_ascii c) 133 || Nat.eqb (nat_of_ascii c) 160.

Definition newline : ascii := ascii_of_nat 10.

(** [str.lower] on one character: the capital letters of ASCII and of
    Latin-1 (the multiplication sign is not one). *)
Definition lower_char (c : ascii) : ascii :=
  if code_in 65 90 c || code_in 192 214 c || code_in 216 222 c
  then ascii_of_nat (nat_of_ascii c + 32) else c.

Fixpoint lower (s : string) : string :=
  match s with
  | EmptyString => EmptyString
  | String c s' => String (lower_char c) (lower s')
  end.

(** *** [is_valid_mac], lines 91-93 *)

(** [([0-9A-Fa-f]{2}:){k}] matched at the start of [s]: what is left. *)
Fixpoint match_groups (k : nat) (s : string) : option string :=
  match k with
  | 0 => Some s
  | S k' =>
    match s with
    | String a (String b (String c rest)) =>
      if is_hex a && is_hex b && Ascii.eqb c ":"
      then match_groups k' rest else None
    | _ => None
    end
  end.

(** [re.match(r'^([0-9A-Fa-f]{2}:){5}[0-9A-Fa-f]{2}$', mac)].  Without
    [re.MULTILINE], [$] matches at the end of the string and also just
    before a newline that ends the string. *)
Definition is_valid_mac (mac : string) : bool :=
  match match_groups 5 mac with
  | Some (String a (String b tail)) =>
    is_hex a && is_hex b &&
    (String.eqb tail EmptyString || String.eqb tail (String newline EmptyString))
  | _ => false
  end.

(** *** [get_interfaces], lines 102-105 *)

(** [s.split(sep)] for a one-character separator. *)
Fixpoint split_on (sep : ascii) (s : string) : list string :=
  match s with
  | EmptyString => [EmptyString]
  | String c s' =>
    if Ascii.eqb c sep then EmptyString :: split_on sep s'
    else match split_on sep s' with
         | head :: tail => String c head :: tail
         | [] => [String c EmptyString]
         end
  end.

(** The longest prefix of [s] without whitespace: what a greedy [\S*]
    takes. *)
Fixpoint nonspace_prefix (s : string) : string :=
  match s with
  | EmptyString => EmptyString
  | String c s' =>
    if is_space c then EmptyString else String c (nonspace_prefix s')
  end.

(** The part of [s] before its last colon. *)
Fixpoint before_last_colon (s : string) : option string :=
  match s with
  | EmptyString => None
  | String c s' =>
    match before_last_colon s' with
    | Some pre => Some (String c pre)
    | None => if Ascii.eqb c ":" then Some EmptyString else None
    end
  end.

(** [^(\S+):] on one line: [\S+] takes the whole first word and gives
    characters back until a colon follows; the word needs one character
    before that colon. *)
Definition interface_of_line (line : string) : option string :=
  match nonspace_prefix line with
  | EmptyString => None
  | String c word =>
    match before_last_colon word with
    | Some pre => Some (String c pre)
    | None => None
    end
  end.

(** [re.findall(r'^(\S+):', ifconfig_output, re.MULTILINE)]: with
    [re.MULTILINE], [^] matches at the start and after every newline, and a
    match never crosses a newline. *)
Definition findall_interfaces (ifconfig_output : string) : list string :=
  omap interface_of_line (split_on newline ifconfig_output).

Definition get_interfaces (ifconfig_output : string) : list string :=
  List.filter (fun iface => negb (String.eqb iface "lo"))
              (findall_interfaces ifconfig_output).

(** *** [get_mac_from_ifconfig], lines 119-123, on the text that
    [get_interface_block] returned *)

Fixpoint skip_spaces (s : string) : string :=
  match s with
  | EmptyString => EmptyString
  | String c s' => if is_space c then skip_spaces s' else s
  end.

(** [[0-9a-fA-F:]{n}] at the start of [s]. *)
Fixpoint take_mac_chars (n : nat) (s : string) : option string :=
  match n with
  | 0 => Some EmptyString
  | S n' =>
    match s with
    | String c s' =>
      if is_mac_char c then String c <$> take_mac_chars n' s' else None
    | EmptyString => None
    end
  end.

Fixpoint drop_chars (n : nat) (s : string) : string :=
  match n, s with
  | S n', String _ s' => drop_chars n' s'
  | _, _ => s
  end.

(** [(?:ether|HWaddr)\s*([0-9a-fA-F:]{17})] matched at the start of [s].
    Whitespace is no MAC character, so [\s*] giving characters back
    cannot help. *)
Definition match_mac_here (s : string) : option string :=
  if String.prefix "ether" s
  then take_mac_chars 17 (skip_spaces (drop_chars 5 s))
  else if String.prefix "HWaddr" s
       then take_mac_chars 17 (skip_spaces (drop_chars 6 s))
       else None.

(** [re.search]: the leftmost position at which the pattern matches. *)
Fixpoint search_mac (output : string) : option string :=
  match match_mac_here output with
  | Some mac => Some mac
  | None =>
    match output with
    | EmptyString => None
    | String _ output' => search_mac output'
    end
  end.

(** *** MAC generation, lines 246-261 *)

(** [f"{octet:02x}"]: lower-case hexadecimal, the sign first if negative,
    zeros up to a width of two. *)
Definition format_02x (octet : Z) : string :=
  let digits :=
    HexadecimalString.NilZero.string_of_uint (N.to_hex_uint (Z.abs_N octet)) in
  if (octet <? 0)%Z
  then String "-" (zfill (1 - String.length digits) digits)
  else zfill (2 - String.length digits) digits.

(** [sep.join(parts)]. *)
Fixpoint join (sep : string) (parts : list string) : string :=
  match parts with
  | [] => EmptyString
  | [part] => part
  | part :: parts' => String.append part (String.append sep (join sep parts'))
  end.

Definition format_mac (octets : list Z) : string :=
  join ":" (map format_02x octets).

Section Generators.

(** [random.randint(lo, hi)]: the result of the call number [k] of one
    invocation.  [int(x, 16)]: the number, or [None] for [ValueError]. *)
Variable randint : nat -> Z -> Z -> Z.
Variable int16 : string -> option Z.

Definition generate_random_mac : string :=
  format_mac ([2%Z; randint 0 0 127]
              ++ map (fun k => randint k 0 255) [1; 2; 3; 4]).

(** The result and what is printed. *)
Definition generate_vendor_mac (oui : string)
  : option string * list (string * string) :=
  let invalid :=
    (None, [print_colored "Invalid OUI format. Use format like 00:11:22"
                          "error"]) in
  match mapM int16 (split_on ":" oui) with
  | Some parts =>
    if negb (length parts =? 3) then invalid
    else (Some (format_mac (parts ++ map (fun k => randint k 0 255) [0; 1; 2])),
          [])
  | None => invalid
  end.

End Generators.

(** The value of a hexadecimal digit, for the assumptions on [int]. *)
Definition hex_value (c : ascii) : Z :=
  let n := Z.of_nat (nat_of_ascii c) in
  if code_in 48 57 c then (n - 48)%Z
  else if code_in 65 70 c then (n - 55)%Z
  else (n - 87)%Z.

(** *** Notions for the properties of the pure functions *)

(** Every character of [s] satisfies [P]. *)
Fixpoint all_chars (P : ascii -> bool) (s : string) : bool :=
  match s with
  | EmptyString => true
  | String c s' => P c && all_chars P s'
  end.

(** [s] is empty or starts with whitespace: the first word has ended. *)
Definition starts_blank (s : string) : bool :=
  match s with
  | EmptyString => true
  | String c _ => is_space c
  end.

Definition not_space (c : ascii) : bool := negb (is_space c).

Definition not_newline (c : ascii) : bool := negb (Ascii.eqb c newline).

Definition not_colon (c : ascii) : bool := negb (Ascii.eqb c ":").

(** The two keywords of the pattern of [get_mac_from_ifconfig]. *)
Definition is_keyword (key : string) : Prop :=
  key = "ether"%string \/ key = "HWaddr"%string.

(** [f"{z:02x}"] is two hexadecimal digits. *)
Definition octet_shape (z : Z) : bool :=
  match format_02x z with
  | String a (String b EmptyString) => is_hex a && is_hex b
  | _ => false
  end.

(** The integers that fit one octet. *)
Definition in_octet (z : Z) : Prop := (0 <= z <= 255)%Z.

(** [random.randint(lo, hi)] returns an integer between [lo] and [hi]. *)
Definition randint_in_range (randint : nat -> Z -> Z -> Z) : Prop :=
  forall k lo hi, (lo <= hi)%Z -> (lo <= randint k lo hi <= hi)%Z.

(** [int(x, 16)] of two hexadecimal digits is their value. *)
Definition int16_reads_hex_pairs (int16 : string -> option Z) : Prop :=
  forall a b, is_hex a = true -> is_hex b = true ->
    int16 (String a (String b EmptyString))
    = Some (16 * hex_value a + hex_value b)%Z.

(** [f"{z:02x}"] of the value of two hexadecimal digits writes the two
    digits in lower case. *)
Definition pair_check (a b : ascii) : bool :=
  implb (is_hex a && is_hex b)
        (String.eqb (format_02x (16 * hex_value a + hex_value b))
                    (String (lower_char a) (String (lower_char b) EmptyString))
         && (0 <=? 16 * hex_value a + hex_value b)%Z
         && (16 * hex_value a + hex_value b <=? 255)%Z).

Definition hex_digits : list ascii :=
  list_ascii_of_string "0123456789abcdefABCDEF".

(** An OUI of three groups of two characters. *)
Definition oui_of (a1 b1 a2 b2 a3 b3 : ascii) : string :=
  String a1 (String b1 (String ":" (String a2 (String b2 (String ":"
    (String a3 (String b3 EmptyString))))))).

(** ** machanger.py: the procedures

    *** Strings *)

(** [str.rstrip()] and [str.strip()]. *)
Fixpoint rstrip (s : string) : string :=
  match s with
  | EmptyString => EmptyString
  | String c s' =>
    match rstrip s' with
    | EmptyString => if is_space c then EmptyString else String c EmptyString
    | rest => String c rest
    end
  end.

Definition strip (s : string) : string := rstrip (skip_spaces s).

(** [re.sub(re.escape(old), new, s)] for a non-empty [old] and a [new]
    without backslashes: the occurrences of [old], from the left and not
    overlapping, replaced by [new]. *)
Fixpoint replace_from (old new : string) (skip : nat) (s : string) : string :=
  match s with
  | EmptyString => EmptyString
  | String c s' =>
    match skip with
    | S skip' => replace_from old new skip' s'
    | 0 =>
      if String.prefix old s
      then String.append new (replace_from old new (String.length old - 1) s')
      else String c (replace_from old new 0 s')
    end
  end.

Definition re_sub (old new s : string) : string := replace_from old new 0 s.

(** The truth value of a string and of an optional string. *)
Definition truthy (s : string) : bool := negb (String.eqb s EmptyString).

Definition is_set (o : option string) : bool :=
  match o with
  | Some s => truthy s
  | None => false
  end.

(** [f"{o}"]. *)
Definition fmt (o : option string) : string :=
  match o with
  | Some s => s
  | None => "None"
  end.

(** The string of an argument that was tested to be set. *)
Definition value (o : option string) : string :=
  match o with
  | Some s => s
  | None => EmptyString
  end.

(** *** The calls that leave the program

    A procedure is a tree of calls: each call names what is asked of the
    system and goes on with the answer, which is a value or an exception.
    The exceptions are told apart as far as the [except] clauses of the
    file do: [subprocess.CalledProcessError], [OSError] with its
    subclasses, and the others.  [exn_str] is [str(e)]. *)

Inductive ExnClass : Type := CalledProcessError | OSError | OtherError.

Record Exn : Type := { exn_class : ExnClass; exn_str : string }.

Inductive Result (A : Type) : Type :=
| Returns (a : A)
| Raises (e : Exn).

Arguments Returns {A} a.

Arguments Raises {A} e.

(** What is handed to [console.print]. *)
Inductive Printed : Type :=
| Styled (message style : string)
| Panel_Text (text style : string)
| Panel_from_markup (markup title : string)
| Panel_str (renderable title : string).

(** The procedures that work on JSON files and on the directory of the
    saved addresses; [main] calls them last. *)
Inductive Procedure : Type :=
| show_mac_history (interface : string)
| restore_all_interfaces (verbose : bool)
| export_profile (profile_name : string)
| import_profile (profile_name : string) (verbose dry_run : bool).

(** The calls, with the type of the answer: [subprocess.check_output(args,
    encoding="utf-8")], [subprocess.check_call(args)], [console.print],
    [print(line, file=sys.stderr)], [get_mac_savefile] (lines 125-129: it
    creates the directory and answers the path, here as [str(path)]),
    [path.exists()], the [with] block that writes a file, the one that
    reads it, the three statements of [log_action] that append a line with
    its time stamp to the log file, and the procedures above. *)
Inductive Op : Type -> Type :=
| check_output (args : list string) : Op string
| check_call (args : list string) : Op unit
| console_print (what : Printed) : Op unit
| stderr_print (line : string) : Op unit
| get_mac_savefile (interface : string) : Op string
| path_exists (path : string) : Op bool
| write_text (path content : string) : Op unit
| read_text (path : string) : Op string
| append_log (message : string) : Op unit
| procedure (p : Procedure) : Op unit.

(** A procedure that returns an [A]. *)
Inductive Prog (A : Type) : Type :=
| Return (a : A)
| Raise (e : Exn)
| Do {B : Type} (op : Op B) (k : Result B -> Prog A).

Arguments Return {A} a.

Arguments Raise {A} e.

Arguments Do {A B} op k.

Fixpoint bind {A B} (p : Prog A) (f : A -> Prog B) : Prog B :=
  match p with
  | Return a => f a
  | Raise e => Raise e
  | Do op k => Do op (fun r => bind (k r) f)
  end.

(** The notations [x ← p; q] and [p;; q] for one statement after the
    other. *)
#[global] Instance Prog_ret : MRet Prog := fun A a => Return a.

#[global] Instance Prog_bind : MBind Prog := fun A B f p => bind p f.

(** One call: its value, or its exception raised. *)
Definition call {B} (op : Op B) : Prog B :=
  Do op (fun r => match r with Returns b => Return b | Raises e => Raise e end).

(** [except cls] catches [e]. *)
Definition catches (cls : ExnClass) (e : Exn) : bool :=
  match exn_class e, cls with
  | CalledProcessError, CalledProcessError => true
  | OSError, OSError => true
  | _, _ => false
  end.

(** [try: body except cls as e: handler(e)]. *)
Fixpoint try_except {A} (body : Prog A) (cls : ExnClass)
         (handler : Exn -> Prog A) : Prog A :=
  match body with
  | Return a => Return a
  | Raise e => if catches cls e then handler e else Raise e
  | Do op k => Do op (fun r => try_except (k r) cls handler)
  end.

(** A call with its answer.  The system answers a call knowing the calls
    made so far; a run of a procedure from the history [h] is the list of
    the calls it made and its result. *)
Inductive Event : Type :=
| Ev {B : Type} (op : Op B) (r : Result B).

Definition World : Type := forall B, list Event -> Op B -> Result B.

(** The run of [p] in the system [w] after the calls [h]: the calls of
    [p] with their answers, and what [p] returns or raises. *)
Fixpoint interp {A} (w : World) (p : Prog A) (h : list Event)
  : list Event * Result A :=
  match p with
  | Return a => ([], Returns a)
  | Raise e => ([], Raises e)
  | Do op k =>
    let r := w _ h op in
    let '(t, out) := interp w (k r) (h ++ [Ev op r]) in
    (Ev op r :: t, out)
  end.

(** *** The procedures *)

(** [print_colored], lines 33-36, as a call. *)
Definition print_colored_io (message level : string) : Prog unit :=
  call (console_print (Styled (print_colored message level).1
                              (print_colored message level).2)).

(** [log_action], lines 38-45; [append_log] is the three statements of the
    [try] block, with the time stamp. *)
Definition log_action (message : string) : Prog unit :=
  try_except (call (append_log message)) OSError
    (fun e => call (stderr_print
                      (String.append "[machanger] Logging failed: " (exn_str e)))).

(** Lines 95-100. *)
Definition get_ifconfig_output : Prog string :=
  try_except (call (check_output ["ifconfig"%string])) CalledProcessError
    (fun e => Return (String.append "[red]Failed to execute ifconfig: "
                        (String.append (exn_str e) "[/red]"))).

(** Lines 107-112. *)
Definition get_interface_block (interface : string) : Prog string :=
  try_except (call (check_output ["ifconfig"%string; interface]))
    CalledProcessError
    (fun _ => Return (String.append "[red]No output found for interface: "
                        (String.append interface "[/red]"))).

(** Lines 114-117. *)
Definition get_interface_status (interface : string) : Prog string :=
  output ← get_interface_block interface;
  Return (if contains "UP" output then "up" else "down")%string.

(** Lines 119-123. *)
Definition get_mac_from_ifconfig (interface : string) : Prog (option string) :=
  output ← get_interface_block interface;
  Return (search_mac output).

(** Lines 132-143. *)
Definition save_original_mac (interface mac : string) (force_overwrite : bool)
  : Prog unit :=
  savefile ← call (get_mac_savefile interface);
  present ← call (path_exists savefile);
  if present && negb force_overwrite then Return tt
  else
    try_except
      (call (write_text savefile mac);;
       print_colored_io
         (String.append "Original MAC address saved to " savefile) "success";;
       log_action
         (String.append "Saved original MAC for "
            (String.append interface (String.append ": " mac))))
      OSError
      (fun e => print_colored_io
                  (String.append "Failed to save original MAC: " (exn_str e))
                  "error").

(** Lines 145-155. *)
Definition load_original_mac (interface : string) : Prog (option string) :=
  savefile ← call (get_mac_savefile interface);
  try_except
    (present ← call (path_exists savefile);
     if (present : bool)
     then content ← call (read_text savefile); Return (Some (strip content))
     else
       print_colored_io
         (String.append "No saved original MAC address found for "
            (String.append interface
               (String.append " in " (String.append savefile "."))))
         "warning";;
       Return None)
    OSError
    (fun e =>
       print_colored_io
         (String.append "Failed to load original MAC: " (exn_str e)) "error";;
       Return None).

(** [for x in l: body(x)]. *)
Fixpoint for_each {A} (l : list A) (body : A -> Prog unit) : Prog unit :=
  match l with
  | [] => Return tt
  | x :: l' => body x;; for_each l' body
  end.

(** Lines 157-167. *)
Definition list_interfaces : Prog unit :=
  ifconfig_output ← get_ifconfig_output;
  let interfaces := get_interfaces ifconfig_output in
  match interfaces with
  | [] => print_colored_io "No interfaces found!" "error"
  | _ =>
    for_each interfaces (fun iface =>
      mac ← get_mac_from_ifconfig iface;
      status ← get_interface_status iface;
      print_colored_io
        (String.append iface
           (String.append " - MAC: "
              (String.append (fmt mac) (String.append " - Status: " status))))
        "info")
  end.

(** [if b: p]. *)
Definition when (b : bool) (p : Prog unit) : Prog unit :=
  if b then p else Return tt.

(** [["sudo", "ifconfig", interface, ...]]. *)
Definition sudo_ifconfig (interface : string) (rest : list string)
  : list string :=
  ["sudo"; "ifconfig"; interface]%string ++ rest.

(** The three commands of lines 184-192 and 217-225, with the progress
    lines of verbose mode. *)
Definition set_hw_ether (interface mac verb : string) (verbose : bool)
  : Prog unit :=
  when verbose
    (print_colored_io
       (String.append "Bringing interface "
          (String.append interface " down...")) "verbose");;
  call (check_call (sudo_ifconfig interface ["down"%string]));;
  when verbose
    (print_colored_io
       (String.append verb
          (String.append " MAC address to " (String.append mac "..."))) "verbose");;
  call (check_call (sudo_ifconfig interface ["hw"; "ether"; mac]%string));;
  when verbose
    (print_colored_io
       (String.append "Bringing interface "
          (String.append interface " up...")) "verbose");;
  call (check_call (sudo_ifconfig interface ["up"%string])).

(** The handler of lines 194-199 and 227-232; it answers whether the
    procedure goes on. *)
Definition command_failed (what : string) (e : Exn) : Prog bool :=
  (if contains "Permission denied" (exn_str e)
   then print_colored_io "Permission denied. Try running with sudo." "error"
   else print_colored_io
          (String.append "Failed to "
             (String.append what
                (String.append " MAC address: " (exn_str e)))) "error");;
  Return false.

(** Lines 169-208. *)
Definition change_mac (interface new_mac : string)
           (verbose force_overwrite : bool) : Prog unit :=
  old_mac ← get_mac_from_ifconfig interface;
  (if is_set old_mac
   then
     print_colored_io
       (String.append "Old MAC address: " (fmt old_mac)) "warning";;
     save_original_mac interface (value old_mac) force_overwrite
   else
     print_colored_io "Could not read the current MAC address." "error");;
  if negb (is_valid_mac new_mac)
  then print_colored_io
         (String.append "Invalid MAC address format: " new_mac) "error"
  else if is_set old_mac && String.eqb (lower (value old_mac)) (lower new_mac)
  then print_colored_io
         "The new MAC address is the same as the current one. No change needed."
         "warning"
  else
    changed ←
      try_except
        (set_hw_ether interface new_mac "Changing" verbose;;
         log_action
           (String.append "Changed MAC for "
              (String.append interface
                 (String.append " from "
                    (String.append (fmt old_mac)
                       (String.append " to " new_mac)))));;
         Return true)
        CalledProcessError
        (command_failed "change");
    if negb changed then Return tt
    else
      new_mac_actual ← get_mac_from_ifconfig interface;
      if is_set new_mac_actual
      then
        print_colored_io
          (String.append "New MAC address: " (fmt new_mac_actual)) "success";;
        if String.eqb (lower (value new_mac_actual)) (lower new_mac)
        then print_colored_io "MAC address was successfully changed!" "success"
        else print_colored_io "MAC address did not change as expected!" "error"
      else print_colored_io "Could not read the new MAC address." "error".

(** Lines 210-237. *)
Definition restore_mac (interface : string) (verbose : bool) : Prog unit :=
  orig_mac ← load_original_mac interface;
  if negb (is_set orig_mac) then Return tt
  else
    print_colored_io
      (String.append "Restoring original MAC address: " (fmt orig_mac))
      "warning";;
    restored ←
      try_except
        (set_hw_ether interface (value orig_mac) "Restoring" verbose;;
         log_action
           (String.append "Restored MAC for "
              (String.append interface
                 (String.append " to " (value orig_mac))));;
         Return true)
        CalledProcessError
        (command_failed "restore");
    if negb restored then Return tt
    else
      new_mac_actual ← get_mac_from_ifconfig interface;
      if is_set new_mac_actual
         && String.eqb (lower (value new_mac_actual)) (lower (value orig_mac))
      then print_colored_io "MAC address was successfully restored!" "success"
      else print_colored_io "MAC address was not restored as expected!" "error".

(** Lines 310-312. *)
Definition dry_run_change_mac (interface new_mac : string) : Prog unit :=
  old_mac ← get_mac_from_ifconfig interface;
  print_colored_io
    (String.append "[DRY RUN] Would change "
       (String.append interface
          (String.append " from "
             (String.append (fmt old_mac) (String.append " to " new_mac)))))
    "info".

(** What [parser.parse_args()] returns, lines 74-88. *)
Record Args : Type := {
  args_interface : option string;
  args_new_mac : option string;
  args_restore : bool;
  args_list_interfaces : bool;
  args_show_mac : bool;
  args_verbose : bool;
  args_force_overwrite : bool;
  args_random : bool;
  args_vendor : option string;
  args_restore_all : bool;
  args_history : bool;
  args_dry_run : bool;
  args_export_profile : option string;
  args_import_profile : option string
}.

(** The title of the panel of lines 394 and 396. *)
Definition info_title (interface : string) : string :=
  String.append "[cyan]" (String.append interface " info[/cyan]").

Section Main.

Variable randint : nat -> Z -> Z -> Z.

Variable int16 : string -> option Z.

(** [generate_vendor_mac], lines 251-261, with its error line as a call. *)
Definition generate_vendor_mac_io (oui : string) : Prog (option string) :=
  for_each (generate_vendor_mac randint int16 oui).2
           (fun line => call (console_print (Styled line.1 line.2)));;
  Return (generate_vendor_mac randint int16 oui).1.

(** Lines 398-436: what [main] does once the interface is known. *)
Definition dispatch (args : Args) (interface : string) : Prog unit :=
  let verbose := args_verbose args in
  let force_overwrite := args_force_overwrite args in
  if args_restore args then restore_mac interface verbose
  else if is_set (args_new_mac args)
  then change_mac interface (value (args_new_mac args)) verbose force_overwrite
  else if args_random args
  then
    let mac := generate_random_mac randint in
    print_colored_io (String.append "Generated random MAC: " mac) "info";;
    change_mac interface mac verbose force_overwrite
  else if is_set (args_vendor args)
  then
    mac ← generate_vendor_mac_io (value (args_vendor args));
    when (is_set mac)
      (print_colored_io
         (String.append "Generated vendor MAC: " (fmt mac)) "info";;
       change_mac interface (value mac) verbose force_overwrite)
  else if args_restore_all args
  then call (procedure (restore_all_interfaces verbose))
  else if args_history args
  then call (procedure (show_mac_history interface))
  else if args_dry_run args
  then
    if is_set (args_new_mac args)
    then dry_run_change_mac interface (value (args_new_mac args))
    else if args_random args
    then
      let mac := generate_random_mac randint in
      print_colored_io
        (String.append "[DRY RUN] Would set random MAC: " mac) "info";;
      dry_run_change_mac interface mac
    else if is_set (args_vendor args)
    then
      mac ← generate_vendor_mac_io (value (args_vendor args));
      when (is_set mac)
        (print_colored_io
           (String.append "[DRY RUN] Would set vendor MAC: " (fmt mac)) "info";;
         dry_run_change_mac interface (value mac))
    else if is_set (args_import_profile args)
    then call (procedure
                 (import_profile (value (args_import_profile args)) verbose true))
    else print_colored_io "[DRY RUN] No MAC change specified." "warning"
  else if is_set (args_export_profile args)
  then call (procedure (export_profile (value (args_export_profile args))))
  else if is_set (args_import_profile args)
  then call (procedure
               (import_profile (value (args_import_profile args)) verbose false))
  else print_colored_io
         "You must specify either --restore, --mac NEW_MAC, --show, or --list."
         "error".

(** Lines 348-436, after [get_arguments] returned [args]. *)
Definition main (args : Args) : Prog unit :=
  let interface := value (args_interface args) in
  call (console_print (Panel_Text "MAC Changer" "bold green"));;
  when (args_verbose args) (print_colored_io "Verbose mode enabled" "verbose");;
  if args_list_interfaces args then list_interfaces
  else
    when (is_set (args_interface args))
      (print_colored_io (String.append "Interface: " interface) "info");;
    if args_show_mac args && negb (is_set (args_interface args))
    then print_colored_io
           "You must specify an interface with -i or --interface when using --show."
           "error"
    else if args_show_mac args && is_set (args_interface args)
    then
      mac ← get_mac_from_ifconfig interface;
      if is_set mac
      then print_colored_io
             (String.append "Current MAC for "
                (String.append interface (String.append ": " (fmt mac))))
             "success"
      else print_colored_io
             (String.append "Could not retrieve MAC for "
                (String.append interface ".")) "error"
    else if negb (is_set (args_interface args))
    then print_colored_io
           "You must specify an interface with -i or --interface (unless using --list)."
           "error"
    else
      ifconfig_output ← get_ifconfig_output;
      let interfaces := get_interfaces ifconfig_output in
      if negb (existsb (String.eqb interface) interfaces)
      then
        print_colored_io
          (String.append "Error: Interface '"
             (String.append interface "' does not exist!")) "error";;
        print_colored_io
          (String.append "Available interfaces: " (join ", " interfaces))
          "warning"
      else
        interface_block ← get_interface_block interface;
        mac ← get_mac_from_ifconfig interface;
        (if is_set mac
         then call (console_print
                      (Panel_from_markup
                         (re_sub (value mac)
                            (String.append "[bold green]"
                               (String.append (value mac) "[/bold green]"))
                            interface_block)
                         (info_title interface)))
         else call (console_print
                      (Panel_str interface_block (info_title interface))));;
        dispatch args interface.

End Main.

(** *** What a run did *)

(** The process that a call starts: the argument list of
    [subprocess.check_output] (lines 98 and 110) or of
    [subprocess.check_call] (lines 186-192 and 219-225). *)
Definition command_of (ev : Event) : option (list string) :=
  match ev with
  | Ev op _ =>
    match op with
    | check_output args => Some args
    | check_call args => Some args
    | _ => None
    end
  end.

Definition check_call_of (ev : Event) : option (list string) :=
  match ev with
  | Ev op _ => match op with check_call args => Some args | _ => None end
  end.

Definition completed_of (ev : Event) : option (list string) :=
  match ev with
  | Ev op (Returns _) =>
    match op with check_call args => Some args | _ => None end
  | _ => None
  end.

(** A file that a call writes to: the save file of lines 138-139, with
    its new content, or the log file of lines 41-43, with the message of
    the line appended to it. *)
Inductive Write : Type :=
| Save_file (path content : string)
| Log_line (message : string).

Definition written_of (ev : Event) : option Write :=
  match ev with
  | Ev op _ =>
    match op with
    | write_text path content => Some (Save_file path content)
    | append_log message => Some (Log_line message)
    | _ => None
    end
  end.

Definition procedure_of (ev : Event) : option Procedure :=
  match ev with
  | Ev op _ => match op with procedure p => Some p | _ => None end
  end.

Definition printed_of (ev : Event) : option Printed :=
  match ev with
  | Ev op (Returns _) =>
    match op with console_print what => Some what | _ => None end
  | _ => None
  end.

(** Of a run: every process it started, in order; those started by
    [check_call]; those of them that returned; the files it wrote to, in
    order; the procedures it called; what it printed. *)
Definition commands (t : list Event) : list (list string) := omap command_of t.

Definition check_calls (t : list Event) : list (list string) :=
  omap check_call_of t.

Definition completed (t : list Event) : list (list string) := omap completed_of t.

Definition written (t : list Event) : list Write := omap written_of t.

Definition procedures (t : list Event) : list Procedure := omap procedure_of t.

Definition printed (t : list Event) : list Printed := omap printed_of t.

(** Every call of [p], whatever the answers, is one that [allowed] admits. *)
Fixpoint performs {A} (allowed : forall B, Op B -> bool) (p : Prog A) : Prop :=
  match p with
  | Do op k => allowed _ op = true /\ forall r, performs allowed (k r)
  | _ => True
  end.

Definition event_ok (allowed : forall B, Op B -> bool) (ev : Event) : bool :=
  match ev with Ev op _ => allowed _ op end.

(** [["ifconfig"]] and [["ifconfig", interface]], the two commands of
    [check_output]: they print the state of the interfaces and change
    nothing. *)
Definition is_ifconfig (args : list string) : bool :=
  match args with
  | [c] => String.eqb c "ifconfig"
  | [c; _] => String.eqb c "ifconfig"
  | _ => false
  end.

(** Reading and printing: of the processes only [ifconfig] without
    [sudo], through [check_output]; no file written to, no procedure. *)
Definition harmless B (op : Op B) : bool :=
  match op with
  | check_output args => is_ifconfig args
  | check_call _ | write_text _ _ | append_log _ | procedure _ => false
  | _ => true
  end.

(** Anything but starting a process. *)
Definition no_command B (op : Op B) : bool :=
  match op with
  | check_output _ | check_call _ => false
  | _ => true
  end.

(** *** Notions for the properties of the procedures *)

(** The three commands that set the address [mac]. *)
Definition hw_commands (interface mac : string) : list (list string) :=
  [sudo_ifconfig interface ["down"%string];
   sudo_ifconfig interface ["hw"; "ether"; mac]%string;
   sudo_ifconfig interface ["up"%string]].

(** Each command of [check_call] but the last one has returned. *)
Definition one_at_a_time (t : list Event) : Prop :=
  completed t = check_calls t \/ exists c, check_calls t = completed t ++ [c].

(** The command of line 110. *)
Definition ifconfig_of (interface : string) : list string :=
  ["ifconfig"%string; interface].

(** The messages of lines 141, 193 and 226. *)
Definition saved_message (interface mac : string) : string :=
  String.append "Saved original MAC for "
    (String.append interface (String.append ": " mac)).

Definition changed_message (interface : string) (old_mac : option string)
           (new_mac : string) : string :=
  String.append "Changed MAC for "
    (String.append interface
       (String.append " from "
          (String.append (fmt old_mac) (String.append " to " new_mac)))).

Definition restored_message (interface orig_mac : string) : string :=
  String.append "Restored MAC for "
    (String.append interface (String.append " to " orig_mac)).

(** The first part of [change_mac], lines 171-176. *)
Definition announce_old (interface : string) (old_mac : option string)
           (force_overwrite : bool) : Prog unit :=
  if is_set old_mac
  then
    print_colored_io
      (String.append "Old MAC address: " (fmt old_mac)) "warning";;
    save_original_mac interface (value old_mac) force_overwrite
  else
    print_colored_io "Could not read the current MAC address." "error".

(** The last part of [change_mac], lines 200-208. *)
Definition check_new (interface new_mac : string) : Prog unit :=
  new_mac_actual ← get_mac_from_ifconfig interface;
  if is_set new_mac_actual
  then
    print_colored_io
      (String.append "New MAC address: " (fmt new_mac_actual)) "success";;
    if String.eqb (lower (value new_mac_actual)) (lower new_mac)
    then print_colored_io "MAC address was successfully changed!" "success"
    else print_colored_io "MAC address did not change as expected!" "error"
  else print_colored_io "Could not read the new MAC address." "error".

(** What [change_mac] does between the two, lines 177-199, and then the
    last part. *)
Definition apply_new (interface new_mac : string) (old_mac : option string)
           (verbose : bool) : Prog unit :=
  if negb (is_valid_mac new_mac)
  then print_colored_io
         (String.append "Invalid MAC address format: " new_mac) "error"
  else if is_set old_mac && String.eqb (lower (value old_mac)) (lower new_mac)
  then print_colored_io
         "The new MAC address is the same as the current one. No change needed."
         "warning"
  else
    changed ←
      try_except
        (set_hw_ether interface new_mac "Changing" verbose;;
         log_action
           (String.append "Changed MAC for "
              (String.append interface
                 (String.append " from "
                    (String.append (fmt old_mac)
                       (String.append " to " new_mac)))));;
         Return true)
        CalledProcessError
        (command_failed "change");
    if negb changed then Return tt
    else check_new interface new_mac.

(** The line of line 204, as [print_colored] prints it. *)
Definition changed_line : Printed :=
  Styled "MAC address was successfully changed!" "bold green".

(** Anything but printing that line. *)
Definition not_changed_line B (op : Op B) : bool :=
  match op with
  | console_print (Styled message _) =>
    negb (String.eqb message "MAC address was successfully changed!")
  | _ => true
  end.

(** [args] with another value of [--dry-run]. *)
Definition with_dry_run (dry_run : bool) (args : Args) : Args :=
  {| args_interface := args_interface args;
     args_new_mac := args_new_mac args;
     args_restore := args_restore args;
     args_list_interfaces := args_list_interfaces args;
     args_show_mac := args_show_mac args;
     args_verbose := args_verbose args;
     args_force_overwrite := args_force_overwrite args;
     args_random := args_random args;
     args_vendor := args_vendor args;
     args_restore_all := args_restore_all args;
     args_history := args_history args;
     args_dry_run := dry_run;
     args_export_profile := args_export_profile args;
     args_import_profile := args_import_profile args |}.

(** One of the options that [main] tests before [--dry-run]. *)
Definition asks_for_action (args : Args) : bool :=
  args_restore args || is_set (args_new_mac args) || args_random args
  || is_set (args_vendor args) || args_restore_all args || args_history args.

(** The run started no command through [check_call], wrote to no file
    and called no procedure. *)
Definition quiet (t : list Event) : Prop :=
  check_calls t = [] /\ written t = [] /\ procedures t = [].

(** Reading, printing, and [import_profile] in dry-run mode. *)
Definition dry B (op : Op B) : bool :=
  match op with
  | check_output args => is_ifconfig args
  | check_call _ | write_text _ _ | append_log _ => false
  | procedure p =>
    match p with
    | import_profile _ _ true => true
    | _ => false
    end
  | _ => true
  end.

(** *** A machine to run the procedures on

    One interface, [eth0]; [ifconfig] shows the address that the last
    [hw ether] command set, every command succeeds, and the save file holds
    what was last written to it. *)

(** The address of a command of six words that returned. *)
Definition hw_ether_of (ev : Event) : option string :=
  match ev with
  | Ev op (Returns _) =>
    match op with
    | check_call [_; _; _; _; _; mac] => Some mac
    | _ => None
    end
  | _ => None
  end.

Definition current_mac (h : list Event) : string :=
  default "08:00:27:aa:bb:cc"%string (last (omap hw_ether_of h)).

Definition content_of (wr : Write) : option string :=
  match wr with
  | Save_file _ content => Some content
  | Log_line _ => None
  end.

Definition saved_mac (h : list Event) : option string :=
  last (omap content_of (written h)).

(** What [ifconfig] prints for [eth0] with the address [mac]. *)
Definition ifconfig_text (mac : string) : string :=
  String.append "eth0: flags=4163<UP,BROADCAST,RUNNING,MULTICAST>  mtu 1500"
    (String newline
       (String.append "        ether "
          (String.append mac
             (String.append "  txqueuelen 1000  (Ethernet)"
                (String newline EmptyString))))).

Definition machine : World :=
  fun B h op =>
    match op in Op B return Result B with
    | check_output _ => Returns (ifconfig_text (current_mac h))
    | check_call _ => Returns tt
    | console_print _ => Returns tt
    | stderr_print _ => Returns tt
    | get_mac_savefile interface =>
      Returns (String.append "/root/.machanger/" (String.append interface ".mac"))
    | path_exists _ => Returns (bool_decide (is_Some (saved_mac h)))
    | write_text _ _ => Returns tt
    | read_text _ =>
      match saved_mac h with
      | Some content => Returns content
      | None => Raises {| exn_class := OSError; exn_str := "No such file" |}
      end
    | append_log _ => Returns tt
    | procedure _ => Returns tt
    end.

(** The same machine, but it refuses to set an address: the command of
    six words exits with status 1. *)
Definition is_hw_ether {B} (op : Op B) : bool :=
  match op with
  | check_call [_; _; _; _; _; _] => true
  | _ => false
  end.

Definition refusing_machine : World :=
  fun B h op =>
    if is_hw_ether op
    then Raises {| exn_class := CalledProcessError;
                   exn_str := "Command returned non-zero exit status 1." |}
    else machine B h op.

(** A machine whose save file holds something that is no address. *)
Definition stale_machine : World :=
  fun B h op =>
    match op in Op B return Result B with
    | check_output _ => Returns (ifconfig_text "08:00:27:aa:bb:cc")
    | check_call _ => Returns tt
    | console_print _ => Returns tt
    | stderr_print _ => Returns tt
    | get_mac_savefile interface =>
      Returns (String.append "/root/.machanger/" (String.append interface ".mac"))
    | path_exists _ => Returns true
    | write_text _ _ => Returns tt
    | read_text _ =>
      Returns (String.append "  not-a-mac" (String newline EmptyString))
    | append_log _ => Returns tt
    | procedure _ => Returns tt
    end.

(** [-i eth0 --dry-run --mac 02:00:00:00:00:01]. *)
Definition dry_mac_args : Args :=
  {| args_interface := Some "eth0"%string;
     args_new_mac := Some "02:00:00:00:00:01"%string;
     args_restore := false;
     args_list_interfaces := false; args_show_mac := false;
     args_verbose := false; args_force_overwrite := false;
     args_random := false; args_vendor := None; args_restore_all := false;
     args_history := false; args_dry_run := true;
     args_export_profile := None; args_import_profile := None |}.

(** [-i eth0 --dry-run --import-profile home]. *)
Definition dry_import_args : Args :=
  {| args_interface := Some "eth0"%string;
     args_new_mac := None;
     args_restore := false;
     args_list_interfaces := false; args_show_mac := false;
     args_verbose := false; args_force_overwrite := false;
     args_random := false; args_vendor := None; args_restore_all := false;
     args_history := false; args_dry_run := true;
     args_export_profile := None; args_import_profile := Some "home"%string |}.

(** [--list]. *)
Definition list_args : Args :=
  {| args_interface := None;
     args_new_mac := None;
     args_restore := false;
     args_list_interfaces := true; args_show_mac := false;
     args_verbose := false; args_force_overwrite := false;
     args_random := false; args_vendor := None; args_restore_all := false;
     args_history := false; args_dry_run := false;
     args_export_profile := None; args_import_profile := None |}.

(** A [random.randint] that always answers [lo], and an [int(x, 16)] for
    strings of hexadecimal digits only. *)
Definition lowest_randint (k : nat) (lo hi : Z) : Z := lo.

Fixpoint hex_number_from (acc : Z) (s : string) : option Z :=
  match s with
  | EmptyString => Some acc
  | String c s' =>
    if is_hex c then hex_number_from (16 * acc + hex_value c) s' else None
  end.

Definition hex_number (s : string) : option Z :=
  match s with
  | EmptyString => None
  | _ => hex_number_from 0 s
  end.

End MacChanger.

Section BruteForcer.

(** [requests.post(url, data=data)], the candidate sequence and the pool
    size.  The script fixes the last two to [password_list] and
    [MAX_WORKERS]. *)
Variable requests_post : string -> list (string * string) -> Response.
Variable candidates : list string.
Variable max_workers : nat.

(** Lines 30-31. *)
Definition data (password : string) : list (string * string) :=
  [("username"%string, username); ("password"%string, password)].

Definition oracle (password : string) : Response :=
  requests_post url (data password).

(** Line 33: the response came back and does not contain "Invalid". *)
Definition accepts (password : string) : bool :=
  match oracle password with
  | Text body => negb (contains "Invalid" body)
  | Raise _ | Raise_base _ => false
  end.

(** One step of [log], lines 19-23, called by the task at index [i] with
    [message]: take the lock, test the flag, print or not, release the
    lock; the caller then returns [False] (line 44).  [None]: the lock is
    taken and the thread waits. *)
Definition log (i : nat) (password : string) (pc : WorkerPc) (s : State)
  : option State :=
  let next pc' := goto i password (Running pc') in
  match pc with
  | W_log_lock message =>
    if lock s then None
    else Some (next (W_log_test message) (set_lock true s))
  | W_log_test message =>
    if negb (found_password s)
    then Some (next (W_log_print message) s)
    else Some (next W_log_unlock s)
  | W_log_print message => Some (next W_log_unlock (print message s))
  | W_log_unlock =>
    Some (goto i password (Finished false) (set_lock false s))
  | _ => None
  end.

(** One step of [try_password], lines 25-44, for the task at index [i].
    [None]: the thread cannot move, because the task is not running or
    the lock is taken.  At line 31 the call is made, with the dictionary
    of line 30, and what the endpoint does with it is on its way; when it
    arrives, a response is tested at line 33, an exception that derives
    from [Exception] is caught at line 42, and any other exception leaves
    [try_password]. *)
Definition try_password (i : nat) (s : State) : option State :=
  match futures s !! i with
  | Some (password, Running pc) =>
    let next pc' := goto i password (Running pc') in
    let ret b := goto i password (Finished b) in
    match pc with
    | W_check =>
      if found_password s then Some (ret false s) else Some (next W_post s)
    | W_post =>
      let d := data password in
      Some (next (W_await (requests_post url d)) (send password url d s))
    | W_await response =>
      match response with
      | Text body =>
        if negb (contains "Invalid" body)
        then Some (next W_claim_lock s)
        else Some (next (W_log_lock (attempted_line password)) s)
      | Raise e => Some (next (W_log_lock (error_line password e)) s)
      | Raise_base _ => Some (goto i password Failed s)
      end
    | W_claim_lock =>
      if lock s then None else Some (next W_claim_test (set_lock true s))
    | W_claim_test =>
      if negb (found_password s)
      then Some (next W_set_found s)
      else Some (next W_claim_unlock s)
    | W_set_found => Some (next W_set_correct (set_found true s))
    | W_set_correct => Some (next W_print_found (set_correct (Some password) s))
    | W_print_found => Some (next W_return_true (print (found_line password) s))
    | W_return_true => Some (ret true (set_lock false s))
    | W_claim_unlock => Some (ret false (set_lock false s))
    | W_log_lock _ | W_log_test _ | W_log_print _ | W_log_unlock =>
      log i password pc s
    end
  | _ => None
  end.

(** The pool: at most [max_workers] work items run at a time, and they
    are taken from the queue in submission order. *)
Definition pool_start (s : State) : option State :=
  if decide (count is_running (futures s) < max_workers) then
    match first_pending (futures s) with
    | Some (i, password) => Some (goto i password (Running W_check) s)
    | None => None
    end
  else None.

(** [Future.cancel()]: a pending future becomes cancelled, any other is
    left alone. *)
Definition cancel (j : nat) (s : State) : State :=
  match futures s !! j with
  | Some (password, Pending) => goto j password Cancelled s
  | _ => s
  end.

(** One step of [run].  [as_completed] hands out every done future once
    and the loop body does not look at which one it got, so counting
    them is enough. *)
Definition run (s : State) : option State :=
  match main s with
  | M_submit k =>
    match candidates !! k with
    | Some password =>
      Some (set_main (M_submit (S k))
              (set_futures (futures s ++ [(password, Pending)]) s))
    | None => Some (set_main M_wait s)
    end
  | M_wait =>
    if decide (yielded s < count is_done (futures s))
    then Some (set_main M_test (set_yielded (S (yielded s)) s))
    else if decide (count is_done (futures s) = length (futures s))
         then Some (set_main M_shutdown s)
         else None
  | M_test =>
    if found_password s
    then Some (set_main (M_cancel 0) s)
    else Some (set_main M_wait s)
  | M_cancel j =>
    if decide (j < length (futures s))
    then Some (set_main (M_cancel (S j)) (cancel j s))
    else Some (set_main M_shutdown s)
  | M_shutdown => Some (set_main M_join s)
  | M_join =>
    if decide (count is_active (futures s) = 0)
    then Some (set_main M_done s)
    else None
  | M_done => None
  end.

Definition step (c : Choice) (s : State) : option State :=
  match c with
  | Main => run s
  | Start => pool_start s
  | Worker i => try_password i s
  end.

(** Run a schedule; [None] if it asks a thread to move that cannot. *)
Fixpoint exec (schedule : list Choice) (s : State) : option State :=
  match schedule with
  | [] => Some s
  | c :: schedule' =>
    match step c s with
    | Some s' => exec schedule' s'
    | None => None
    end
  end.

Definition reachable (s : State) : Prop :=
  exists schedule, exec schedule init = Some s.

(** What a caller reads off the object when [run] has returned. *)
Definition run_result (s : State) : RunOutcome :=
  if found_password s then Found (correct_password s) else Exhausted.

(** A scheduler of our own, to run the program by computation: the
    lowest-numbered task that can move, else the pool, else the main
    thread; [simulate] follows it for at most [fuel] steps. *)
Definition choices (s : State) : list Choice :=
  map Worker (seq 0 (length (futures s))) ++ [Start; Main].

Definition enabled (s : State) (c : Choice) : bool :=
  match step c s with Some _ => true | None => false end.

Definition pick (s : State) : option Choice :=
  List.find (enabled s) (choices s).

Fixpoint simulate (fuel : nat) (s : State) : State :=
  match fuel with
  | 0 => s
  | S fuel' =>
    match pick s with
    | Some c => match step c s with
                | Some s' => simulate fuel' s'
                | None => s
                end
    | None => s
    end
  end.

(** The schedule that [simulate] follows. *)
Fixpoint trace (fuel : nat) (s : State) : list Choice :=
  match fuel with
  | 0 => []
  | S fuel' =>
    match pick s with
    | Some c => match step c s with
                | Some s' => c :: trace fuel' s'
                | None => []
                end
    | None => []
    end
  end.

(** The state a schedule leads to from [init]. *)
Definition state_after (schedule : list Choice) : State :=
  default init (exec schedule init).

(** ** Derived notions *)

(** Steps the main thread can still take, given how many futures exist
    and how many it has been handed. *)
Definition main_weight (m : MainPc) (len y : nat) : nat :=
  match m with
  | M_submit k => 14 * (length candidates - k) + 3 * len + 6
  | M_wait => 2 * (len - y) + len + 5
  | M_test => 2 * (len - y) + len + 6
  | M_cancel j => (len - j) + 3
  | M_shutdown => 2
  | M_join => 1
  | M_done => 0
  end.

Definition measure (s : State) : nat :=
  main_weight (main s) (length (futures s)) (yielded s)
  + total future_weight (futures s).

(** The bound for a whole run. *)
Definition step_bound : nat := 14 * length candidates + 6.

(** How many candidates line 48 has submitted when the main thread
    stands at [m]. *)
Definition submitted (m : MainPc) : nat :=
  match m with
  | M_submit k => k
  | _ => length candidates
  end.

(** *** Invariants *)

(** Why [log] was called with [m] by the task for [p]: line 41 after a
    response that contains "Invalid", or line 43 after a fault. *)
Definition log_origin (p m : string) : Prop :=
  (exists body, oracle p = Text body /\
                contains "Invalid" body = true /\ m = attempted_line p) \/
  (exists e, oracle p = Raise e /\ m = error_line p e).

(** What the status of a task tells about its candidate and about the
    shared fields [found_password] and [correct_password]. *)
Definition task_ok (found : bool) (correct : option string)
           (p : string) (f : Future) : Prop :=
  match f with
  | Pending => True
  | Cancelled => found = true
  | Failed => exists e, oracle p = Raise_base e
  | Finished true =>
    accepts p = true /\ found = true /\ correct = Some p
  | Finished false => accepts p = true -> found = true
  | Running pc =>
    match pc with
    | W_check | W_post => True
    | W_await response => response = oracle p
    | W_claim_lock | W_claim_test => accepts p = true
    | W_set_found =>
      accepts p = true /\ found = false /\ correct = None
    | W_set_correct =>
      accepts p = true /\ found = true /\ correct = None
    | W_print_found | W_return_true =>
      accepts p = true /\ found = true /\ correct = Some p
    | W_claim_unlock => accepts p = true /\ found = true
    | W_log_lock m | W_log_test m =>
      accepts p = false /\ log_origin p m
    | W_log_print m =>
      accepts p = false /\ log_origin p m /\ found = false
    | W_log_unlock => accepts p = false
    end
  end.

(** What the position of the main thread tells. *)
Definition main_ok (s : State) : Prop :=
  match main s with
  | M_submit _ => yielded s = 0
  | M_cancel _ => found_password s = true
  | M_done => count is_active (futures s) = 0
  | _ => True
  end.

Record Inv (s : State) : Prop := {
  inv_lock : count holds_lock (futures s) = if lock s then 1 else 0;
  inv_flag : count flag_set (futures s) = if found_password s then 1 else 0;
  inv_correct : correct_password s <> None -> found_password s = true;
  inv_tasks : forall i p f, futures s !! i = Some (p, f) ->
    task_ok (found_password s) (correct_password s) p f;
  inv_submitted : (fst <$> futures s) = take (submitted (main s)) candidates;
  inv_main : main_ok s;
  inv_running : count is_running (futures s) <= max_workers;
  inv_stdout : filter (fun l => is_found_line l = true) (stdout s)
               = (found_line <$> passwords_where has_printed (futures s));
  inv_posted : found_password s = false ->
    posted s ≡ₚ passwords_where has_posted (futures s);
}.

(** Whatever the scheduler does, the run ends, and it ends in a state
    that satisfies [Q]: no schedule is longer than [step_bound], a state
    in which [run] has not returned has a thread that can move, and [Q]
    holds once [run] has returned. *)
Definition run_terminates_with (Q : State -> Prop) : Prop :=
  forall schedule s,
    exec schedule init = Some s ->
    length schedule <= step_bound /\
    (main s = M_done \/
     exists c s', step c s = Some s') /\
    (main s = M_done -> Q s).

(** [target] is the one candidate of the sequence that the endpoint
    accepts. *)
Definition only_success (target : string) : Prop :=
  In target candidates /\
  accepts target = true /\
  forall p, In p candidates -> accepts p = true -> p = target.

(** No candidate of the sequence is accepted. *)
Definition no_success : Prop :=
  forall p, In p candidates -> accepts p = false.

(** *** Notions for the further properties *)

(** The task has passed line 26 and its request has not left yet. *)
Definition at_post (f : Future) : bool :=
  match f with Running W_post => true | _ => false end.

(** The task is queued, or it runs and its request has not left yet. *)
Definition before_request (f : Future) : bool :=
  match f with
  | Pending | Running (W_check | W_post) => true
  | _ => false
  end.

(** The states that a schedule passes through, the first one included. *)
Fixpoint states (schedule : list Choice) (s : State) : list State :=
  s :: match schedule with
       | [] => []
       | c :: schedule' =>
         match step c s with
         | Some s' => states schedule' s'
         | None => []
         end
       end.

(** What a printed line says about the endpoint: an Attempted line, that
    the response to that candidate contained "Invalid"; an Error line,
    that the request for that candidate raised with that text; a winning
    line, that the candidate was accepted. *)
Definition line_origin (line : string) : Prop :=
  (exists p body, In p candidates /\ oracle p = Text body /\
                  contains "Invalid" body = true /\ line = attempted_line p) \/
  (exists p e, In p candidates /\ oracle p = Raise e /\
               line = error_line p e) \/
  (exists p, In p candidates /\ accepts p = true /\ line = found_line p).

(** * Proofs *)

(** ** Sums and counts over the futures list *)

Lemma total_app w fs gs : total w (fs ++ gs) = total w fs + total w gs.
Proof.
  induction fs as [|[p f] fs IH]; simpl; [done|]. rewrite IH. lia.
Qed.

Lemma total_insert w fs i p f g :
  fs !! i = Some (p, f) ->
  total w (<[i := (p, g)]> fs) + w f = total w fs + w g.
Proof.
  revert i. induction fs as [|[q h] fs IH]; intros [|i] Hi; simplify_eq/=.
  - lia.
  - specialize (IH _ Hi). lia.
Qed.

Lemma count_insert P fs i p f g :
  fs !! i = Some (p, f) ->
  count P (<[i := (p, g)]> fs) + (if P f then 1 else 0)
  = count P fs + (if P g then 1 else 0).
Proof. apply (total_insert (fun f => if P f then 1 else 0)). Qed.

Lemma count_app P fs gs : count P (fs ++ gs) = count P fs + count P gs.
Proof. apply total_app. Qed.

Lemma count_snoc P fs p f :
  count P (fs ++ [(p, f)]) = count P fs + (if P f then 1 else 0).
Proof. rewrite count_app. unfold count. simpl. lia. Qed.

Lemma count_le_length P fs : count P fs <= length fs.
Proof.
  unfold count. induction fs as [|[p f] fs IH]; simpl; [lia|].
  destruct (P f); lia.
Qed.

Lemma count_zero P fs i p f :
  count P fs = 0 -> fs !! i = Some (p, f) -> P f = false.
Proof.
  unfold count. revert i.
  induction fs as [|[q h] fs IH]; intros [|i] H0 Hi; simplify_eq/=.
  - destruct (P f); [lia|done].
  - eapply IH; [lia|done].
Qed.

Lemma count_pos P fs :
  0 < count P fs -> exists i p f, fs !! i = Some (p, f) /\ P f = true.
Proof.
  unfold count. induction fs as [|[q h] fs IH]; simpl; [lia|].
  destruct (P h) eqn:Hh; intros Hpos.
  - by exists 0, q, h.
  - destruct IH as (i & p & f & ? & ?); [lia|]. by exists (S i), p, f.
Qed.

Lemma count_mono (P Q : Future -> bool) fs :
  (forall f, P f = true -> Q f = true) -> count P fs <= count Q fs.
Proof.
  intros HPQ. unfold count. induction fs as [|[q h] fs IH]; simpl; [lia|].
  specialize (HPQ h). destruct (P h), (Q h); try lia.
  all: discriminate (HPQ eq_refl).
Qed.

Lemma count_unique P fs i j p q f g :
  count P fs <= 1 ->
  fs !! i = Some (p, f) -> fs !! j = Some (q, g) ->
  P f = true -> P g = true -> i = j.
Proof.
  unfold count. revert i j.
  induction fs as [|[r h] fs IH]; intros [|i] [|j] Hle Hi Hj Hf Hg;
    simplify_eq/=; try done.
  - rewrite Hf in Hle.
    pose proof (count_zero P fs j q g) as Hz. unfold count in Hz.
    rewrite Hz in Hg; [done|lia|done].
  - rewrite Hg in Hle.
    pose proof (count_zero P fs i p f) as Hz. unfold count in Hz.
    rewrite Hz in Hf; [done|lia|done].
  - f_equal. eapply IH; eauto. destruct (P h); lia.
Qed.

Lemma count_lookup P fs i p f :
  fs !! i = Some (p, f) -> P f = true -> 1 <= count P fs.
Proof.
  intros Hi Hf. destruct (count P fs) eqn:Hc; [|lia].
  by rewrite (count_zero P fs i p f Hc Hi) in Hf.
Qed.

Lemma count_none P fs :
  (forall i p f, fs !! i = Some (p, f) -> P f = false) -> count P fs = 0.
Proof.
  unfold count. induction fs as [|[q h] fs IH]; intros Hall; simpl; [done|].
  rewrite (Hall 0 q h eq_refl). simpl. apply IH.
  intros i p f Hi. apply (Hall (S i) p f Hi).
Qed.

Lemma passwords_where_snoc P fs p f :
  passwords_where P (fs ++ [(p, f)])
  = passwords_where P fs ++ (if P f then [p] else []).
Proof.
  induction fs as [|[q h] fs IH]; simpl; [by destruct (P f)|].
  rewrite IH. by destruct (P h).
Qed.

Lemma passwords_where_insert_same P fs i p f g :
  fs !! i = Some (p, f) -> P f = P g ->
  passwords_where P (<[i := (p, g)]> fs) = passwords_where P fs.
Proof.
  revert i. induction fs as [|[q h] fs IH]; intros [|i] Hi Hfg; simplify_eq/=.
  - by rewrite Hfg.
  - by rewrite (IH i).
Qed.

Lemma passwords_where_insert_add P fs i p f g :
  fs !! i = Some (p, f) -> P f = false -> P g = true ->
  passwords_where P (<[i := (p, g)]> fs) ≡ₚ p :: passwords_where P fs.
Proof.
  revert i. induction fs as [|[q h] fs IH]; intros [|i] Hi Hf Hg; simplify_eq/=.
  - by rewrite Hf, Hg.
  - destruct (P h); rewrite (IH i) by done; [apply perm_swap|done].
Qed.

Lemma passwords_where_none P fs :
  count P fs = 0 -> passwords_where P fs = [].
Proof.
  unfold count. induction fs as [|[q h] fs IH]; simpl; [done|].
  destruct (P h); [lia|]. intros. by apply IH.
Qed.

Lemma passwords_where_insert_first P fs i p f g :
  count P fs = 0 -> fs !! i = Some (p, f) -> P g = true ->
  passwords_where P (<[i := (p, g)]> fs) = [p].
Proof.
  unfold count. revert i.
  induction fs as [|[q h] fs IH]; intros [|i] Hc Hi Hg; simplify_eq/=.
  - rewrite Hg. f_equal. apply passwords_where_none. unfold count.
    destruct (P f); lia.
  - destruct (P h); [lia|]. by apply IH.
Qed.

Lemma passwords_where_length P fs :
  length (passwords_where P fs) = count P fs.
Proof.
  unfold count. induction fs as [|[q h] fs IH]; simpl; [done|].
  destruct (P h); simpl; by rewrite IH.
Qed.

Lemma passwords_where_lookup P fs i p f :
  fs !! i = Some (p, f) -> P f = true -> p ∈ passwords_where P fs.
Proof.
  revert i. induction fs as [|[q h] fs IH]; intros [|i] Hi Hf; simplify_eq/=.
  - rewrite Hf. left.
  - destruct (P h); [right|]; by eapply IH.
Qed.

Lemma passwords_where_all P fs :
  (forall i p f, fs !! i = Some (p, f) -> P f = true) ->
  passwords_where P fs = (fst <$> fs).
Proof.
  induction fs as [|[q h] fs IH]; intros Hall; simpl; [done|].
  rewrite (Hall 0 q h eq_refl). f_equal. apply IH.
  intros i p f Hi. apply (Hall (S i) p f Hi).
Qed.

Lemma passwords_where_submseteq P fs : passwords_where P fs ⊆+ (fst <$> fs).
Proof.
  induction fs as [|[q h] fs IH]; simpl; [done|].
  destruct (P h); by constructor.
Qed.

Lemma is_found_line_found p : is_found_line (found_line p) = true.
Proof. reflexivity. Qed.

Lemma is_found_line_attempted p : is_found_line (attempted_line p) = false.
Proof. reflexivity. Qed.

Lemma is_found_line_error p e : is_found_line (error_line p e) = false.
Proof. reflexivity. Qed.

Lemma first_pending_Some fs i p :
  first_pending fs = Some (i, p) -> fs !! i = Some (p, Pending).
Proof.
  revert i. induction fs as [|[q h] fs IH]; intros i Hi; [done|].
  destruct h; simpl in Hi; try (by simplify_eq/=);
    destruct (first_pending fs) as [[k r]|]; simplify_eq/=; by apply IH.
Qed.

Lemma first_pending_None fs :
  first_pending fs = None -> count is_pending fs = 0.
Proof.
  unfold count. induction fs as [|[q h] fs IH]; [done|].
  destruct h; simpl; try done;
    destruct (first_pending fs); simpl; try done; intros _; by apply IH.
Qed.

(** ** The shape of a step *)

Ltac break_step H :=
  repeat match type of H with
         | context [match ?x with _ => _ end] => destruct x eqn:?
         end;
  try discriminate H;
  try (injection H as <-);
  subst;
  repeat match goal with
         | H' : first_pending _ = Some _ |- _ => apply first_pending_Some in H'
         | H' : negb ?x = _ |- _ =>
           destruct x eqn:?; simpl in H'; try discriminate H'; clear H'
         | H' : decide _ = _ |- _ => clear H'
         end.

Ltac step_cases H :=
  match type of H with
  | step ?c ?s = Some _ =>
    destruct c; simpl in H;
    [ unfold run, cancel in H
    | unfold pool_start in H
    | unfold try_password, log in H ];
    break_step H; simpl;
    repeat match goal with
           | E : found_password ?s = _ |- context [found_password ?s] => rewrite E
           | E : lock ?s = _ |- context [lock ?s] => rewrite E
           end
  end.

(** Rewrite the counts of an updated futures list in terms of the old one. *)
Ltac counts :=
  repeat match goal with
         | H : ?fs !! ?i = Some (?p, ?f)
           |- context [count ?P (<[?i := (?p, ?g)]> ?fs)] =>
           let E := fresh "E" in
           pose proof (count_insert P fs i p f g H) as E; simpl in E;
           generalize dependent (count P (<[i := (p, g)]> fs)); intros
         | H : ?fs !! ?i = Some (?p, ?f),
           H' : context [count ?P (<[?i := (?p, ?g)]> ?fs)] |- _ =>
           let E := fresh "E" in
           pose proof (count_insert P fs i p f g H) as E; simpl in E;
           generalize dependent (count P (<[i := (p, g)]> fs)); intros
         | |- context [count ?P (?fs ++ [_])] =>
           rewrite (count_snoc P fs); simpl
         end.

(** The same for the weights of the termination measure. *)
Ltac weights :=
  repeat match goal with
         | H : ?fs !! ?i = Some (?p, ?f)
           |- context [total ?w (<[?i := (?p, ?g)]> ?fs)] =>
           let E := fresh "E" in
           pose proof (total_insert w fs i p f g H) as E; simpl in E;
           generalize dependent (total w (<[i := (p, g)]> fs)); intros
         | |- context [total ?w (?fs ++ [_])] =>
           rewrite (total_app w fs); simpl
         end.

(** What the invariant [HT] says about the task that moves. *)
Ltac task_fact HT :=
  match goal with
  | H : futures _ !! _ = Some _ |- _ =>
    let T := fresh "T" in pose proof (HT _ _ _ H) as T; simpl in T
  end.

(** What the invariant [HT] says about the response that arrives: it is
    the endpoint's answer to the candidate of the task. *)
Ltac await_fact HT :=
  try match goal with
      | H : futures _ !! _ = Some (_, Running (W_await _)) |- _ =>
        let E := fresh "E" in
        pose proof (HT _ _ _ H) as E; simpl in E; symmetry in E
      end.

(** A property that holds initially and is kept by every step holds in
    every reachable state. *)
Lemma reachable_ind (I : State -> Prop) :
  I init ->
  (forall c s s', reachable s -> I s -> step c s = Some s' -> I s') ->
  forall s, reachable s -> I s.
Proof.
  intros Hinit Hstep s [schedule Hs].
  assert (Hgen : forall sch s0, reachable s0 ->
             I s0 -> exec sch s0 = Some s -> I s).
  { clear schedule Hs. induction sch as [|c sch IH]; intros s0 Hr H0 He; simpl in He.
    - by simplify_eq.
    - destruct (step c s0) as [s1|] eqn:H1; [|done].
      apply (IH s1); [|by eapply Hstep|done].
      destruct Hr as [pre Hpre]. exists (pre ++ [c]).
      clear -Hpre H1. revert Hpre. generalize init.
      induction pre as [|d pre IHp]; intros s2 Hpre; simpl in *.
      + simplify_eq. by rewrite H1.
      + destruct (step d s2); [by apply IHp|done]. }
  apply (Hgen schedule init); [by exists []| done | done].
Qed.

(** *** The invariant, field by field *)

Lemma Inv_init : Inv init.
Proof.
  split; simpl; try done.
  all: unfold count; simpl; lia.
Qed.

Lemma lock_step c s s' :
  Inv s -> step c s = Some s' ->
  count holds_lock (futures s') = if lock s' then 1 else 0.
Proof.
  intros [HL _ _ _ _ _ _ _ _] Hstep.
  step_cases Hstep; try done; counts.
  all: try destruct (lock s); simplify_eq/=; lia.
Qed.

Lemma flag_step c s s' :
  Inv s -> step c s = Some s' ->
  count flag_set (futures s') = if found_password s' then 1 else 0.
Proof.
  intros [_ HF _ HT _ _ _ _ _] Hstep.
  step_cases Hstep; try done; counts.
  all: try (try destruct (found_password s); simplify_eq/=; lia).
  task_fact HT. destruct T as (? & ? & ?).
  destruct (found_password s); simplify_eq/=; lia.
Qed.

Lemma correct_step c s s' :
  Inv s -> step c s = Some s' ->
  correct_password s' <> None -> found_password s' = true.
Proof.
  intros [_ _ HC HT _ _ _ _ _] Hstep.
  step_cases Hstep; try done; try exact HC.
  all: task_fact HT; naive_solver.
Qed.

Lemma running_step c s s' :
  Inv s -> step c s = Some s' ->
  count is_running (futures s') <= max_workers.
Proof.
  intros [_ _ _ _ _ _ HR _ _] Hstep.
  step_cases Hstep; try done; counts; lia.
Qed.

Lemma task_ok_found c p f :
  task_ok false c p f -> holds_lock f = false -> task_ok true c p f.
Proof. destruct f as [|[]|[]| |]; simpl; naive_solver. Qed.

Lemma task_ok_correct fd p q f :
  task_ok fd None p f -> holds_lock f = false -> flag_set f = false ->
  task_ok fd (Some q) p f.
Proof. destruct f as [|[]|[]| |]; simpl; naive_solver. Qed.

(** Whoever is not the holder of the lock does not hold it. *)
Lemma not_holder s i j p q f g :
  Inv s -> futures s !! i = Some (p, f) -> holds_lock f = true ->
  futures s !! j = Some (q, g) -> i <> j -> holds_lock g = false.
Proof.
  intros [HL _ _ _ _ _ _ _ _] Hi Hf Hj Hne.
  destruct (holds_lock g) eqn:Hg; [|done].
  destruct Hne. eapply (count_unique holds_lock); eauto.
  rewrite HL. destruct (lock s); lia.
Qed.

Lemma not_flagger s i j p q f g :
  Inv s -> futures s !! i = Some (p, f) -> flag_set f = true ->
  futures s !! j = Some (q, g) -> i <> j -> flag_set g = false.
Proof.
  intros [_ HF _ _ _ _ _ _ _] Hi Hf Hj Hne.
  destruct (flag_set g) eqn:Hg; [|done].
  destruct Hne. eapply (count_unique flag_set); eauto.
  rewrite HF. destruct (found_password s); lia.
Qed.

Lemma accepts_Text p body :
  oracle p = Text body -> accepts p = negb (contains "Invalid" body).
Proof. unfold accepts. by intros ->. Qed.

Lemma accepts_Raise p e : oracle p = Raise e -> accepts p = false.
Proof. unfold accepts. by intros ->. Qed.

Lemma accepts_Raise_base p e : oracle p = Raise_base e -> accepts p = false.
Proof. unfold accepts. by intros ->. Qed.

Lemma tasks_step c s s' :
  Inv s -> step c s = Some s' ->
  forall j q h, futures s' !! j = Some (q, h) ->
    task_ok (found_password s') (correct_password s') q h.
Proof.
  intros HI Hstep.
  pose proof (inv_tasks _ HI) as HT.
  pose proof (inv_main _ HI) as HM. unfold main_ok in HM.
  pose proof (inv_correct _ HI) as HC.
  step_cases Hstep; try done; intros j' q h Hl.
  all: try (apply lookup_snoc_Some in Hl as [[_ Hl]|[_ [= <- <-]]];
            [by eapply HT|done]).
  all: await_fact HT.
  all: try match goal with
           | E : oracle _ = Text _ |- _ =>
             pose proof (accepts_Text _ _ E) as HA
           | E : oracle _ = Raise _ |- _ =>
             pose proof (accepts_Raise _ _ E) as HA
           | E : oracle _ = Raise_base _ |- _ =>
             pose proof (accepts_Raise_base _ _ E) as HA
           end.
  all: try match goal with
           | E : contains _ _ = _ |- _ => rewrite E in HA; simpl in HA
           end.
  all: try (apply list_lookup_insert_Some in Hl as [(<- & [= <- <-] & _)|[Hne Hl]];
            [try task_fact HT; simpl; unfold log_origin;
             try rewrite Heqm in HM;
             first [naive_solver
                   |intuition congruence
                   |destruct (correct_password s); naive_solver]|]).
  all: repeat match goal with
              | E : found_password _ = _ |- _ => rewrite E in HT
              end.
  all: try (by eapply HT).
  - destruct (HT _ _ _ Heqo) as (_ & Hfalse & _). rewrite Hfalse in *.
    apply task_ok_found; [by eapply HT|].
    by apply (not_holder s i j' s0 q (Running W_set_found) h).
  - destruct (HT _ _ _ Heqo) as (_ & _ & Hnone). rewrite Hnone in *.
    apply task_ok_correct; [by eapply HT| |].
    + by apply (not_holder s i j' s0 q (Running W_set_correct) h).
    + by apply (not_flagger s i j' s0 q (Running W_set_correct) h).
Qed.

Lemma log_origin_not_found_line p m :
  log_origin p m -> is_found_line m = false.
Proof. by intros [(? & _ & _ & ->)|(? & _ & ->)]. Qed.

Lemma submitted_step c s s' :
  Inv s -> step c s = Some s' ->
  (fst <$> futures s') = take (submitted (main s')) candidates.
Proof.
  intros HI Hstep. pose proof (inv_submitted _ HI) as HS.
  assert (Hins : forall i p f g, futures s !! i = Some (p, f) ->
             (fst <$> <[i := (p, g)]> (futures s)) = (fst <$> futures s)).
  { intros i p f g Hi. rewrite list_fmap_insert. apply list_insert_id.
    by rewrite list_lookup_fmap, Hi. }
  step_cases Hstep; try done.
  all: try (rewrite (Hins _ _ _ _ ltac:(eassumption)));
    try rewrite Heqm in HS; simpl in HS; try done.
  - rewrite fmap_snoc, HS. simpl. by erewrite take_S_r.
  - rewrite HS. apply lookup_ge_None in Heqo.
    by rewrite !take_ge by lia.
Qed.

Lemma main_step c s s' : Inv s -> step c s = Some s' -> main_ok s'.
Proof.
  intros HI Hstep. pose proof (inv_main _ HI) as HM.
  unfold main_ok in *.
  step_cases Hstep; try done.
  all: try (destruct (main s) eqn:Hm; try done; counts; lia).
  all: try (destruct (main s) eqn:Hm; try done; counts; congruence).
Qed.

Lemma stdout_step c s s' :
  Inv s -> step c s = Some s' ->
  filter (fun l => is_found_line l = true) (stdout s')
  = (found_line <$> passwords_where has_printed (futures s')).
Proof.
  intros HI Hstep. pose proof (inv_stdout _ HI) as HO.
  pose proof (inv_tasks _ HI) as HT.
  step_cases Hstep; try done.
  all: try (rewrite passwords_where_snoc, app_nil_r; done).
  all: try (erewrite passwords_where_insert_same by (try eassumption; done); done).
  - assert (Hnone : count has_printed (futures s) = 0).
    { apply count_none. intros j q h Hj. destruct (has_printed h) eqn:Hh; [|done].
      destruct (decide (i = j)) as [<-|Hne]; [by simplify_eq|].
      assert (flag_set h = false) as Hfl.
      { by apply (not_flagger s i j s0 q (Running W_print_found) h). }
      by destruct h as [|[]|[]| |]. }
    rewrite (passwords_where_insert_first has_printed _ _ _ _
               (Running W_return_true) Hnone Heqo eq_refl).
    rewrite (passwords_where_none _ _ Hnone) in HO.
    by rewrite filter_app, HO.
  - destruct (HT _ _ _ Heqo) as (_ & Hm%log_origin_not_found_line & _).
    erewrite passwords_where_insert_same by (try eassumption; done).
    rewrite filter_app, HO, filter_cons_False, filter_nil, app_nil_r; [done|].
    by rewrite Hm.
Qed.

Lemma posted_step c s s' :
  Inv s -> step c s = Some s' ->
  found_password s' = false ->
  posted s' ≡ₚ passwords_where has_posted (futures s').
Proof.
  intros HI Hstep. pose proof (inv_posted _ HI) as HP.
  step_cases Hstep; try done.
  all: try (rewrite passwords_where_snoc, app_nil_r; done).
  all: try (erewrite passwords_where_insert_same by (try eassumption; done);
            first [done|auto]).
  intros Hf.
  rewrite (passwords_where_insert_add has_posted _ _ _ _
             (Running (W_await _)) Heqo eq_refl eq_refl).
  rewrite <- (HP Hf). symmetry. apply Permutation_cons_append.
Qed.

Lemma Inv_step c s s' : Inv s -> step c s = Some s' -> Inv s'.
Proof.
  intros HI Hstep. split.
  - by eapply lock_step.
  - by eapply flag_step.
  - by eapply correct_step.
  - by eapply tasks_step.
  - by eapply submitted_step.
  - by eapply main_step.
  - by eapply running_step.
  - by eapply stdout_step.
  - by eapply posted_step.
Qed.

Lemma reachable_Inv s : reachable s -> Inv s.
Proof.
  revert s. apply reachable_ind; [apply Inv_init|].
  intros c s s' _. apply Inv_step.
Qed.

(** *** Termination *)

Lemma measure_step c s s' : step c s = Some s' -> measure s' < measure s.
Proof.
  intros Hstep. unfold measure.
  step_cases Hstep; rewrite ?length_insert, ?length_app; simpl; weights;
    try lia.
  - apply lookup_lt_Some in Heqo. lia.
  - pose proof (count_le_length is_done (futures s)). lia.
Qed.

Lemma exec_length schedule s s' :
  exec schedule s = Some s' -> measure s' + length schedule <= measure s.
Proof.
  revert s. induction schedule as [|c schedule IH]; intros s He; simpl in *.
  - simplify_eq. lia.
  - destruct (step c s) as [s1|] eqn:H1; [|done].
    apply measure_step in H1. apply IH in He. lia.
Qed.

Lemma schedule_bound schedule s :
  exec schedule init = Some s -> length schedule <= step_bound.
Proof.
  intros He%exec_length. unfold measure, step_bound in *.
  simpl in He. lia.
Qed.

(** *** Progress *)

Lemma count_partition fs :
  count is_done fs + count is_running fs + count is_pending fs = length fs /\
  count is_active fs = count is_running fs + count is_pending fs.
Proof.
  unfold count. induction fs as [|[q h] fs [IH1 IH2]]; simpl; [done|].
  destruct h; simpl; lia.
Qed.

(** A running task can move unless it waits for the lock. *)
Lemma worker_enabled s i p pc :
  futures s !! i = Some (p, Running pc) ->
  lock s = false \/ holds_lock (Running pc) = true ->
  exists s', step (Worker i) s = Some s'.
Proof.
  intros Hi Hl. simpl. unfold try_password, log. rewrite Hi.
  destruct pc; simpl in *; try (destruct Hl as [->|?]; [|done]);
    repeat case_match; eauto.
Qed.

Lemma progress s :
  1 <= max_workers -> Inv s ->
  main s = M_done \/ exists c s', step c s = Some s'.
Proof.
  intros Hw HI. pose proof (inv_lock _ HI) as HL.
  destruct (lock s) eqn:Hlock.
  { right. destruct (count_pos holds_lock (futures s)) as (i & p & f & Hi & Hf);
      [lia|].
    destruct f as [|pc| | |]; try done.
    destruct (worker_enabled s i p pc Hi) as [s' Hs']; [by right|].
    by exists (Worker i), s'. }
  destruct (decide (0 < count is_running (futures s))) as [Hrun|Hrun].
  { right. destruct (count_pos is_running (futures s)) as (i & p & f & Hi & Hf);
      [lia|].
    destruct f as [|pc| | |]; try done.
    destruct (worker_enabled s i p pc Hi) as [s' Hs']; [by left|].
    by exists (Worker i), s'. }
  destruct (first_pending (futures s)) as [[i p]|] eqn:Hpend.
  { right. exists Start. simpl. unfold pool_start. rewrite Hpend.
    case_decide; [eauto|lia]. }
  apply first_pending_None in Hpend.
  destruct (count_partition (futures s)) as [Hsum Hact].
  destruct (main s) eqn:Hm; [..|by left]; right; exists Main; simpl;
    unfold run; rewrite Hm; repeat case_match; eauto; lia.
Qed.

(** *** The scheduler of [simulate] *)

Lemma pick_Some s c :
  pick s = Some c -> exists s', step c s = Some s'.
Proof.
  unfold pick. intros [_ He]%find_some.
  unfold enabled in He. destruct (step c s); [eauto|done].
Qed.

Lemma pick_None s c : pick s = None -> step c s = None.
Proof.
  unfold pick. intros Hnone.
  destruct (step c s) as [s'|] eqn:Hc; [|done].
  pose proof (find_none _ _ Hnone c) as Hdis. unfold enabled in Hdis.
  rewrite Hc in Hdis. assert (In c (choices s)) as Hin; [|by specialize (Hdis Hin)].
  unfold choices. apply in_or_app. destruct c as [| |i]; simpl; auto.
  left. apply in_map, in_seq.
  simpl in Hc. unfold try_password, log in Hc.
  destruct (futures s !! i) eqn:Hi; [|done].
  apply lookup_lt_Some in Hi. lia.
Qed.

Lemma simulate_exec fuel s :
  exists schedule, exec schedule s = Some (simulate fuel s).
Proof.
  revert s. induction fuel as [|fuel IH]; intros s; simpl; [by exists []|].
  destruct (pick s) as [c|] eqn:Hp; [|by exists []].
  destruct (step c s) as [s'|] eqn:Hc; [|by exists []].
  destruct (IH s') as [sch Hsch]. exists (c :: sch). simpl. by rewrite Hc.
Qed.

Lemma simulate_done fuel s :
  1 <= max_workers -> Inv s -> measure s <= fuel ->
  main (simulate fuel s) = M_done.
Proof.
  intros Hw. revert s. induction fuel as [|fuel IH]; intros s HI Hm; simpl.
  - unfold measure in Hm. destruct (main s); simpl in Hm; try lia; done.
  - destruct (pick s) as [c|] eqn:Hp.
    + destruct (pick_Some _ _ Hp) as [s' Hc]. rewrite Hc.
      apply IH; [by eapply Inv_step|]. apply measure_step in Hc. lia.
    + destruct (progress s Hw HI) as [?|(c & s' & Hc)]; [done|].
      by rewrite (pick_None _ c Hp) in Hc.
Qed.

(** *** The state in which [run] returns *)

Lemma done_all_submitted s :
  Inv s -> main s = M_done -> (fst <$> futures s) = candidates.
Proof.
  intros HI Hm. rewrite (inv_submitted _ HI), Hm. simpl.
  by apply take_ge.
Qed.

Lemma done_not_active s i p f :
  Inv s -> main s = M_done -> futures s !! i = Some (p, f) ->
  is_active f = false.
Proof.
  intros HI Hm Hi. pose proof (inv_main _ HI) as HM.
  unfold main_ok in HM. rewrite Hm in HM. by eapply count_zero.
Qed.

Lemma submitted_candidate s i p f :
  Inv s -> futures s !! i = Some (p, f) -> In p candidates.
Proof.
  intros HI Hi. apply list_elem_of_In.
  assert (p ∈ fst <$> futures s) as Hin.
  { apply list_elem_of_fmap. exists (p, f). split; [done|].
    by eapply list_elem_of_lookup_2. }
  rewrite (inv_submitted _ HI) in Hin.
  by apply (subseteq_take _ _ _ Hin).
Qed.

(** The flag is set exactly when some task has executed line 36. *)
Lemma found_flagger s :
  Inv s -> found_password s = true ->
  exists i p f, futures s !! i = Some (p, f) /\ flag_set f = true.
Proof.
  intros HI Hf. apply count_pos. rewrite (inv_flag _ HI), Hf. lia.
Qed.

Lemma done_winner s :
  Inv s -> main s = M_done -> found_password s = true ->
  exists p, In p candidates /\ accepts p = true /\
            correct_password s = Some p /\
            exists i, futures s !! i = Some (p, Finished true).
Proof.
  intros HI Hm Hf. destruct (found_flagger s HI Hf) as (i & p & f & Hi & Hfl).
  pose proof (done_not_active s i p f HI Hm Hi) as Hna.
  pose proof (inv_tasks _ HI i p f Hi) as HT.
  destruct f as [|pc|[]| |]; try done. simpl in HT.
  exists p. split_and!; [by eapply submitted_candidate|tauto..|by exists i].
Qed.

Lemma done_result s :
  Inv s -> main s = M_done ->
  run_result s = Exhausted \/
  exists p, In p candidates /\ accepts p = true /\
            run_result s = Found (Some p).
Proof.
  intros HI Hm. unfold run_result.
  destruct (found_password s) eqn:Hf; [right|by left].
  destruct (done_winner s HI Hm Hf) as (p & ? & ? & -> & _). eauto.
Qed.

Lemma done_found s target :
  Inv s -> main s = M_done -> only_success target ->
  run_result s = Found (Some target).
Proof.
  intros HI Hm (Hin & Hacc & Honly).
  assert (found_password s = true) as Hf.
  { apply list_elem_of_In in Hin. rewrite <- (done_all_submitted s HI Hm) in Hin.
    apply list_elem_of_fmap in Hin as ([p f] & -> & Hin).
    apply list_elem_of_lookup in Hin as [i Hi]. simpl in *.
    pose proof (done_not_active s i p f HI Hm Hi) as Hna.
    pose proof (inv_tasks _ HI i p f Hi) as HT.
    destruct f as [|pc|[]| |]; try done; simpl in HT; [tauto..|].
    destruct HT as [e He]. apply accepts_Raise_base in He. congruence. }
  destruct (done_winner s HI Hm Hf) as (p & Hp & Hpa & Hc & _).
  unfold run_result. rewrite Hf, Hc. by rewrite (Honly p Hp Hpa).
Qed.

(** Without an accepted candidate the flag stays down. *)
Lemma no_success_not_found s :
  Inv s -> no_success -> found_password s = false.
Proof.
  intros HI Hno. destruct (found_password s) eqn:Hf; [|done].
  destruct (found_flagger s HI Hf) as (i & p & f & Hi & Hfl).
  pose proof (inv_tasks _ HI i p f Hi) as HT.
  pose proof (Hno p (submitted_candidate s i p f HI Hi)) as Hrej.
  destruct f as [|[]|[]| |]; try done; simpl in HT; destruct HT; congruence.
Qed.

Lemma done_exhausted s :
  Inv s -> main s = M_done -> no_success ->
  run_result s = Exhausted /\ posted s ≡ₚ candidates.
Proof.
  intros HI Hm Hno. pose proof (no_success_not_found s HI Hno) as Hf.
  split; [unfold run_result; by rewrite Hf|].
  rewrite (inv_posted _ HI Hf), <- (done_all_submitted s HI Hm).
  rewrite passwords_where_all; [done|].
  intros i p f Hi.
  pose proof (done_not_active s i p f HI Hm Hi) as Hna.
  pose proof (inv_tasks _ HI i p f Hi) as HT.
  destruct f as [|pc|[]| |]; try done. simpl in HT. congruence.
Qed.

(** *** Reports after the claim *)



(** ** The claims *)

(** C1: at most one task ever passes the lock-guarded test of line 35,
    that is, at most one claim returns true, however many tasks hold an
    accepting response at the same time; [correct_password], once
    written, is the candidate of that task, and nobody else's. *)
Theorem claim_returns_true_at_most_once s :
  reachable s ->
  (forall i j p q f g,
      futures s !! i = Some (p, f) -> futures s !! j = Some (q, g) ->
      has_claimed f = true -> has_claimed g = true -> i = j) /\
  (forall i p f,
      futures s !! i = Some (p, f) -> winner_written f = true ->
      correct_password s = Some p) /\
  (forall p, correct_password s = Some p ->
      exists i f, futures s !! i = Some (p, f) /\ has_claimed f = true).
Proof.
  intros HI%reachable_Inv.
  pose proof (inv_tasks _ HI) as HT.
  pose proof (inv_flag _ HI) as HF.
  split_and!.
  - intros i j p q f g Hi Hj Hf Hg.
    destruct (found_password s) eqn:Hfound.
    + eapply (count_unique flag_set); [|exact Hi|exact Hj| |].
      * rewrite HF. lia.
      * pose proof (HT _ _ _ Hi) as T. destruct f as [|[]|[]| |]; try done.
        simpl in T. destruct T as (_ & T & _). congruence.
      * pose proof (HT _ _ _ Hj) as T. destruct g as [|[]|[]| |]; try done.
        simpl in T. destruct T as (_ & T & _). congruence.
    + assert (forall k r h, futures s !! k = Some (r, h) ->
                has_claimed h = true -> holds_lock h = true) as Hhold.
      { intros k r h Hk Hh. pose proof (HT _ _ _ Hk) as T.
        destruct h as [|[]|[]| |]; try done. simpl in T.
        destruct T as (_ & T & _). congruence. }
      destruct (decide (i = j)) as [|Hne]; [done|].
      pose proof (not_holder s i j p q f g HI Hi (Hhold _ _ _ Hi Hf) Hj Hne).
      pose proof (Hhold _ _ _ Hj Hg). congruence.
  - intros i p f Hi Hw. pose proof (HT _ _ _ Hi) as T.
    destruct f as [|[]|[]| |]; try done; simpl in T; tauto.
  - intros p Hc.
    assert (found_password s = true) as Hfound
        by (apply (inv_correct _ HI); congruence).
    destruct (found_flagger s HI Hfound) as (i & q & f & Hi & Hfl).
    pose proof (HT _ _ _ Hi) as T.
    assert (q = p) as ->.
    { destruct f as [|[]|[]| |]; try done; simpl in T;
        destruct T as (_ & _ & T); congruence. }
    exists i, f. split; [done|]. by destruct f as [|[]|[]| |].
Qed.

Lemma terminates_with (Q : State -> Prop) :
  1 <= max_workers ->
  (forall s, Inv s -> main s = M_done -> Q s) ->
  run_terminates_with Q.
Proof.
  intros Hw HQ schedule s He.
  assert (Inv s) as HI by (apply reachable_Inv; by exists schedule).
  split_and!; [by eapply schedule_bound|by apply progress|by apply HQ].
Qed.

(** C2: with at least one pool thread, every run ends, whatever the
    interleaving, and what it leaves behind is either a found candidate
    of the sequence that the endpoint accepts, or exhaustion; when the
    sequence has exactly one accepted candidate, it is that one.  The
    same holds for the run under the scheduler of [simulate]. *)
Theorem run_finds_the_only_success :
  1 <= max_workers ->
  run_terminates_with
    (fun s =>
       (run_result s = Exhausted \/
        exists p, In p candidates /\ accepts p = true /\
                  run_result s = Found (Some p)) /\
       forall target, only_success target ->
                      run_result s = Found (Some target)) /\
  main (simulate step_bound init) = M_done /\
  forall target, only_success target ->
                 run_result (simulate step_bound init) = Found (Some target).
Proof.
  intros Hw. split_and!.
  - apply terminates_with; [done|]. intros s HI Hm. split.
    + by apply done_result.
    + intros target. by apply done_found.
  - apply simulate_done; [done|apply Inv_init|].
    unfold measure, step_bound. simpl. lia.
  - intros target Ht. destruct (simulate_exec step_bound init) as [sch Hsch].
    apply done_found; [apply reachable_Inv; by exists sch| |done].
    apply simulate_done; [done|apply Inv_init|].
    unfold measure, step_bound. simpl. lia.
Qed.

Lemma terminates_with_reachable (Q : State -> Prop) :
  1 <= max_workers ->
  (forall s, reachable s -> main s = M_done -> Q s) ->
  run_terminates_with Q.
Proof.
  intros Hw HQ schedule s He.
  assert (reachable s) as Hr by (by exists schedule).
  pose proof (reachable_Inv s Hr) as HI.
  split_and!; [by eapply schedule_bound|by apply progress|by apply HQ].
Qed.

(** Every call of [requests.post] is the one of lines 30-31 for the
    candidate of the task that made it. *)
Lemma requests_posted s :
  reachable s -> requests s = (fun p => (url, data p)) <$> posted s.
Proof.
  revert s. apply reachable_ind; [done|].
  intros c s s' _ IH Hstep.
  step_cases Hstep; try done.
  by rewrite fmap_app, IH.
Qed.

(** C3: when the endpoint accepts no candidate of the sequence, every
    run ends with [Exhausted].  By then the calls of [requests.post] that
    were made are, up to their order, one call for each candidate of the
    sequence, as often as it occurs there, with the url of line 7 and the
    form data [username=Mark], [password=candidate]: no candidate was
    offered twice and none was left out.  No task was cancelled or
    skipped its request: each has returned [False], or has ended with the
    exception that its request raised, when that one does not derive from
    [Exception]. *)
Theorem run_exhausts_without_success :
  1 <= max_workers ->
  no_success ->
  run_terminates_with
    (fun s =>
       run_result s = Exhausted /\
       requests s
       ≡ₚ (fun p => ("http://python.thm/labs/lab1/index.php",
                     [("username", "Mark"); ("password", p)])%string)
          <$> candidates /\
       posted s ≡ₚ candidates /\
       forall i p f, futures s !! i = Some (p, f) ->
         f = Finished false \/
         f = Failed /\ exists e, oracle p = Raise_base e).
Proof.
  intros Hw Hno. apply terminates_with_reachable; [done|]. intros s Hreach Hm.
  pose proof (reachable_Inv s Hreach) as HI.
  destruct (done_exhausted s HI Hm Hno) as [Hr Hp]. split_and!; [done| |done|].
  { by rewrite (requests_posted s Hreach), Hp. }
  intros i p f Hi.
  pose proof (done_not_active s i p f HI Hm Hi) as Hna.
  pose proof (inv_tasks _ HI i p f Hi) as HT.
  pose proof (no_success_not_found s HI Hno) as Hf.
  destruct f as [|pc|[]| |]; try done; simpl in HT.
  - destruct HT as (_ & HT & _). congruence.
  - by left.
  - congruence.
  - by right.
Qed.

(** C4: no step lowers [found_password]; [correct_password] is written
    only while it is still [None], so at most once, and keeps its value
    afterwards; both writes happen with the lock held before and after,
    and the lock is not released between them: whenever the flag is up
    and the winner is not yet written the lock is held, and with the lock
    free the flag is up exactly when the winner is written. *)
Theorem found_flag_monotone_and_atomic c s s' :
  reachable s -> step c s = Some s' ->
  (found_password s = true -> found_password s' = true) /\
  (forall p, correct_password s = Some p -> correct_password s' = Some p) /\
  (correct_password s' <> correct_password s -> correct_password s = None) /\
  (found_password s' <> found_password s \/
   correct_password s' <> correct_password s ->
   lock s = true /\ lock s' = true) /\
  (found_password s = true -> correct_password s = None -> lock s = true) /\
  (lock s = false ->
   (found_password s = true <-> correct_password s <> None)).
Proof.
  intros HI%reachable_Inv Hstep.
  pose proof (inv_tasks _ HI) as HT.
  pose proof (inv_lock _ HI) as HL.
  assert (forall i p f, futures s !! i = Some (p, f) ->
            holds_lock f = true -> lock s = true) as Hheld.
  { intros i p f Hi Hf. pose proof (count_lookup _ _ _ _ _ Hi Hf).
    destruct (lock s); [done|lia]. }
  assert (found_password s = true -> correct_password s = None ->
          lock s = true) as Hbetween.
  { intros Hf Hc. destruct (found_flagger s HI Hf) as (i & p & f & Hi & Hfl).
    pose proof (HT _ _ _ Hi) as T. apply (Hheld i p f Hi).
    destruct f as [|[]|[]| |]; try done; simpl in T;
      destruct T as (_ & _ & T); congruence. }
  split_and!; [..|done|].
  - step_cases Hstep; done.
  - step_cases Hstep; try done.
    destruct (HT _ _ _ Heqo) as (_ & _ & Hn). congruence.
  - step_cases Hstep; try done.
    by destruct (HT _ _ _ Heqo) as (_ & _ & Hn).
  - step_cases Hstep; try (intros [?|?]; done); intros _.
    + by rewrite (Hheld _ _ _ Heqo eq_refl).
    + by rewrite (Hheld _ _ _ Heqo eq_refl).
  - intros Hfree. split.
    + intros Hf Hc. specialize (Hbetween Hf Hc). congruence.
    + apply (inv_correct _ HI).
Qed.

(** C5: the winning line is printed at most once in a run.  Line 38
    prints it with [print], not through [log]: the step is taken although
    [found_password] is already true, which is when [log] stays silent.
    As soon as the claimant has returned, and so whenever [run] returns
    with a winner, standard output holds exactly one winning line, the
    one of the winner. *)
Theorem found_line_printed_exactly_once s :
  reachable s ->
  length (filter (fun l => is_found_line l = true) (stdout s)) <= 1 /\
  (forall i p,
      futures s !! i = Some (p, Running W_print_found) ->
      found_password s = true /\
      step (Worker i) s
      = Some (goto i p (Running W_return_true) (print (found_line p) s))) /\
  (forall i p,
      futures s !! i = Some (p, Finished true) ->
      filter (fun l => is_found_line l = true) (stdout s) = [found_line p]) /\
  (main s = M_done -> found_password s = true ->
   exists p, correct_password s = Some p /\
     filter (fun l => is_found_line l = true) (stdout s) = [found_line p]).
Proof.
  intros HI%reachable_Inv.
  pose proof (inv_stdout _ HI) as HO.
  pose proof (inv_flag _ HI) as HF.
  assert (count has_printed (futures s) <= 1) as Hle.
  { etransitivity; [apply (count_mono has_printed flag_set)|].
    - by intros [|[]|[]| |].
    - rewrite HF. destruct (found_password s); lia. }
  assert (forall i p, futures s !! i = Some (p, Finished true) ->
            filter (fun l => is_found_line l = true) (stdout s) = [found_line p])
    as Hfin.
  { intros i p Hi. rewrite HO.
    pose proof (passwords_where_lookup has_printed _ _ _ _ Hi eq_refl) as Hin.
    pose proof (passwords_where_length has_printed (futures s)) as Hlen.
    destruct (passwords_where has_printed (futures s)) as [|q [|r l]];
      simpl in *; [by apply elem_of_nil in Hin| |lia].
    apply list_elem_of_singleton in Hin. by subst. }
  split_and!; [|  |done|].
  - rewrite HO, length_fmap, passwords_where_length. done.
  - intros i p Hi. split.
    + by destruct (inv_tasks _ HI _ _ _ Hi) as (_ & ? & _).
    + simpl. unfold try_password, log. by rewrite Hi.
  - intros Hm Hf. destruct (done_winner s HI Hm Hf) as (p & _ & _ & Hc & i & Hi).
    exists p. split; [done|]. by eapply Hfin.
Qed.


(** C8: a task that finds [found_password] true at line 26 returns
    [False] in that very step; no request is sent, nothing is printed and
    the lock is not touched. *)
Theorem worker_skips_when_found s i p :
  futures s !! i = Some (p, Running W_check) ->
  found_password s = true ->
  exists s',
    step (Worker i) s = Some s' /\
    futures s' = <[i := (p, Finished false)]> (futures s) /\
    posted s' = posted s /\ stdout s' = stdout s /\ lock s' = lock s /\
    found_password s' = true /\ correct_password s' = correct_password s.
Proof.
  intros Hi Hf. eexists. simpl. unfold try_password, log. rewrite Hi, Hf.
  split; [done|]. by simpl.
Qed.

(** C10, as the script has it: line 48 submits the candidates one by one
    in list order and never looks at the flag: at [M_submit k] the main
    thread has submitted the first [k] candidates and has not been handed
    a completion, its next step appends candidate [k] as a pending future
    whatever [found_password] is, and once it has left line 48 the
    futures are the whole sequence, one future per element.  A submitted
    candidate is skipped, that is, its future is done without its request
    having left, in two ways only, and both only once the flag is up:
    inside the worker, at line 26, after the task has started; or in
    [run], by the [cancel] of lines 52-53, while the task is still queued,
    so that it never starts. *)
Theorem run_submits_every_candidate_in_order s :
  reachable s ->
  (fst <$> futures s) = take (submitted (main s)) candidates /\
  (forall k, main s = M_submit k ->
     yielded s = 0 /\
     forall p, candidates !! k = Some p ->
       step Main s
       = Some (set_main (M_submit (S k))
                 (set_futures (futures s ++ [(p, Pending)]) s))) /\
  ((forall k, main s <> M_submit k) -> (fst <$> futures s) = candidates) /\
  (forall c s' i p f f',
     step c s = Some s' ->
     futures s !! i = Some (p, f) -> futures s' !! i = Some (p, f') ->
     before_request f = true -> is_done f' = true ->
     found_password s = true /\ posted s' = posted s /\
     (c = Worker i /\ f = Running W_check /\ f' = Finished false \/
      c = Main /\ main s = M_cancel i /\ f = Pending /\ f' = Cancelled)).
Proof.
  intros HI%reachable_Inv.
  pose proof (inv_submitted _ HI) as HS.
  pose proof (inv_main _ HI) as HM. unfold main_ok in HM.
  split_and!; [done| | |].
  - intros k Hk. rewrite Hk in HM. split; [done|].
    intros p Hp. simpl. unfold run. by rewrite Hk, Hp.
  - intros Hne. rewrite HS.
    destruct (main s) eqn:Hm; simpl; try by apply take_ge.
    by destruct (Hne k).
  - intros c s' i p f f' Hstep Hi Hi' Hb Hd.
    step_cases Hstep; simpl in Hi'.
    all: try (rewrite Hi in Hi'; simplify_eq; by destruct f' as [|[]|[]| |]).
    all: try (rewrite lookup_app_l in Hi' by (by eapply lookup_lt_Some);
              rewrite Hi in Hi'; simplify_eq; by destruct f' as [|[]|[]| |]).
    all: match type of Hi' with
         | <[?j := _]> _ !! _ = _ =>
           destruct (decide (i = j)) as [->|Hne];
           [rewrite list_lookup_insert_eq in Hi' by (by eapply lookup_lt_Some)
           |rewrite list_lookup_insert_ne in Hi' by done;
            rewrite Hi in Hi'; simplify_eq; by destruct f' as [|[]|[]| |]]
         end.
    all: simplify_eq; try done.
    + split_and!; [done..|]. right. by split_and!.
    + split_and!; [done..|]. left. by split_and!.
Qed.

(** *** No request is repeated *)

Lemma posted_step_submseteq c s s' :
  step c s = Some s' ->
  posted s ⊆+ passwords_where has_posted (futures s) ->
  posted s' ⊆+ passwords_where has_posted (futures s').
Proof.
  intros Hstep HP.
  step_cases Hstep; try done.
  all: try (rewrite passwords_where_snoc, app_nil_r; done).
  all: try (erewrite passwords_where_insert_same by (try eassumption; done);
            done).
  - rewrite (passwords_where_insert_add has_posted _ _ _ _
               (Finished false) Heqo eq_refl eq_refl).
    by constructor.
  - rewrite (passwords_where_insert_add has_posted _ _ _ _
               (Running (W_await _)) Heqo eq_refl eq_refl).
    rewrite <- Permutation_cons_append. by constructor.
Qed.

Lemma posted_submseteq s : reachable s -> posted s ⊆+ candidates.
Proof.
  intros Hr. pose proof (reachable_Inv s Hr) as HI.
  transitivity (passwords_where has_posted (futures s)).
  - clear HI. revert s Hr. apply reachable_ind; [done|].
    intros c s s' _ HP Hstep. by eapply posted_step_submseteq.
  - etransitivity; [apply passwords_where_submseteq|].
    rewrite (inv_submitted _ HI). apply submseteq_take.
Qed.

(** C7, as the script has it.  What arrives at line 31 is the endpoint's
    answer to the candidate of the task.  A fault of [requests.post] that
    derives from [Exception] is caught in the task of that candidate,
    which calls [log] with the Error line and changes nothing else; [log]
    waits for the lock, prints the line if [found_password] is still
    false at its test and drops it otherwise, and the task returns
    [False].  A fault that does not derive from [Exception] is not caught
    by line 42: the task ends with it, nothing is logged and nothing is
    returned; the exception stays in the future of that task.  In both
    cases no candidate is sent more often than it occurs in the sequence,
    so the failed one is not retried, and the run ends all the same: the
    task of a candidate whose request raises has returned [False] or was
    cancelled, or, for a fault outside [Exception], has failed. *)
Theorem oracle_fault_is_caught_and_logged :
  (forall s i p response,
      reachable s ->
      futures s !! i = Some (p, Running (W_await response)) ->
      response = oracle p) /\
  (forall s i p e,
      futures s !! i = Some (p, Running (W_await (Raise e))) ->
      step (Worker i) s
      = Some (goto i p (Running (W_log_lock (error_line p e))) s)) /\
  (forall s i p e,
      futures s !! i = Some (p, Running (W_await (Raise_base e))) ->
      step (Worker i) s = Some (goto i p Failed s)) /\
  (forall s i p m,
      (futures s !! i = Some (p, Running (W_log_lock m)) ->
       step (Worker i) s
       = if lock s then None
         else Some (goto i p (Running (W_log_test m)) (set_lock true s))) /\
      (futures s !! i = Some (p, Running (W_log_test m)) ->
       step (Worker i) s
       = Some (goto i p (Running (if found_password s then W_log_unlock
                                  else W_log_print m)) s)) /\
      (futures s !! i = Some (p, Running (W_log_print m)) ->
       step (Worker i) s
       = Some (goto i p (Running W_log_unlock) (print m s))) /\
      (futures s !! i = Some (p, Running W_log_unlock) ->
       step (Worker i) s
       = Some (goto i p (Finished false) (set_lock false s)))) /\
  (forall s, reachable s -> posted s ⊆+ candidates) /\
  (1 <= max_workers ->
   run_terminates_with
     (fun s => forall i p e f,
          futures s !! i = Some (p, f) ->
          (oracle p = Raise e -> f = Finished false \/ f = Cancelled) /\
          (oracle p = Raise_base e ->
           f = Failed \/ f = Finished false \/ f = Cancelled))).
Proof.
  split_and!.
  - intros s i p response HI%reachable_Inv Hi.
    apply (inv_tasks _ HI _ _ _ Hi).
  - intros s i p e Hi. simpl. unfold try_password, log. by rewrite Hi.
  - intros s i p e Hi. simpl. unfold try_password, log. by rewrite Hi.
  - intros s i p m. split_and!; intros Hi; simpl; unfold try_password, log;
      rewrite Hi; try done.
    by destruct (found_password s).
  - apply posted_submseteq.
  - intros Hw. apply terminates_with; [done|]. intros s HI Hm i p e f Hi.
    pose proof (done_not_active s i p f HI Hm Hi) as Hna.
    pose proof (inv_tasks _ HI i p f Hi) as HT.
    split; intros He.
    + destruct f as [|pc|[]| |]; try done; [|by left|by right|].
      * simpl in HT. rewrite (accepts_Raise _ _ He) in HT. by destruct HT.
      * simpl in HT. destruct HT as [e' He']. congruence.
    + destruct f as [|pc|[]| |]; try done; [|auto..].
      simpl in HT. rewrite (accepts_Raise_base _ _ He) in HT. by destruct HT.
Qed.

(** ** Further properties of the search *)

(** X1: the two [with self.lock] blocks, the one of [log] and the one of
    the claim, exclude each other: at most one task is inside one of them,
    none when the lock is free, one when it is taken. *)
Theorem lock_is_exclusive s :
  reachable s ->
  (forall i j p q f g,
      futures s !! i = Some (p, f) -> futures s !! j = Some (q, g) ->
      holds_lock f = true -> holds_lock g = true -> i = j) /\
  (lock s = false ->
   forall i p f, futures s !! i = Some (p, f) -> holds_lock f = false) /\
  (lock s = true ->
   exists i p f, futures s !! i = Some (p, f) /\ holds_lock f = true).
Proof.
  intros HI%reachable_Inv. pose proof (inv_lock _ HI) as HL. split_and!.
  - intros i j p q f g Hi Hj Hf Hg.
    destruct (decide (i = j)) as [|Hne]; [done|].
    pose proof (not_holder s i j p q f g HI Hi Hf Hj Hne). congruence.
  - intros Hfree i p f Hi. eapply count_zero; [|done]. by rewrite HL, Hfree.
  - intros Hheld. apply count_pos. rewrite HL, Hheld. lia.
Qed.

(** X2: every line on standard output is true of the endpoint: it is an
    Attempted line of a candidate whose response contained "Invalid", an
    Error line of a candidate whose request raised with that text, or the
    winning line of an accepted candidate. *)
Theorem printed_lines_are_truthful s line :
  reachable s -> In line (stdout s) -> line_origin line.
Proof.
  intros Hr. revert line. revert s Hr.
  apply (reachable_ind (fun s => forall line, In line (stdout s) ->
                                              line_origin line)); [done|].
  intros c s s' HI%reachable_Inv Hold Hstep.
  pose proof (inv_tasks _ HI) as HT.
  step_cases Hstep; try exact Hold;
    intros line [Hin|[<-|[]]]%in_app_or; try (by apply Hold).
  - destruct (HT _ _ _ Heqo) as (Hacc & _). right. right.
    exists s0. split_and!; [by eapply submitted_candidate|done..].
  - destruct (HT _ _ _ Heqo) as (_ & Horigin & _).
    pose proof (submitted_candidate s i s0 _ HI Heqo) as Hin.
    destruct Horigin as [(body & ? & ? & ->)|(e & ? & ->)].
    + left. by exists s0, body.
    + right. left. by exists s0, e.
Qed.

(** X3: at any moment of a run, a recorded winner is a candidate of the
    sequence that the endpoint accepted, and the flag is up. *)
Theorem winner_is_accepted_candidate s p :
  reachable s -> correct_password s = Some p ->
  In p candidates /\ accepts p = true /\ found_password s = true.
Proof.
  intros HI%reachable_Inv Hc.
  assert (found_password s = true) as Hf
      by (apply (inv_correct _ HI); congruence).
  destruct (found_flagger s HI Hf) as (i & q & f & Hi & Hfl).
  pose proof (inv_tasks _ HI _ _ _ Hi) as T.
  pose proof (submitted_candidate s i q f HI Hi) as Hin.
  destruct f as [|[]|[]| |]; try done; simpl in T;
    destruct T as (Hacc & _ & T); split_and!; congruence.
Qed.

(** X4: when the candidates are pairwise distinct, no password is sent to
    the endpoint twice, in whatever order the tasks run. *)
Theorem no_request_sent_twice s :
  NoDup candidates -> reachable s -> NoDup (posted s).
Proof.
  intros Hnd Hr.
  destruct (submseteq_Permutation _ _ (posted_submseteq s Hr)) as [k Hk].
  rewrite Hk in Hnd. by apply NoDup_app in Hnd as (? & _).
Qed.

Lemma posts_left_step c s s' :
  found_password s = true -> step c s = Some s' ->
  found_password s' = true /\
  length (posted s') + count at_post (futures s')
  <= length (posted s) + count at_post (futures s).
Proof.
  intros Hf Hstep.
  step_cases Hstep; rewrite ?length_app; simpl; counts;
    try (split; [done|lia]); congruence.
Qed.

(** X5: once the flag is up, the only requests that still leave are those of
    tasks that had passed line 26 before: from a state with
    [found_password] true, no continuation of the run sends more requests
    than there are tasks at line 31 with their request not yet out, and
    these are at most the pool size. *)
Theorem requests_after_claim_are_bounded s schedule s' :
  reachable s -> found_password s = true -> exec schedule s = Some s' ->
  length (posted s') <= length (posted s) + count at_post (futures s) /\
  count at_post (futures s) <= max_workers.
Proof.
  intros HI%reachable_Inv Hf He. split.
  - clear HI. revert s Hf He.
    induction schedule as [|c schedule IH]; intros s Hf He; simpl in He.
    + simplify_eq. lia.
    + destruct (step c s) as [s1|] eqn:Hc; [|done].
      destruct (posts_left_step c s s1 Hf Hc) as [Hf1 Hle].
      specialize (IH s1 Hf1 He). lia.
  - etransitivity; [apply (count_mono at_post is_running)|].
    + by intros [|[]| | |].
    + apply (inv_running _ HI).
Qed.

(** X6: a future is cancelled only after the flag went up; and when [run]
    returns, every candidate has its future, every future is done, that
    is finished, failed or cancelled, and the lock is free. *)
Theorem run_leaves_nothing_behind s :
  reachable s ->
  (forall i p, futures s !! i = Some (p, Cancelled) ->
               found_password s = true) /\
  (main s = M_done ->
   (fst <$> futures s) = candidates /\
   lock s = false /\
   forall i p f, futures s !! i = Some (p, f) -> is_done f = true).
Proof.
  intros HI%reachable_Inv. split.
  - intros i p Hi. apply (inv_tasks _ HI _ _ _ Hi).
  - intros Hm.
    assert (forall i p f, futures s !! i = Some (p, f) -> is_done f = true)
      as Hdone.
    { intros i p f Hi. pose proof (done_not_active s i p f HI Hm Hi).
      by destruct f. }
    split_and!; [by apply done_all_submitted| |done].
    destruct (lock s) eqn:Hl; [|done].
    pose proof (inv_lock _ HI) as HL. rewrite Hl in HL.
    destruct (count_pos holds_lock (futures s)) as (i & p & f & Hi & Hh); [lia|].
    specialize (Hdone i p f Hi). by destruct f.
Qed.

(** No step touches a future that is finished, failed or cancelled, and
    no step changes the candidate of a future: [cancel] leaves finished
    futures alone and the pool starts pending ones only. *)
Theorem done_futures_are_final c s s' i p f :
  step c s = Some s' -> futures s !! i = Some (p, f) ->
  exists f', futures s' !! i = Some (p, f') /\
             (is_done f = true -> f' = f).
Proof.
  intros Hstep Hi.
  step_cases Hstep; simpl; eauto.
  all: try (destruct (decide (i = j)) as [->|Hne];
            [rewrite list_lookup_insert_eq by (by eapply lookup_lt_Some);
             simplify_eq; eexists; split; [done|done]
            |rewrite list_lookup_insert_ne by done; eauto]).
  all: try (destruct (decide (i = i0)) as [->|Hne];
            [rewrite list_lookup_insert_eq by (by eapply lookup_lt_Some);
             simplify_eq; eexists; split; [done|done]
            |rewrite list_lookup_insert_ne by done; eauto]).
  all: try (destruct (decide (i = n)) as [->|Hne];
            [rewrite list_lookup_insert_eq by (by eapply lookup_lt_Some);
             simplify_eq; eexists; split; [done|done]
            |rewrite list_lookup_insert_ne by done; eauto]).
  - rewrite lookup_app_l by (by eapply lookup_lt_Some). eauto.
Qed.

Lemma in_flight_le_pool s :
  reachable s ->
  count in_flight (futures s) <= count is_running (futures s) /\
  count is_running (futures s) <= max_workers.
Proof.
  intros HI%reachable_Inv. split; [|apply (inv_running _ HI)].
  apply count_mono. by intros [|[]| | |].
Qed.

End BruteForcer.

(** ** The script: [password_list] and ten threads *)

Lemma password_list_length : length password_list = 1000 * 26.
Proof.
  unfold password_list.
  rewrite flat_map_constant_length with (c := 26); [by rewrite length_seq|].
  intros num _. by rewrite length_map.
Qed.

Lemma flat_map_lookup {A B} (f : A -> list B) c l n k x y :
  (forall a, length (f a) = c) ->
  l !! n = Some x -> f x !! k = Some y ->
  flat_map f l !! (c * n + k) = Some y.
Proof.
  intros Hc. revert n. induction l as [|a l IH]; intros [|n] Hn Hk;
    simplify_eq/=.
  - rewrite lookup_app_l; [by rewrite Nat.mul_0_r|].
    rewrite Nat.mul_0_r. by eapply lookup_lt_Some.
  - rewrite lookup_app_r; rewrite Hc; [|lia].
    replace (c * S n + k - c) with (c * n + k) by lia. by apply IH.
Qed.

Lemma map_lookup {A B} (f : A -> B) l k x :
  l !! k = Some x -> map f l !! k = Some (f x).
Proof.
  revert k. induction l as [|a l IH]; intros [|k] Hk; simplify_eq/=; eauto.
Qed.

(** [f"{num:03}"] below 1000 is three digits that write [num]. *)
Lemma format_03_value num :
  num < 1000 -> value_03 (format_03 num) = Some num.
Proof.
  intros Hlt.
  assert (forallb (fun n => bool_decide (value_03 (format_03 n) = Some n))
                  (seq 0 1000) = true) as Hall by (vm_compute; reflexivity).
  rewrite forallb_forall in Hall.
  specialize (Hall num). rewrite bool_decide_eq_true in Hall.
  apply Hall, in_seq. lia.
Qed.

Lemma password_list_index num k char :
  num < 1000 -> ascii_uppercase !! k = Some char ->
  password_list !! (26 * num + k)
  = Some (String.append (format_03 num) (String char EmptyString)).
Proof.
  intros Hnum Hk. unfold password_list.
  apply (flat_map_lookup _ 26 _ num k num).
  - intros a. by rewrite length_map.
  - apply lookup_seq. lia.
  - by apply (map_lookup
                (fun char => String.append (format_03 num) (String char EmptyString))).
Qed.

(** X7: line 11, element by element: the entry at index [26 * num + k] is
    [num] written with three digits followed by the [k]-th capital
    letter. *)
Theorem password_list_lookup num k char :
  num < 1000 -> ascii_uppercase !! k = Some char ->
  password_list !! (26 * num + k)
  = Some (String.append (format_03 num) (String char EmptyString)).
Proof. apply password_list_index. Qed.

Lemma password_list_at i x :
  password_list !! i = Some x ->
  exists char, ascii_uppercase !! (i mod 26) = Some char /\
               i / 26 < 1000 /\
               x = String.append (format_03 (i / 26)) (String char EmptyString).
Proof.
  intros Hi. pose proof (lookup_lt_Some _ _ _ Hi) as Hlt.
  rewrite password_list_length in Hlt.
  assert (i / 26 < 1000) as Hnum by (apply Nat.Div0.div_lt_upper_bound; lia).
  assert (i mod 26 < 26) as Hk by (apply Nat.mod_upper_bound; lia).
  destruct (lookup_lt_is_Some_2 ascii_uppercase (i mod 26)) as [char Hchar];
    [done|].
  exists char. split_and!; [done..|].
  pose proof (password_list_index _ _ _ Hnum Hchar) as Hx.
  rewrite <- Nat.div_mod_eq in Hx. congruence.
Qed.

(** X8: every candidate of the script is three decimal digits followed by
    one capital letter, four characters in all. *)
Theorem password_list_shape p :
  In p password_list ->
  exists a b c char,
    p = String a (String b (String c (String char EmptyString))) /\
    is_digit a = true /\ is_digit b = true /\ is_digit c = true /\
    In char ascii_uppercase.
Proof.
  intros [i Hi]%list_elem_of_In%list_elem_of_lookup.
  destruct (password_list_at i p Hi) as (char & Hchar & Hnum & ->).
  pose proof (format_03_value _ Hnum) as Hv. unfold value_03 in Hv.
  destruct (format_03 (i / 26)) as [|a [|b [|c [|]]]]; try done.
  destruct (is_digit a) eqn:Ha, (is_digit b) eqn:Hb, (is_digit c) eqn:Hc;
    try done.
  exists a, b, c, char. split_and!; try done.
  apply list_elem_of_In. by eapply list_elem_of_lookup_2.
Qed.

(** X9: the candidates of the script are pairwise distinct. *)
Theorem password_list_NoDup : NoDup password_list.
Proof.
  apply NoDup_alt. intros i j x Hi Hj.
  destruct (password_list_at i x Hi) as (ci & Hci & Hni & Hxi).
  destruct (password_list_at j x Hj) as (cj & Hcj & Hnj & Hxj).
  pose proof (format_03_value _ Hni) as Hvi.
  pose proof (format_03_value _ Hnj) as Hvj.
  assert (format_03 (i / 26) = format_03 (j / 26) /\ ci = cj) as [Hf Hc].
  { rewrite Hxi in Hxj. unfold value_03 in Hvi, Hvj.
    destruct (format_03 (i / 26)) as [|a [|b [|c [|]]]]; try done.
    destruct (format_03 (j / 26)) as [|a' [|b' [|c' [|]]]]; try done.
    simpl in Hxj. by simplify_eq. }
  assert (i / 26 = j / 26) as Hdiv by congruence.
  assert (i mod 26 = j mod 26) as Hmod.
  { subst cj. eapply NoDup_lookup; [|exact Hci|exact Hcj].
    apply NoDup_ListNoDup.
    repeat (constructor; [by (simpl; intros H; repeat destruct H as [H|H])|]).
    constructor. }
  rewrite (Nat.div_mod_eq i 26), (Nat.div_mod_eq j 26). congruence.
Qed.

Lemma password_list_first :
  take 3 password_list = ["000A"; "000B"; "000C"]%string.
Proof. lazy. reflexivity. Qed.

Lemma password_list_carry :
  password_list !! 26 = Some "001A"%string.
Proof. lazy. reflexivity. Qed.

(** Whatever the endpoint answers, every run of the script ends within
    [step_bound password_list] steps, exhausted or with a candidate of
    [password_list] that the endpoint accepts. *)
Corollary script_terminates requests_post :
  run_terminates_with requests_post password_list MAX_WORKERS
    (fun s =>
       run_result s = Exhausted \/
       exists p, In p password_list /\ accepts requests_post p = true /\
                 run_result s = Found (Some p)).
Proof.
  apply terminates_with; [unfold MAX_WORKERS; lia|].
  intros s. apply done_result.
Qed.

(** C9: the script creates the pool with [max_workers=10]; in every
    reachable state the requests in flight are at most the running tasks,
    and those are at most ten. *)
Theorem in_flight_bounded_by_pool requests_post candidates s :
  MAX_WORKERS = 10 /\
  (reachable requests_post candidates MAX_WORKERS s ->
   count in_flight (futures s) <= count is_running (futures s) /\
   count is_running (futures s) <= 10).
Proof. split; [done|]. apply in_flight_le_pool. Qed.

(** ** The claims on the scenarios *)

(** The race: both tasks hold an accepting response, task 1 wins, and it is
    the only one that ever claimed; the winner on record is its "B". *)
Lemma claim_returns_true_at_most_once_witness :
  let s := state_after race_endpoint race 2 race_whole in
  reachable race_endpoint race 2 s /\
  (forall i j p q f g,
      futures s !! i = Some (p, f) -> futures s !! j = Some (q, g) ->
      has_claimed f = true -> has_claimed g = true -> i = j) /\
  correct_password s = Some "B"%string.
Proof.
  intros s.
  assert (reachable race_endpoint race 2 s) as Hr
      by (exists race_whole; vm_compute; reflexivity).
  destruct (claim_returns_true_at_most_once race_endpoint race 2 s Hr)
    as (Hone & Hwin & _).
  split_and!; [exact Hr|exact Hone|].
  apply (Hwin 1 "B"%string (Finished true)); reflexivity.
Defined.

(** Section 8 of the specification: the run over "000A", "000B", "000C"
    finds "000B". *)
Lemma run_finds_the_only_success_witness :
  1 <= 2 /\
  only_success abc_endpoint abc "000B" /\
  run_result (simulate abc_endpoint abc 2 (step_bound abc) init)
  = Found (Some "000B"%string).
Proof.
  assert (only_success abc_endpoint abc "000B") as Honly.
  { split_and!; [simpl; tauto|reflexivity|].
    intros p [<-|[<-|[<-|[]]]]; vm_compute; congruence. }
  split_and!; [lia|exact Honly|].
  destruct (run_finds_the_only_success abc_endpoint abc 2) as (_ & _ & Hrun);
    [lia|].
  exact (Hrun _ Honly).
Defined.

(** Section 8 of the specification: the run over "AAA", "AAB" is exhausted
    after exactly these two calls of [requests.post]. *)
Lemma run_exhausts_without_success_witness :
  let s := state_after aa_endpoint aa 2 (trace aa_endpoint aa 2 100 init) in
  1 <= 2 /\ no_success aa_endpoint aa /\
  main s = M_done /\ run_result s = Exhausted /\
  requests s
  = [("http://python.thm/labs/lab1/index.php",
      [("username", "Mark"); ("password", "AAA")]);
     ("http://python.thm/labs/lab1/index.php",
      [("username", "Mark"); ("password", "AAB")])]%string /\
  posted s ≡ₚ aa /\
  forall i p f, futures s !! i = Some (p, f) ->
    f = Finished false \/
    f = Failed /\ exists e, oracle aa_endpoint p = Raise_base e.
Proof.
  intros s.
  assert (no_success aa_endpoint aa) as Hno.
  { intros p [<-|[<-|[]]]; reflexivity. }
  destruct (run_exhausts_without_success aa_endpoint aa 2 ltac:(lia) Hno
              (trace aa_endpoint aa 2 100 init) s)
    as (_ & _ & Hend); [vm_compute; reflexivity|].
  destruct (Hend eq_refl) as (Hres & _ & Hposted & Hall).
  split_and!;
    [lia|exact Hno|reflexivity|exact Hres|reflexivity|exact Hposted|exact Hall].
Defined.

(** The step of the race in which task 1 executes line 36. *)
Lemma found_flag_monotone_and_atomic_witness :
  let s := state_after race_endpoint race 2 race_claiming in
  let s' := state_after race_endpoint race 2 (race_claiming ++ [Worker 1]) in
  reachable race_endpoint race 2 s /\
  step race_endpoint race 2 (Worker 1) s = Some s' /\
  found_password s = false /\ found_password s' = true /\
  lock s = true /\ lock s' = true.
Proof.
  intros s s'.
  assert (reachable race_endpoint race 2 s) as Hr
      by (exists race_claiming; vm_compute; reflexivity).
  assert (step race_endpoint race 2 (Worker 1) s = Some s') as Hstep
      by (vm_compute; reflexivity).
  destruct (found_flag_monotone_and_atomic race_endpoint race 2 (Worker 1) s s'
              Hr Hstep) as (_ & _ & _ & Hlock & _).
  destruct Hlock as [Hl Hl']; [left; vm_compute; congruence|].
  split_and!; [exact Hr|exact Hstep|reflexivity|reflexivity|exact Hl|exact Hl'].
Defined.

(** At the end of the race standard output holds one winning line. *)
Lemma found_line_printed_exactly_once_witness :
  let s := state_after race_endpoint race 2 race_whole in
  reachable race_endpoint race 2 s /\
  filter (fun l => is_found_line l = true) (stdout s)
  = [found_line "B"%string].
Proof.
  intros s.
  assert (reachable race_endpoint race 2 s) as Hr
      by (exists race_whole; vm_compute; reflexivity).
  destruct (found_line_printed_exactly_once race_endpoint race 2 s Hr)
    as (_ & _ & Hfin & _).
  split; [exact Hr|].
  apply (Hfin 1 "B"%string). reflexivity.
Defined.


(** In the race, the task of "C" starts after the flag went up and
    returns at once. *)
Lemma worker_skips_when_found_witness :
  let s := state_after race_endpoint race 2 race_late_start in
  futures s !! 2 = Some ("C"%string, Running W_check) /\
  found_password s = true /\
  exists s',
    step race_endpoint race 2 (Worker 2) s = Some s' /\
    futures s' !! 2 = Some ("C"%string, Finished false) /\
    posted s' = posted s.
Proof.
  intros s.
  destruct (worker_skips_when_found race_endpoint race 2 s 2 "C"%string)
    as (s' & Hstep & Hfut & Hposted & _); [reflexivity|reflexivity|].
  split_and!; [reflexivity|reflexivity|].
  exists s'. split_and!; [exact Hstep| |exact Hposted].
  rewrite Hfut. reflexivity.
Defined.

(** C7 as stated does not hold: a fault is not always reported.  In this
    run of the script with ten pool threads the request for "B" faults,
    the task of "A" claims before the task of "B" reaches [log], and the
    run ends without an Error line for "B". *)
Lemma error_line_can_be_suppressed :
  exists s,
    exec ab_endpoint ab MAX_WORKERS ab_schedule init = Some s /\
    oracle ab_endpoint "B" = Raise "connection refused" /\
    In "B"%string (posted s) /\
    main s = M_done /\
    futures s !! 1 = Some ("B"%string, Finished false) /\
    stdout s = [found_line "A"] /\
    ~ In (error_line "B" "connection refused") (stdout s).
Proof.
  eexists. split; [vm_compute; reflexivity|].
  split_and!; try reflexivity.
  - simpl. tauto.
  - simpl. intros [H|[]]. discriminate H.
Qed.

(** The same run: the fault of "B" is caught and handed to [log], and the
    task of "B" ends with [False]. *)
Lemma oracle_fault_is_caught_and_logged_witness :
  let s := state_after ab_endpoint ab MAX_WORKERS ab_awaiting in
  reachable ab_endpoint ab MAX_WORKERS s /\
  futures s !! 1
  = Some ("B"%string, Running (W_await (Raise "connection refused"))) /\
  Raise "connection refused" = oracle ab_endpoint "B" /\
  step ab_endpoint ab MAX_WORKERS (Worker 1) s
  = Some (goto 1 "B"
            (Running (W_log_lock (error_line "B" "connection refused"))) s) /\
  posted (state_after ab_endpoint ab MAX_WORKERS ab_schedule) ⊆+ ab.
Proof.
  intros s.
  assert (reachable ab_endpoint ab MAX_WORKERS s) as Hr
      by (exists ab_awaiting; vm_compute; reflexivity).
  destruct (oracle_fault_is_caught_and_logged ab_endpoint ab MAX_WORKERS)
    as (Hanswer & Hcatch & _ & _ & Hposted & _).
  split_and!; [exact Hr|reflexivity| | |].
  - apply (Hanswer s 1 "B"%string); [exact Hr|reflexivity].
  - apply Hcatch; reflexivity.
  - apply Hposted. exists ab_schedule. vm_compute. reflexivity.
Defined.

(** With the ten threads of the script, two requests are in flight in the
    run in which "B" faults. *)
Lemma in_flight_bounded_by_pool_witness :
  let s := state_after ab_endpoint ab MAX_WORKERS ab_in_flight in
  reachable ab_endpoint ab MAX_WORKERS s /\
  count in_flight (futures s) = 2 /\
  count in_flight (futures s) <= count is_running (futures s) /\
  count is_running (futures s) <= 10.
Proof.
  intros s.
  assert (reachable ab_endpoint ab MAX_WORKERS s) as Hr
      by (exists ab_in_flight; vm_compute; reflexivity).
  destruct (in_flight_bounded_by_pool ab_endpoint ab s) as [_ Hb].
  destruct (Hb Hr) as [H1 H2].
  split_and!; [exact Hr|reflexivity|exact H1|exact H2].
Defined.

(** In the race, after two submissions, the futures are the first two
    candidates and the third submission does not depend on the flag.  In
    the run with eleven candidates, the step that takes the queued task
    of "000K" out of the run is the [cancel] of line 53. *)
Lemma run_submits_every_candidate_in_order_witness :
  let s := state_after race_endpoint race 2 [Main; Main] in
  let before := take 43 eleven_schedule in
  let s1 := state_after eleven_endpoint eleven MAX_WORKERS before in
  let s2 := state_after eleven_endpoint eleven MAX_WORKERS (before ++ [Main]) in
  reachable race_endpoint race 2 s /\
  main s = M_submit 2 /\
  (fst <$> futures s) = ["A"; "B"]%string /\
  step race_endpoint race 2 Main s
  = Some (set_main (M_submit 3)
            (set_futures (futures s ++ [("C"%string, Pending)]) s)) /\
  reachable eleven_endpoint eleven MAX_WORKERS s1 /\
  step eleven_endpoint eleven MAX_WORKERS Main s1 = Some s2 /\
  futures s1 !! 10 = Some ("000K"%string, Pending) /\
  futures s2 !! 10 = Some ("000K"%string, Cancelled) /\
  main s1 = M_cancel 10 /\ found_password s1 = true /\ posted s2 = posted s1.
Proof.
  intros s before s1 s2.
  assert (reachable race_endpoint race 2 s) as Hr
      by (exists [Main; Main]; vm_compute; reflexivity).
  destruct (run_submits_every_candidate_in_order race_endpoint race 2 s Hr)
    as (Hpre & Hsub & _).
  destruct (Hsub 2 eq_refl) as [_ Hnext].
  assert (reachable eleven_endpoint eleven MAX_WORKERS s1) as Hr1
      by (exists before; vm_compute; reflexivity).
  assert (step eleven_endpoint eleven MAX_WORKERS Main s1 = Some s2) as Hstep
      by (vm_compute; reflexivity).
  destruct (run_submits_every_candidate_in_order eleven_endpoint eleven
              MAX_WORKERS s1 Hr1) as (_ & _ & _ & Hskip).
  destruct (Hskip Main s2 10 "000K"%string Pending Cancelled Hstep
              eq_refl eq_refl eq_refl eq_refl) as (Hfound & Hposted & _).
  split_and!;
    [exact Hr|reflexivity|exact Hpre|apply Hnext; reflexivity|exact Hr1
    |exact Hstep|reflexivity|reflexivity|reflexivity|exact Hfound
    |exact Hposted].
Defined.

(** C10 as stated does not hold in its last part: a candidate is also
    skipped without its task ever starting.  In this run of the script
    with its ten pool threads and eleven candidates, the task of "000A"
    claims while the task of "000K" is still queued; [run] cancels the
    future of "000K" at lines 52-53 and returns.  In no state of the run
    has the task of "000K" started, and no request for "000K" was sent. *)
Lemma cancelled_task_never_starts :
  exists s,
    exec eleven_endpoint eleven MAX_WORKERS eleven_schedule init = Some s /\
    main s = M_done /\
    run_result s = Found (Some "000A"%string) /\
    futures s !! 10 = Some ("000K"%string, Cancelled) /\
    ~ In "000K"%string (posted s) /\
    length (states eleven_endpoint eleven MAX_WORKERS eleven_schedule init)
    = S (length eleven_schedule) /\
    forall s', In s' (states eleven_endpoint eleven MAX_WORKERS
                             eleven_schedule init) ->
      forall p f, futures s' !! 10 = Some (p, f) ->
        f = Pending \/ f = Cancelled.
Proof.
  eexists. split; [vm_compute; reflexivity|].
  split_and!; try reflexivity.
  - simpl. intros [H|[]]. discriminate H.
  - intros s' Hin p f Hf.
    assert (forallb (fun s' => match futures s' !! 10 with
                               | Some (_, Pending) | Some (_, Cancelled)
                               | None => true
                               | _ => false
                               end)
              (states eleven_endpoint eleven MAX_WORKERS eleven_schedule init)
            = true) as Hall by (vm_compute; reflexivity).
    rewrite forallb_forall in Hall. specialize (Hall s' Hin).
    rewrite Hf in Hall. destruct f; try discriminate Hall; auto.
Qed.

(** ** The further properties on the scenarios *)

(** While task 1 of the race is between the test and the assignment of
    line 36, the lock is taken, and task 1 holds it. *)
Lemma lock_is_exclusive_witness :
  let s := state_after race_endpoint race 2 race_claiming in
  reachable race_endpoint race 2 s /\
  lock s = true /\
  exists i p f, futures s !! i = Some (p, f) /\ holds_lock f = true.
Proof.
  intros s.
  assert (reachable race_endpoint race 2 s) as Hr
      by (exists race_claiming; vm_compute; reflexivity).
  destruct (lock_is_exclusive race_endpoint race 2 s Hr) as (_ & _ & Hheld).
  split_and!; [exact Hr|reflexivity|apply Hheld; reflexivity].
Defined.

(** The one line of the race says that "B" was accepted, and it was. *)
Lemma printed_lines_are_truthful_witness :
  let s := state_after race_endpoint race 2 race_whole in
  reachable race_endpoint race 2 s /\
  In (found_line "B") (stdout s) /\
  line_origin race_endpoint race (found_line "B").
Proof.
  intros s.
  assert (reachable race_endpoint race 2 s) as Hr
      by (exists race_whole; vm_compute; reflexivity).
  assert (In (found_line "B") (stdout s)) as Hin
      by (vm_compute; left; reflexivity).
  split_and!; [exact Hr|exact Hin|].
  exact (printed_lines_are_truthful race_endpoint race 2 s (found_line "B")
           Hr Hin).
Defined.

Lemma winner_is_accepted_candidate_witness :
  let s := state_after race_endpoint race 2 race_whole in
  reachable race_endpoint race 2 s /\
  correct_password s = Some "B"%string /\
  In "B"%string race /\ accepts race_endpoint "B" = true /\
  found_password s = true.
Proof.
  intros s.
  assert (reachable race_endpoint race 2 s) as Hr
      by (exists race_whole; vm_compute; reflexivity).
  destruct (winner_is_accepted_candidate race_endpoint race 2 s "B" Hr eq_refl)
    as (Hin & Hacc & Hf).
  split_and!; [exact Hr|reflexivity|exact Hin|exact Hacc|exact Hf].
Defined.

Lemma race_NoDup : NoDup race.
Proof.
  apply NoDup_ListNoDup.
  repeat (constructor; [by (simpl; intros H; repeat destruct H as [H|H])|]).
  constructor.
Qed.

Lemma no_request_sent_twice_witness :
  let s := state_after race_endpoint race 2 race_whole in
  NoDup race /\ reachable race_endpoint race 2 s /\
  posted s = ["A"; "B"]%string /\ NoDup (posted s).
Proof.
  intros s.
  assert (reachable race_endpoint race 2 s) as Hr
      by (exists race_whole; vm_compute; reflexivity).
  split_and!; [exact race_NoDup|exact Hr|reflexivity|].
  exact (no_request_sent_twice race_endpoint race 2 s race_NoDup Hr).
Defined.

(** After task 1 has won the race, the rest of the run sends nothing. *)
Lemma requests_after_claim_are_bounded_witness :
  let s := state_after race_endpoint race 2 race_won in
  let rest := [Start; Worker 0; Worker 0; Worker 0; Worker 2] in
  let s' := state_after race_endpoint race 2 (race_won ++ rest) in
  reachable race_endpoint race 2 s /\
  found_password s = true /\
  exec race_endpoint race 2 rest s = Some s' /\
  count at_post (futures s) = 0 /\
  length (posted s') <= length (posted s) + count at_post (futures s).
Proof.
  intros s rest s'.
  assert (reachable race_endpoint race 2 s) as Hr
      by (exists race_won; vm_compute; reflexivity).
  assert (exec race_endpoint race 2 rest s = Some s') as He
      by (vm_compute; reflexivity).
  destruct (requests_after_claim_are_bounded race_endpoint race 2 s rest s'
              Hr eq_refl He) as [Hle _].
  split_and!; [exact Hr|reflexivity|exact He|reflexivity|exact Hle].
Defined.

Lemma run_leaves_nothing_behind_witness :
  let s := state_after race_endpoint race 2 race_whole in
  reachable race_endpoint race 2 s /\
  main s = M_done /\
  (fst <$> futures s) = race /\
  lock s = false /\
  forall i p f, futures s !! i = Some (p, f) -> is_done f = true.
Proof.
  intros s.
  assert (reachable race_endpoint race 2 s) as Hr
      by (exists race_whole; vm_compute; reflexivity).
  destruct (run_leaves_nothing_behind race_endpoint race 2 s Hr) as [_ Hend].
  destruct (Hend eq_refl) as (Hall & Hlock & Hdone).
  split_and!; [exact Hr|reflexivity|exact Hall|exact Hlock|exact Hdone].
Defined.

Lemma password_list_lookup_witness :
  1 < 1000 /\ ascii_uppercase !! 25 = Some "Z"%char /\
  password_list !! (26 * 1 + 25)
  = Some (String.append (format_03 1) (String "Z" EmptyString)) /\
  String.append (format_03 1) (String "Z" EmptyString) = "001Z"%string.
Proof.
  split_and!; [lia|reflexivity| |reflexivity].
  apply (password_list_lookup 1 25 "Z"); [lia|reflexivity].
Defined.

Lemma password_list_shape_witness :
  In "001A"%string password_list /\
  exists a b c char,
    "001A"%string = String a (String b (String c (String char EmptyString))) /\
    is_digit a = true /\ is_digit b = true /\ is_digit c = true /\
    In char ascii_uppercase.
Proof.
  assert (In "001A"%string password_list) as Hin.
  { apply list_elem_of_In, (list_elem_of_lookup_2 _ 26). lazy. reflexivity. }
  split; [exact Hin|].
  exact (password_list_shape "001A" Hin).
Defined.

(** * machanger.py: proofs *)

Import MacChanger.

(** ** The pure functions *)

(** A property of characters checked on all 256 of them. *)

Lemma ascii_forall (P : ascii -> bool) :
  forallb (fun n => P (ascii_of_nat n)) (seq 0 256) = true ->
  forall c, P c = true.
Proof.
  intros H c. rewrite <- (ascii_nat_embedding c).
  rewrite forallb_forall in H. apply H, in_seq.
  pose proof (nat_ascii_bounded c). lia.
Qed.

(** *** [is_valid_mac] *)

Lemma is_hex_lower c : is_hex (lower_char c) = is_hex c.
Proof.
  apply eqb_prop. revert c. apply ascii_forall. vm_compute. reflexivity.
Qed.

Lemma match_groups_lower k s :
  match_groups k (lower s) = lower <$> match_groups k s.
Proof.
  revert s. induction k as [|k IH]; intros s; simpl; [done|].
  destruct s as [|a [|b [|c rest]]]; simpl; try done.
  rewrite !is_hex_lower.
  assert (Ascii.eqb (lower_char c) ":" = Ascii.eqb c ":") as ->.
  { apply eqb_prop. revert c. apply ascii_forall. vm_compute. reflexivity. }
  destruct (is_hex a && is_hex b && Ascii.eqb c ":"); [apply IH|done].
Qed.

Lemma lower_tail_eqb t :
  (String.eqb (lower t) EmptyString || String.eqb (lower t) (String newline EmptyString))
  = (String.eqb t EmptyString || String.eqb t (String newline EmptyString)).
Proof.
  destruct t as [|c [|d t]]; simpl; try done.
  - apply eqb_prop. revert c. apply ascii_forall. vm_compute. reflexivity.
  - destruct (Ascii.eqb (lower_char c) newline), (Ascii.eqb c newline); done.
Qed.

(** X12: validity does not depend on the case of the letters:
    [is_valid_mac] gives the same answer for [mac] and [mac.lower()], the
    form in which [change_mac] compares addresses. *)
Theorem is_valid_mac_lower mac : is_valid_mac (lower mac) = is_valid_mac mac.
Proof.
  unfold is_valid_mac. rewrite match_groups_lower.
  destruct (match_groups 5 mac) as [[|a [|b tail]]|]; simpl; try done.
  by rewrite !is_hex_lower, lower_tail_eqb.
Qed.

Lemma append_assoc (a b c : string) :
  String.append (String.append a b) c = String.append a (String.append b c).
Proof. induction a as [|x a IH]; simpl; [done|]. by rewrite IH. Qed.

Lemma append_length (a b : string) :
  String.length (String.append a b) = String.length a + String.length b.
Proof. induction a as [|x a IH]; simpl; [done|]. by rewrite IH. Qed.

Lemma match_groups_split k s rest :
  match_groups k s = Some rest ->
  exists pre,
    s = String.append pre rest /\
    String.length pre = 3 * k /\
    (forall n rest' post, take_mac_chars n rest' = Some post ->
       take_mac_chars (3 * k + n) (String.append pre rest')
       = Some (String.append pre post)) /\
    (forall rest', match_groups k (String.append pre rest') = Some rest').
Proof.
  revert s. induction k as [|k IH]; intros s Hs; simpl in Hs.
  - simplify_eq. exists EmptyString. by split_and!.
  - destruct s as [|a [|b [|c s]]]; try done.
    destruct (is_hex a) eqn:Ha, (is_hex b) eqn:Hb, (Ascii.eqb c ":") eqn:Hc;
      try done. simpl in Hs.
    destruct (IH _ Hs) as (pre & -> & Hlen & Htake & Hgroups).
    exists (String a (String b (String c pre))). split_and!; [done|simpl; lia|..].
    + intros n rest' post Hpost.
      replace (3 * S k + n) with (S (S (S (3 * k + n)))) by lia.
      pose proof (Htake _ _ _ Hpost) as E.
      remember (3 * k + n) as m. simpl. unfold is_mac_char.
      rewrite Ha, Hb, Hc, orb_true_r. simpl. by rewrite E.
    + intros rest'. simpl. rewrite Ha, Hb, Hc. simpl. apply Hgroups.
Qed.

Lemma valid_mac_body mac :
  is_valid_mac mac = true ->
  exists body,
    take_mac_chars 17 mac = Some body /\
    String.length body = 17 /\
    (mac = body \/ mac = String.append body (String newline EmptyString)) /\
    is_valid_mac body = true.
Proof.
  unfold is_valid_mac. intros Hv.
  destruct (match_groups 5 mac) as [[|a [|b tail]]|] eqn:Hg; try done.
  destruct (is_hex a) eqn:Ha, (is_hex b) eqn:Hb; try done. simpl in Hv.
  destruct (match_groups_split _ _ _ Hg) as (pre & -> & Hlen & Htake & Hgroups).
  exists (String.append pre (String a (String b EmptyString))).
  assert (take_mac_chars 2 (String a (String b tail))
          = Some (String a (String b EmptyString))) as H2.
  { simpl. unfold is_mac_char. by rewrite Ha, Hb. }
  split_and!.
  - apply (Htake 2 _ _ H2).
  - rewrite append_length. simpl. lia.
  - apply orb_true_iff in Hv as [Ht|Ht]; apply String.eqb_eq in Ht; subst tail.
    + by left.
    + right. by rewrite append_assoc.
  - rewrite Hgroups. by rewrite Ha, Hb.
Qed.

(** X10: an address that [is_valid_mac] accepts is seventeen characters
    out of [[0-9a-fA-F:]] that are themselves a valid address, and nothing
    else, or these seventeen characters followed by one newline. *)
Theorem is_valid_mac_shape mac :
  is_valid_mac mac = true ->
  exists body,
    take_mac_chars 17 mac = Some body /\
    String.length body = 17 /\
    (mac = body \/ mac = String.append body (String newline EmptyString)) /\
    is_valid_mac body = true.
Proof. apply valid_mac_body. Qed.

(** X11: [$] also matches before a newline that ends the string, so a
    newline after seventeen characters does not change the answer of
    [is_valid_mac]: an address with a trailing newline is accepted. *)
Theorem is_valid_mac_trailing_newline body :
  String.length body = 17 ->
  is_valid_mac (String.append body (String newline EmptyString))
  = is_valid_mac body.
Proof.
  intros Hlen.
  do 17 (destruct body as [|? body]; [done|]).
  destruct body; [|done]. clear Hlen.
  unfold is_valid_mac. simpl.
  repeat case_match; simplify_eq; done.
Qed.

(** *** MAC generation *)

Lemma format_02x_octet z :
  (0 <= z <= 255)%Z ->
  exists a b, format_02x z = String a (String b EmptyString) /\
              is_hex a = true /\ is_hex b = true.
Proof.
  intros Hz.
  assert (forallb (fun n => octet_shape (Z.of_nat n)) (seq 0 256) = true)
    as Hall by (vm_compute; reflexivity).
  rewrite forallb_forall in Hall.
  specialize (Hall (Z.to_nat z)). rewrite Z2Nat.id in Hall by lia.
  assert (octet_shape z = true) as Hs by (apply Hall, in_seq; lia).
  unfold octet_shape in Hs.
  destruct (format_02x z) as [|a [|b [|]]]; try done.
  apply andb_true_iff in Hs as [Ha Hb]. by exists a, b.
Qed.

Lemma format_02x_negative z :
  (z < 0)%Z -> exists rest, format_02x z = String "-" rest.
Proof.
  intros Hz. unfold format_02x. apply Z.ltb_lt in Hz. rewrite Hz. eauto.
Qed.

Lemma hex_digit_string u :
  u = Hexadecimal.Nil \/
  exists c rest, HexadecimalString.NilEmpty.string_of_uint u = String c rest /\
                 is_hex c = true.
Proof. destruct u; [by left|..]; right; simpl; eauto. Qed.

Lemma hex_not_colon c : is_hex c = true -> Ascii.eqb c ":" = false.
Proof.
  intros Hc.
  pose proof (ascii_forall (fun c => implb (is_hex c) (negb (Ascii.eqb c ":")))
                ltac:(vm_compute; reflexivity) c) as H.
  cbv beta in H. rewrite Hc in H. simpl in H. by apply negb_true_iff.
Qed.

Lemma format_02x_large z :
  (256 <= z)%Z ->
  exists a b c rest, format_02x z = String a (String b (String c rest)) /\
                     Ascii.eqb c ":" = false.
Proof.
  intros Hz. unfold format_02x.
  destruct (z <? 0)%Z eqn:Hneg; [apply Z.ltb_lt in Hneg; lia|].
  assert (256 <= Z.abs_N z)%N as Hn by lia.
  generalize dependent (Z.abs_N z). intros n Hn.
  pose proof (HexadecimalN.Unsigned.of_to n) as Hround.
  destruct (N.to_hex_uint n) as
      [|u|u|u|u|u|u|u|u|u|u|u|u|u|u|u|u];
    try (vm_compute in Hround; lia).
  all: destruct u as [|v|v|v|v|v|v|v|v|v|v|v|v|v|v|v|v];
    try (vm_compute in Hround; lia).
  all: destruct (hex_digit_string v) as [->|(c & rest & Hv & Hc)];
    try (vm_compute in Hround; lia).
  all: simpl; rewrite Hv; simpl; do 4 eexists; split; [reflexivity|].
  all: by apply hex_not_colon.
Qed.

Lemma match_groups_bad_first k a s :
  is_hex a = false -> match_groups (S k) (String a s) = None.
Proof. intros Ha. destruct s as [|b [|c r]]; simpl; by rewrite ?Ha. Qed.

Lemma match_groups_octet k z rest :
  in_octet z ->
  match_groups (S k) (String.append (format_02x z) (String ":" rest))
  = match_groups k rest.
Proof.
  intros (a & b & -> & Ha & Hb)%format_02x_octet. simpl. by rewrite Ha, Hb.
Qed.

Lemma match_groups_not_octet k z rest :
  ~ in_octet z ->
  match_groups (S k) (String.append (format_02x z) rest) = None.
Proof.
  intros Hz. destruct (decide (z < 0)%Z) as [Hneg|Hpos].
  - destruct (format_02x_negative z Hneg) as [r ->]. cbn [String.append].
    by apply match_groups_bad_first.
  - destruct (format_02x_large z) as (a & b & c & r & -> & Hc);
      [unfold in_octet in Hz; lia|].
    cbn [String.append match_groups]. rewrite Hc. by rewrite andb_false_r.
Qed.

Lemma format_mac_valid o1 o2 o3 o4 o5 o6 :
  in_octet o1 -> in_octet o2 -> in_octet o3 ->
  in_octet o4 -> in_octet o5 -> in_octet o6 ->
  is_valid_mac (format_mac [o1; o2; o3; o4; o5; o6]) = true /\
  String.length (format_mac [o1; o2; o3; o4; o5; o6]) = 17.
Proof.
  intros H1 H2 H3 H4 H5 H6.
  unfold is_valid_mac, format_mac. cbn [map join String.append].
  rewrite !match_groups_octet by done.
  destruct (format_02x_octet o1 H1) as (a1 & b1 & -> & _ & _).
  destruct (format_02x_octet o2 H2) as (a2 & b2 & -> & _ & _).
  destruct (format_02x_octet o3 H3) as (a3 & b3 & -> & _ & _).
  destruct (format_02x_octet o4 H4) as (a4 & b4 & -> & _ & _).
  destruct (format_02x_octet o5 H5) as (a5 & b5 & -> & _ & _).
  destruct (format_02x_octet o6 H6) as (a6 & b6 & -> & Ha & Hb).
  simpl. by rewrite Ha, Hb.
Qed.

Lemma format_mac_invalid o1 o2 o3 o4 o5 o6 :
  ~ (in_octet o1 /\ in_octet o2 /\ in_octet o3) ->
  is_valid_mac (format_mac [o1; o2; o3; o4; o5; o6]) = false.
Proof.
  intros Hbad. unfold is_valid_mac, format_mac. cbn [map join String.append].
  destruct (decide (in_octet o1)) as [H1|H1];
    [rewrite match_groups_octet by done|by rewrite match_groups_not_octet].
  destruct (decide (in_octet o2)) as [H2|H2];
    [rewrite match_groups_octet by done|by rewrite match_groups_not_octet].
  destruct (decide (in_octet o3)) as [H3|H3];
    [tauto|by rewrite match_groups_not_octet].
Qed.

Section GeneratorFacts.

Variable randint : nat -> Z -> Z -> Z.

Variable int16 : string -> option Z.

(** X19: when [random.randint] stays in its range, the address of
    [generate_random_mac] is valid for [is_valid_mac], seventeen characters
    long, and starts with the octet "02". *)
Theorem generate_random_mac_is_valid :
  randint_in_range randint ->
  is_valid_mac (generate_random_mac randint) = true /\
  String.length (generate_random_mac randint) = 17 /\
  String.prefix "02:" (generate_random_mac randint) = true.
Proof.
  intros Hr. unfold generate_random_mac. cbn [map app].
  assert (in_octet (randint 0 0 127)) as H0.
  { pose proof (Hr 0 0%Z 127%Z). unfold in_octet. lia. }
  assert (forall k, in_octet (randint k 0 255)) as Hk.
  { intros k. pose proof (Hr k 0%Z 255%Z). unfold in_octet. lia. }
  assert (in_octet 2) as H2 by (unfold in_octet; lia).
  destruct (format_mac_valid 2 (randint 0 0 127) (randint 1 0 255)
              (randint 2 0 255) (randint 3 0 255) (randint 4 0 255))
    as [Hv Hl]; try done.
  split_and!; [done..|].
  unfold format_mac. cbn [map join].
  change (format_02x 2) with "02"%string.
  by destruct (format_02x_octet _ H0) as (a & b & -> & _).
Qed.

(** X20: an OUI that does not split into three groups at its colons is
    refused: [generate_vendor_mac] returns [None] and prints the error
    line, whatever [int] makes of the groups. *)
Theorem generate_vendor_mac_group_count oui :
  length (split_on ":" oui) <> 3 ->
  generate_vendor_mac randint int16 oui
  = (None, [("Invalid OUI format. Use format like 00:11:22", "red")%string]).
Proof.
  intros Hlen. unfold generate_vendor_mac.
  destruct (mapM int16 (split_on ":" oui)) as [parts|] eqn:Hparts; [|done].
  apply length_mapM in Hparts. rewrite <- Hparts.
  destruct (length (split_on ":" oui) =? 3) eqn:E; [|done].
  apply Nat.eqb_eq in E. done.
Qed.

(** X21: [generate_vendor_mac] does not check the range of the three
    numbers it reads: when [int] reads the three groups as [z1], [z2],
    [z3], it returns an address and prints nothing, and that address is
    valid for [is_valid_mac] exactly when the three numbers fit an octet. *)
Theorem generate_vendor_mac_valid_iff oui z1 z2 z3 :
  randint_in_range randint ->
  mapM int16 (split_on ":" oui) = Some [z1; z2; z3] ->
  exists mac,
    generate_vendor_mac randint int16 oui = (Some mac, []) /\
    (is_valid_mac mac = true <->
     (0 <= z1 <= 255 /\ 0 <= z2 <= 255 /\ 0 <= z3 <= 255)%Z).
Proof.
  intros Hr Hparts. unfold generate_vendor_mac. rewrite Hparts.
  cbn [length Nat.eqb negb app map]. eexists. split; [reflexivity|].
  assert (forall k, in_octet (randint k 0 255)) as Hk.
  { intros k. pose proof (Hr k 0%Z 255%Z). unfold in_octet. lia. }
  split.
  - intros Hv. destruct (decide (in_octet z1 /\ in_octet z2 /\ in_octet z3))
      as [?|Hbad]; [done|].
    rewrite format_mac_invalid in Hv by done. done.
  - intros (H1 & H2 & H3). by apply format_mac_valid.
Qed.

End GeneratorFacts.

Lemma is_hex_digits c : is_hex c = true -> In c hex_digits.
Proof.
  intros Hc.
  assert (implb (is_hex c) (existsb (Ascii.eqb c) hex_digits) = true) as H.
  { clear Hc. revert c. apply ascii_forall. vm_compute. reflexivity. }
  rewrite Hc in H. cbn [implb] in H. apply existsb_exists in H as (d & Hd & Heq).
  by apply Ascii.eqb_eq in Heq as ->.
Qed.

Lemma format_02x_hex_pair a b :
  is_hex a = true -> is_hex b = true ->
  format_02x (16 * hex_value a + hex_value b)
  = String (lower_char a) (String (lower_char b) EmptyString) /\
  in_octet (16 * hex_value a + hex_value b).
Proof.
  intros Ha Hb.
  assert (forallb (fun a => forallb (pair_check a) hex_digits) hex_digits = true)
    as Hall by (vm_compute; reflexivity).
  rewrite forallb_forall in Hall.
  pose proof (Hall a (is_hex_digits a Ha)) as Hrow.
  rewrite forallb_forall in Hrow.
  pose proof (Hrow b (is_hex_digits b Hb)) as Hc.
  unfold pair_check in Hc. rewrite Ha, Hb in Hc. simpl in Hc.
  apply andb_prop in Hc as [Hc H255]. apply andb_prop in Hc as [Hc H0].
  apply String.eqb_eq in Hc. split; [done|]. unfold in_octet. lia.
Qed.

Section VendorOui.

Variable randint : nat -> Z -> Z -> Z.

Variable int16 : string -> option Z.

(** X22: for an OUI of three groups of two hexadecimal digits, the address
    of [generate_vendor_mac] is the OUI in lower case, a colon and eight
    more characters, and it is valid for [is_valid_mac]. *)
Theorem generate_vendor_mac_keeps_oui a1 b1 a2 b2 a3 b3 :
  randint_in_range randint ->
  int16_reads_hex_pairs int16 ->
  is_hex a1 = true -> is_hex b1 = true -> is_hex a2 = true ->
  is_hex b2 = true -> is_hex a3 = true -> is_hex b3 = true ->
  exists rest,
    generate_vendor_mac randint int16 (oui_of a1 b1 a2 b2 a3 b3)
    = (Some (String.append (lower (oui_of a1 b1 a2 b2 a3 b3))
                           (String ":" rest)), []) /\
    String.length rest = 8 /\
    is_valid_mac (String.append (lower (oui_of a1 b1 a2 b2 a3 b3))
                                (String ":" rest)) = true.
Proof.
  intros Hr Hi Ha1 Hb1 Ha2 Hb2 Ha3 Hb3.
  assert (forall k, in_octet (randint k 0 255)) as Hk.
  { intros k. pose proof (Hr k 0%Z 255%Z). unfold in_octet. lia. }
  destruct (format_02x_hex_pair a1 b1 Ha1 Hb1) as [E1 O1].
  destruct (format_02x_hex_pair a2 b2 Ha2 Hb2) as [E2 O2].
  destruct (format_02x_hex_pair a3 b3 Ha3 Hb3) as [E3 O3].
  assert (split_on ":" (oui_of a1 b1 a2 b2 a3 b3)
          = [String a1 (String b1 EmptyString);
             String a2 (String b2 EmptyString);
             String a3 (String b3 EmptyString)]) as Hsplit.
  { unfold oui_of. cbn [split_on].
    rewrite (hex_not_colon a1), (hex_not_colon b1), (hex_not_colon a2),
      (hex_not_colon b2), (hex_not_colon a3), (hex_not_colon b3) by done.
    done. }
  unfold generate_vendor_mac. rewrite Hsplit.
  cbn [mapM]. rewrite !Hi by done.
  cbn [mbind option_bind mret option_ret length Nat.eqb negb app map].
  exists (format_mac [randint 0 0 255; randint 1 0 255; randint 2 0 255]).
  assert (format_mac
            [(16 * hex_value a1 + hex_value b1)%Z;
             (16 * hex_value a2 + hex_value b2)%Z;
             (16 * hex_value a3 + hex_value b3)%Z;
             randint 0 0 255; randint 1 0 255; randint 2 0 255]
          = String.append (lower (oui_of a1 b1 a2 b2 a3 b3))
              (String ":" (format_mac
                 [randint 0 0 255; randint 1 0 255; randint 2 0 255]))) as Hmac.
  { unfold format_mac. cbn [map join]. rewrite E1, E2, E3.
    unfold oui_of. cbn [lower String.append].
    replace (lower_char ":") with ":"%char by (vm_compute; reflexivity). done. }
  rewrite <- Hmac. split_and!; [done| |by apply format_mac_valid].
  unfold format_mac. cbn [map join].
  destruct (format_02x_octet _ (Hk 0)) as (x1 & y1 & -> & _).
  destruct (format_02x_octet _ (Hk 1)) as (x2 & y2 & -> & _).
  destruct (format_02x_octet _ (Hk 2)) as (x3 & y3 & -> & _).
  done.
Qed.

End VendorOui.

(** *** [get_interfaces] *)

Lemma all_chars_app P a b :
  all_chars P (String.append a b) = all_chars P a && all_chars P b.
Proof.
  induction a as [|c a IH]; simpl; [done|]. rewrite IH. by rewrite andb_assoc.
Qed.

Lemma all_chars_impl (P Q : ascii -> bool) s :
  (forall c, P c = true -> Q c = true) ->
  all_chars P s = true -> all_chars Q s = true.
Proof.
  intros HPQ. induction s as [|c s IH]; simpl; [done|].
  intros [Hc Hs]%andb_prop. rewrite (HPQ _ Hc). by apply IH.
Qed.

Lemma not_space_not_newline c : not_space c = true -> not_newline c = true.
Proof.
  intros Hc.
  pose proof (ascii_forall (fun c => implb (not_space c) (not_newline c))
                ltac:(vm_compute; reflexivity) c) as H.
  cbv beta in H. by rewrite Hc in H.
Qed.

Lemma nonspace_prefix_spec line :
  exists rest,
    line = String.append (nonspace_prefix line) rest /\
    all_chars not_space (nonspace_prefix line) = true.
Proof.
  induction line as [|c line (rest & Hrest & Hall)]; simpl.
  - by exists EmptyString.
  - destruct (is_space c) eqn:Hc.
    + by exists (String c line).
    + exists rest. simpl. unfold not_space at 1. rewrite Hc. simpl.
      split; [by rewrite <- Hrest|done].
Qed.

Lemma before_last_colon_spec w pre :
  before_last_colon w = Some pre ->
  exists post, w = String.append pre (String ":" post).
Proof.
  revert pre. induction w as [|c w IH]; intros pre; simpl; [done|].
  destruct (before_last_colon w) as [pre'|] eqn:Hw.
  - intros [= <-]. destruct (IH _ eq_refl) as [post ->]. by exists post.
  - destruct (Ascii.eqb c ":") eqn:Hc; [|done].
    intros [= <-]. apply Ascii.eqb_eq in Hc as ->. by exists w.
Qed.

Lemma interface_of_line_spec line name :
  interface_of_line line = Some name ->
  name <> EmptyString /\
  all_chars not_space name = true /\
  exists rest, line = String.append name (String ":" rest).
Proof.
  unfold interface_of_line. intros Hline.
  destruct (nonspace_prefix_spec line) as (rest & Hrest & Hall).
  destruct (nonspace_prefix line) as [|c word]; [done|].
  destruct (before_last_colon word) as [pre|] eqn:Hpre; [|done].
  injection Hline as <-.
  destruct (before_last_colon_spec _ _ Hpre) as [post ->].
  split_and!; [done|..].
  - change (String c (String.append pre (String ":" post)))
      with (String.append (String c pre) (String ":" post)) in Hall.
    rewrite all_chars_app in Hall. by apply andb_prop in Hall as [? _].
  - exists (String.append post rest). rewrite Hrest. simpl.
    by rewrite append_assoc.
Qed.

(** X13: every name that [get_interfaces] returns is not "lo", is not
    empty, holds no whitespace, and stands at the start of a line of the
    output, followed by a colon. *)
Theorem get_interfaces_names ifconfig_output name :
  In name (get_interfaces ifconfig_output) ->
  name <> "lo"%string /\
  name <> EmptyString /\
  all_chars not_space name = true /\
  exists line rest,
    In line (split_on newline ifconfig_output) /\
    line = String.append name (String ":" rest).
Proof.
  unfold get_interfaces, findall_interfaces.
  intros [Hin Hlo]%filter_In.
  apply list_elem_of_In, list_elem_of_omap in Hin as (line & Hline & Hname).
  destruct (interface_of_line_spec _ _ Hname) as (Hne & Hns & rest & ->).
  split_and!; [|done..|].
  - intros ->. done.
  - exists (String.append name (String ":" rest)), rest.
    split; [by apply list_elem_of_In|done].
Qed.

Lemma split_on_line line more :
  all_chars not_newline line = true ->
  split_on newline (String.append line (String newline more))
  = line :: split_on newline more.
Proof.
  induction line as [|c line IH]; simpl.
  - intros _. done.
  - intros [Hc Hl]%andb_prop. unfold not_newline in Hc.
    apply negb_true_iff in Hc.
    change (ascii_of_nat 10) with newline. rewrite Hc.
    by rewrite (IH Hl).
Qed.

Lemma split_on_single line :
  all_chars not_newline line = true -> split_on newline line = [line].
Proof.
  induction line as [|c line IH]; simpl; [done|].
  intros [Hc Hl]%andb_prop. unfold not_newline in Hc.
  apply negb_true_iff in Hc. rewrite Hc. by rewrite (IH Hl).
Qed.

(** X14: [get_interfaces] works line by line: the names of an output are
    the names of its first line followed by the names of the rest. *)
Theorem get_interfaces_line_by_line line more :
  all_chars not_newline line = true ->
  get_interfaces (String.append line (String newline more))
  = get_interfaces line ++ get_interfaces more.
Proof.
  intros Hline. unfold get_interfaces, findall_interfaces.
  rewrite (split_on_line line more), (split_on_single line) by done.
  change (line :: split_on newline more)
    with ([line] ++ split_on newline more).
  rewrite omap_app. apply List.filter_app.
Qed.

Lemma nonspace_prefix_app w rest :
  all_chars not_space w = true -> starts_blank rest = true ->
  nonspace_prefix (String.append w rest) = w.
Proof.
  intros Hw Hrest. induction w as [|c w IH]; simpl.
  - destruct rest as [|c r]; simpl in *; [done|]. by rewrite Hrest.
  - simpl in Hw. apply andb_prop in Hw as [Hc Hw].
    unfold not_space in Hc. apply negb_true_iff in Hc. rewrite Hc.
    by rewrite (IH Hw).
Qed.

Lemma before_last_colon_app_colon w :
  before_last_colon (String.append w ":") = Some w.
Proof.
  induction w as [|c w IH]; simpl; [done|]. by rewrite IH.
Qed.

Lemma before_last_colon_none w :
  all_chars not_colon w = true -> before_last_colon w = None.
Proof.
  induction w as [|c w IH]; simpl; [done|].
  intros [Hc Hw]%andb_prop. rewrite (IH Hw).
  unfold not_colon in Hc. apply negb_true_iff in Hc. by rewrite Hc.
Qed.

Lemma nonspace_prefix_no_colon w rest :
  all_chars not_colon w = true -> starts_blank rest = true ->
  all_chars not_colon (nonspace_prefix (String.append w rest)) = true.
Proof.
  intros Hw Hrest. induction w as [|c w IH]; simpl.
  - destruct rest as [|c r]; simpl in *; [done|]. by rewrite Hrest.
  - simpl in Hw. apply andb_prop in Hw as [Hc Hw].
    destruct (is_space c); [done|]. simpl. rewrite Hc. by apply IH.
Qed.

Lemma interface_of_line_header name rest :
  name <> EmptyString ->
  all_chars not_space name = true ->
  starts_blank rest = true ->
  interface_of_line (String.append name (String ":" rest)) = Some name.
Proof.
  intros Hne Hname Hrest. unfold interface_of_line.
  replace (String.append name (String ":" rest))
    with (String.append (String.append name ":") rest)
    by (rewrite append_assoc; done).
  rewrite nonspace_prefix_app; [|by rewrite all_chars_app, Hname|done].
  destruct name as [|c name]; [done|]. simpl.
  by rewrite before_last_colon_app_colon.
Qed.

Lemma interface_of_line_no_colon word rest :
  all_chars not_colon word = true ->
  starts_blank rest = true ->
  interface_of_line (String.append word rest) = None.
Proof.
  intros Hword Hrest. unfold interface_of_line.
  pose proof (nonspace_prefix_no_colon _ _ Hword Hrest) as Hall.
  destruct (nonspace_prefix (String.append word rest)) as [|c w]; [done|].
  simpl in Hall. apply andb_prop in Hall as [_ Hw].
  by rewrite before_last_colon_none.
Qed.

(** X15: a line that starts with a name without whitespace, a colon, and
    then whitespace or nothing gives that name, unless it is "lo"; a line
    whose first word holds no colon, an indented line among them, gives
    nothing. *)
Theorem get_interfaces_one_line :
  (forall name rest,
     name <> EmptyString ->
     all_chars not_space name = true ->
     starts_blank rest = true ->
     all_chars not_newline rest = true ->
     get_interfaces (String.append name (String ":" rest))
     = if String.eqb name "lo" then [] else [name]) /\
  (forall word rest,
     all_chars not_colon word = true ->
     starts_blank rest = true ->
     all_chars not_newline (String.append word rest) = true ->
     get_interfaces (String.append word rest) = []).
Proof.
  split.
  - intros name rest Hne Hname Hrest Hnl.
    unfold get_interfaces, findall_interfaces.
    rewrite split_on_single.
    + simpl. rewrite interface_of_line_header by done. simpl.
      by destruct (String.eqb name "lo").
    + rewrite all_chars_app. simpl. rewrite Hnl.
      rewrite (all_chars_impl _ _ _ not_space_not_newline Hname). done.
  - intros word rest Hword Hrest Hnl.
    unfold get_interfaces, findall_interfaces.
    rewrite split_on_single by done. simpl.
    by rewrite interface_of_line_no_colon.
Qed.

(** *** [get_mac_from_ifconfig]: the search *)

Lemma take_mac_chars_spec n s m :
  take_mac_chars n s = Some m ->
  String.length m = n /\ all_chars is_mac_char m = true /\
  exists post, s = String.append m post.
Proof.
  revert s m. induction n as [|n IH]; intros s m; simpl.
  - intros [= <-]. split_and!; [done..|]. by exists s.
  - destruct s as [|c s]; [done|].
    destruct (is_mac_char c) eqn:Hc; [|done].
    destruct (take_mac_chars n s) as [m'|] eqn:Hm; [|done].
    intros [= <-]. destruct (IH _ _ Hm) as (Hlen & Hall & post & ->).
    simpl. rewrite Hc, Hlen. split_and!; [done..|]. by exists post.
Qed.

Lemma skip_spaces_spec s :
  exists ws, s = String.append ws (skip_spaces s) /\
             all_chars is_space ws = true.
Proof.
  induction s as [|c s (ws & Hws & Hall)]; simpl.
  - by exists EmptyString.
  - destruct (is_space c) eqn:Hc.
    + exists (String c ws). simpl. rewrite Hc. split; [by f_equal|done].
    + by exists EmptyString.
Qed.

Lemma prefix_drop k s :
  String.prefix k s = true ->
  s = String.append k (drop_chars (String.length k) s).
Proof.
  revert s. induction k as [|c k IH]; intros s.
  - intros _. by destruct s.
  - destruct s as [|d s]; [done|]. simpl.
    destruct (ascii_dec c d) as [->|]; [|done].
    intros Hp. f_equal. by apply IH.
Qed.

Lemma match_mac_here_spec s mac :
  match_mac_here s = Some mac ->
  String.length mac = 17 /\ all_chars is_mac_char mac = true /\
  exists key ws post,
    is_keyword key /\ all_chars is_space ws = true /\
    s = String.append key (String.append ws (String.append mac post)).
Proof.
  unfold match_mac_here. intros Hm.
  destruct (String.prefix "ether" s) eqn:He;
    [|destruct (String.prefix "HWaddr" s) eqn:Hh; [|done]].
  - destruct (take_mac_chars_spec _ _ _ Hm) as (Hlen & Hall & post & Hpost).
    destruct (skip_spaces_spec (drop_chars 5 s)) as (ws & Hws & Hsp).
    split_and!; [done..|]. exists "ether"%string, ws, post.
    split_and!; [by left|done|].
    rewrite <- Hpost, <- Hws. by apply (prefix_drop "ether").
  - destruct (take_mac_chars_spec _ _ _ Hm) as (Hlen & Hall & post & Hpost).
    destruct (skip_spaces_spec (drop_chars 6 s)) as (ws & Hws & Hsp).
    split_and!; [done..|]. exists "HWaddr"%string, ws, post.
    split_and!; [by right|done|].
    rewrite <- Hpost, <- Hws. by apply (prefix_drop "HWaddr").
Qed.

(** X16: what [get_mac_from_ifconfig] takes from the output is seventeen
    characters out of [[0-9a-fA-F:]] that follow "ether" or "HWaddr" and
    whitespace in the output. *)
Theorem search_mac_sound output mac :
  search_mac output = Some mac ->
  String.length mac = 17 /\ all_chars is_mac_char mac = true /\
  exists pre key ws post,
    is_keyword key /\ all_chars is_space ws = true /\
    output = String.append pre
               (String.append key (String.append ws (String.append mac post))).
Proof.
  induction output as [|c output IH].
  - simpl. done.
  - cbn [search_mac].
    destruct (match_mac_here (String c output)) as [m|] eqn:Hm.
    + intros [= ->].
      destruct (match_mac_here_spec _ _ Hm)
        as (Hlen & Hall & key & ws & post & Hkey & Hws & Hs).
      split_and!; [done..|]. by exists EmptyString, key, ws, post.
    + intros Hrec.
      destruct (IH Hrec) as (Hlen & Hall & pre & key & ws & post & Hkey & Hws & ->).
      split_and!; [done..|]. by exists (String c pre), key, ws, post.
Qed.

Lemma mac_char_not_space c : is_mac_char c = true -> is_space c = false.
Proof.
  intros Hc.
  pose proof (ascii_forall (fun c => implb (is_mac_char c) (negb (is_space c)))
                ltac:(vm_compute; reflexivity) c) as H.
  cbv beta in H. rewrite Hc in H. simpl in H. by apply negb_true_iff.
Qed.

Lemma take_mac_chars_app m post :
  all_chars is_mac_char m = true ->
  take_mac_chars (String.length m) (String.append m post) = Some m.
Proof.
  induction m as [|c m IH]; simpl; [done|].
  intros [Hc Hm]%andb_prop. rewrite Hc. by rewrite (IH Hm).
Qed.

Lemma skip_spaces_app ws s :
  all_chars is_space ws = true -> starts_blank s = false ->
  skip_spaces (String.append ws s) = s.
Proof.
  intros Hws Hs. induction ws as [|c ws IH]; simpl.
  - destruct s as [|d s]; simpl in *; [done|]. by rewrite Hs.
  - simpl in Hws. apply andb_prop in Hws as [Hc Hws]. rewrite Hc. by apply IH.
Qed.

Lemma prefix_app k s : String.prefix k (String.append k s) = true.
Proof.
  induction k as [|c k IH]; simpl; [by destruct s|].
  by destruct (ascii_dec c c).
Qed.

Lemma drop_chars_app k s :
  drop_chars (String.length k) (String.append k s) = s.
Proof. induction k as [|c k IH]; simpl; [by destruct s|done]. Qed.

Lemma match_mac_here_app key ws mac post :
  is_keyword key ->
  all_chars is_space ws = true ->
  String.length mac = 17 ->
  all_chars is_mac_char mac = true ->
  match_mac_here
    (String.append key (String.append ws (String.append mac post)))
  = Some mac.
Proof.
  intros Hkey Hws Hlen Hmac.
  assert (starts_blank (String.append mac post) = false) as Hstart.
  { destruct mac as [|c mac]; [done|]. simpl in *.
    apply andb_prop in Hmac as [Hc _]. by apply mac_char_not_space. }
  unfold match_mac_here.
  destruct Hkey as [-> | ->].
  - rewrite prefix_app.
    rewrite (drop_chars_app "ether"), skip_spaces_app by done.
    rewrite <- Hlen. by apply take_mac_chars_app.
  - replace (String.prefix "ether" _) with false
      by (simpl; by destruct (ascii_dec "e" "H")).
    rewrite prefix_app.
    rewrite (drop_chars_app "HWaddr"), skip_spaces_app by done.
    rewrite <- Hlen. by apply take_mac_chars_app.
Qed.

Lemma search_mac_at_start s mac :
  match_mac_here s = Some mac -> search_mac s = Some mac.
Proof. intros Hs. destruct s; cbn [search_mac]; by rewrite Hs. Qed.

(** X17: when the output holds "ether" or "HWaddr", whitespace and
    seventeen characters out of [[0-9a-fA-F:]], the search finds an
    address. *)
Theorem search_mac_complete pre key ws mac post :
  is_keyword key ->
  all_chars is_space ws = true ->
  String.length mac = 17 ->
  all_chars is_mac_char mac = true ->
  exists found,
    search_mac
      (String.append pre
         (String.append key (String.append ws (String.append mac post))))
    = Some found.
Proof.
  intros Hkey Hws Hlen Hmac.
  pose proof (match_mac_here_app key ws mac post Hkey Hws Hlen Hmac) as Hhere.
  induction pre as [|c pre (found & IH)].
  - exists mac. by apply search_mac_at_start.
  - cbn [String.append search_mac].
    destruct (match_mac_here (String c _)) as [m|]; [by exists m|].
    exists found. exact IH.
Qed.

Lemma valid_mac_chars mac :
  is_valid_mac mac = true -> String.length mac = 17 ->
  all_chars is_mac_char mac = true.
Proof.
  intros Hv Hlen.
  destruct (valid_mac_body mac Hv) as (body & Htake & Hbody & Hmac & _).
  destruct (take_mac_chars_spec _ _ _ Htake) as (_ & Hall & _).
  destruct Hmac as [->| ->]; [done|].
  rewrite append_length in Hlen. simpl in Hlen. lia.
Qed.

(** X18: a valid address of seventeen characters that the output shows
    after "ether" or "HWaddr" and whitespace, at its start, is read back
    as it stands. *)
Theorem search_mac_reads_valid_mac key ws mac post :
  is_keyword key ->
  all_chars is_space ws = true ->
  is_valid_mac mac = true ->
  String.length mac = 17 ->
  search_mac (String.append key (String.append ws (String.append mac post)))
  = Some mac.
Proof.
  intros Hkey Hws Hvalid Hlen.
  apply search_mac_at_start, match_mac_here_app; try done.
  by apply valid_mac_chars.
Qed.

(** ** The procedures *)

(** *** Runs of procedures put together *)

Lemma interp_bind {A B} w (p : Prog A) (f : A -> Prog B) h :
  interp w (p ≫= f) h
  = match interp w p h with
    | (t1, Returns a) =>
      let '(t2, r) := interp w (f a) (h ++ t1) in (t1 ++ t2, r)
    | (t1, Raises e) => (t1, Raises e)
    end.
Proof.
  change (p ≫= f) with (bind p f).
  revert h. induction p as [a|e|C op k IH]; intros h; simpl.
  - rewrite app_nil_r. by destruct (interp w (f a) h).
  - done.
  - rewrite IH. destruct (interp w (k (w C h op)) _) as [t1 [a|e]]; [|done].
    rewrite <- app_assoc. simpl.
    by destruct (interp w (f a) _).
Qed.

Lemma interp_try_except {A} w (body : Prog A) cls handler h :
  interp w (try_except body cls handler) h
  = match interp w body h with
    | (t1, Returns a) => (t1, Returns a)
    | (t1, Raises e) =>
      if catches cls e
      then let '(t2, r) := interp w (handler e) (h ++ t1) in (t1 ++ t2, r)
      else (t1, Raises e)
    end.
Proof.
  revert h. induction body as [a|e|C op k IH]; intros h; simpl.
  - done.
  - rewrite app_nil_r.
    destruct (catches cls e); [by destruct (interp w (handler e) h)|done].
  - rewrite IH. destruct (interp w (k (w C h op)) _) as [t1 [a|e]]; [done|].
    destruct (catches cls e); [|done].
    rewrite <- app_assoc. simpl. by destruct (interp w (handler e) _).
Qed.

Lemma performs_interp {A} allowed (p : Prog A) w h :
  performs allowed p ->
  forallb (event_ok allowed) (interp w p h).1 = true.
Proof.
  revert h. induction p as [a|e|C op k IH]; intros h Hp; simpl; [done..|].
  destruct Hp as [Hop Hk].
  specialize (IH (w C h op) (h ++ [Ev op (w C h op)]) (Hk _)).
  destruct (interp w (k (w C h op)) _) as [t r]. simpl in *.
  by rewrite Hop, IH.
Qed.

Lemma performs_bind {A B} allowed (p : Prog A) (f : A -> Prog B) :
  performs allowed p -> (forall a, performs allowed (f a)) ->
  performs allowed (p ≫= f).
Proof.
  change (p ≫= f) with (bind p f).
  intros Hp Hf. induction p as [a|e|C op k IH]; simpl; [done..|].
  destruct Hp as [Hop Hk]. split; [done|]. intros r. by apply IH.
Qed.

Lemma performs_try_except {A} allowed (body : Prog A) cls handler :
  performs allowed body -> (forall e, performs allowed (handler e)) ->
  performs allowed (try_except body cls handler).
Proof.
  intros Hp Hh. induction body as [a|e|C op k IH]; simpl; [done| |].
  - by destruct (catches cls e).
  - destruct Hp as [Hop Hk]. split; [done|]. intros r. by apply IH.
Qed.

Lemma performs_call {B} allowed (op : Op B) :
  allowed _ op = true -> performs allowed (call op).
Proof. intros Hop. split; [done|]. by intros [b|e]. Qed.

Lemma performs_for_each {A} allowed (l : list A) body :
  (forall x, performs allowed (body x)) ->
  performs allowed (for_each l body).
Proof.
  intros Hb. induction l as [|x l IH]; simpl; [done|].
  apply performs_bind; [done|]. by intros _.
Qed.

Lemma performs_when allowed b p :
  performs allowed p -> performs allowed (when b p).
Proof. by destruct b. Qed.

Lemma performs_weaken {A} (strict allowed : forall B, Op B -> bool) (p : Prog A) :
  (forall B (op : Op B), strict B op = true -> allowed B op = true) ->
  performs strict p -> performs allowed p.
Proof.
  intros Hsub. induction p as [a|e|C op k IH]; simpl; [done..|].
  intros [Hop Hk]. split; [by apply Hsub|]. intros r. by apply IH.
Qed.

Ltac performs_tac :=
  repeat first
    [ done
    | apply performs_bind
    | apply performs_try_except
    | apply performs_call
    | apply performs_for_each
    | apply performs_when
    | intros ?
    | case_match ].

Lemma print_colored_io_harmless message level :
  performs harmless (print_colored_io message level).
Proof. by apply performs_call. Qed.

Lemma get_ifconfig_output_harmless : performs harmless get_ifconfig_output.
Proof. unfold get_ifconfig_output. performs_tac. Qed.

Lemma get_interface_block_harmless interface :
  performs harmless (get_interface_block interface).
Proof. unfold get_interface_block. performs_tac. Qed.

Lemma get_mac_from_ifconfig_harmless interface :
  performs harmless (get_mac_from_ifconfig interface).
Proof.
  unfold get_mac_from_ifconfig.
  apply performs_bind; [apply get_interface_block_harmless|done].
Qed.

Lemma get_interface_status_harmless interface :
  performs harmless (get_interface_status interface).
Proof.
  unfold get_interface_status.
  apply performs_bind; [apply get_interface_block_harmless|done].
Qed.

Lemma load_original_mac_harmless interface :
  performs harmless (load_original_mac interface).
Proof.
  unfold load_original_mac. performs_tac; apply print_colored_io_harmless.
Qed.

Lemma list_interfaces_harmless : performs harmless list_interfaces.
Proof.
  unfold list_interfaces.
  apply performs_bind; [apply get_ifconfig_output_harmless|].
  intros out. destruct (get_interfaces out) as [|i l] eqn:E.
  - apply print_colored_io_harmless.
  - apply performs_for_each. intros x.
    apply performs_bind; [apply get_mac_from_ifconfig_harmless|]. intros mac.
    apply performs_bind; [apply get_interface_status_harmless|]. intros st.
    apply print_colored_io_harmless.
Qed.

Lemma save_original_mac_no_command interface mac force :
  performs no_command (save_original_mac interface mac force).
Proof. unfold save_original_mac, log_action, print_colored_io. performs_tac. Qed.

(** *** What the parts of a run did *)

Lemma commands_app t1 t2 : commands (t1 ++ t2) = commands t1 ++ commands t2.
Proof. apply omap_app. Qed.

Lemma check_calls_app t1 t2 :
  check_calls (t1 ++ t2) = check_calls t1 ++ check_calls t2.
Proof. apply omap_app. Qed.

Lemma completed_app t1 t2 : completed (t1 ++ t2) = completed t1 ++ completed t2.
Proof. apply omap_app. Qed.

Lemma written_app t1 t2 : written (t1 ++ t2) = written t1 ++ written t2.
Proof. apply omap_app. Qed.

Lemma procedures_app t1 t2 :
  procedures (t1 ++ t2) = procedures t1 ++ procedures t2.
Proof. apply omap_app. Qed.

Lemma printed_app t1 t2 : printed (t1 ++ t2) = printed t1 ++ printed t2.
Proof. apply omap_app. Qed.

Lemma no_command_trace t :
  forallb (event_ok no_command) t = true ->
  commands t = [] /\ check_calls t = [] /\ completed t = [].
Proof.
  induction t as [|[B op r] t IH]; simpl; [done|].
  intros [Hop Ht]%andb_prop. destruct (IH Ht) as (IH1 & IH2 & IH3).
  unfold commands, check_calls, completed in *. simpl. rewrite IH1, IH2, IH3.
  destruct op; try done; by destruct r.
Qed.

Lemma harmless_trace t :
  forallb (event_ok harmless) t = true ->
  check_calls t = [] /\ completed t = [] /\ written t = [] /\
  procedures t = [] /\ forallb is_ifconfig (commands t) = true.
Proof.
  induction t as [|[B op r] t IH]; simpl; [done|].
  intros [Hop Ht]%andb_prop. destruct (IH Ht) as (IH1 & IH2 & IH3 & IH4 & IH5).
  unfold commands, check_calls, completed, written, procedures in *. simpl.
  rewrite IH1, IH2, IH3, IH4.
  destruct op; try done; try (by destruct r).
  simpl in *. rewrite Hop, IH5. by destruct r.
Qed.

Lemma harmless_run {A} (p : Prog A) w h :
  performs harmless p ->
  check_calls (interp w p h).1 = [] /\ completed (interp w p h).1 = [] /\
  written (interp w p h).1 = [] /\ procedures (interp w p h).1 = [] /\
  forallb is_ifconfig (commands (interp w p h).1) = true.
Proof. intros Hp. by apply harmless_trace, performs_interp. Qed.

Lemma no_command_run {A} (p : Prog A) w h :
  performs no_command p ->
  commands (interp w p h).1 = [] /\ check_calls (interp w p h).1 = [] /\
  completed (interp w p h).1 = [].
Proof. intros Hp. by apply no_command_trace, performs_interp. Qed.

Lemma print_colored_io_no_command message level :
  performs no_command (print_colored_io message level).
Proof. by apply performs_call. Qed.

(** *** [change_mac] and [restore_mac] *)

(** Case analysis on the next answer of the system. *)

Ltac answer w :=
  match goal with
  | |- context [w ?B ?h ?op] =>
    lazymatch h with
    | context [w _ _ _] => fail
    | _ =>
      let E := fresh "E" in
      let a := fresh "a" in
      destruct (w B h op) as [a|[[] ?]] eqn:E;
      [try (match type of a with
            | unit => destruct a
            | bool => destruct a
            end)|..]
    end
  end.

Lemma get_mac_from_ifconfig_commands w h interface :
  commands (interp w (get_mac_from_ifconfig interface) h).1
  = [ifconfig_of interface].
Proof.
  unfold get_mac_from_ifconfig, get_interface_block. simpl.
  by answer w.
Qed.

(** [log_action] writes its one line and starts nothing. *)
Lemma log_action_spec w h message :
  let t := (interp w (log_action message) h).1 in
  commands t = [] /\ check_calls t = [] /\ completed t = [] /\
  written t = [Log_line message] /\ procedures t = [].
Proof.
  unfold log_action. simpl.
  repeat (answer w; simpl). all: by split_and!.
Qed.

Lemma set_hw_ether_spec w h interface mac verb verbose :
  let t := (interp w (set_hw_ether interface mac verb verbose) h).1 in
  let r := (interp w (set_hw_ether interface mac verb verbose) h).2 in
  written t = [] /\ procedures t = [] /\
  commands t = check_calls t /\
  check_calls t `prefix_of` hw_commands interface mac /\
  one_at_a_time t /\
  (r = Returns tt ->
   completed t = hw_commands interface mac /\
   check_calls t = hw_commands interface mac).
Proof.
  unfold set_hw_ether, hw_commands, one_at_a_time, when, print_colored_io.
  destruct verbose; simpl.
  - repeat (answer w; simpl).
    all: split_and!; try done.
    all: try (by eexists).
    all: try (by left).
    all: try (right; by eexists).
  - repeat (answer w; simpl).
    all: split_and!; try done.
    all: try (by eexists).
    all: try (by left).
    all: try (right; by eexists).
Qed.

Lemma command_failed_harmless what e : performs harmless (command_failed what e).
Proof.
  unfold command_failed. apply performs_bind; [|done].
  case_match; apply print_colored_io_harmless.
Qed.

Lemma command_failed_no_command what e :
  performs no_command (command_failed what e).
Proof.
  unfold command_failed. apply performs_bind; [|done].
  case_match; apply print_colored_io_no_command.
Qed.

Lemma command_failed_false w h what e :
  (interp w (command_failed what e) h).2 <> Returns true.
Proof.
  unfold command_failed. rewrite interp_bind.
  destruct (interp w _ h) as [? [[]|?]]; cbn [interp fst snd]; done.
Qed.

Lemma one_at_a_time_nil t :
  check_calls t = [] -> completed t = [] -> one_at_a_time t.
Proof. intros H1 H2. left. by rewrite H1, H2. Qed.

Lemma one_at_a_time_app_r t1 t2 :
  one_at_a_time t1 -> check_calls t2 = [] -> completed t2 = [] ->
  one_at_a_time (t1 ++ t2).
Proof.
  unfold one_at_a_time. rewrite check_calls_app, completed_app.
  intros H1 -> ->. by rewrite !app_nil_r.
Qed.

Lemma one_at_a_time_app_l t1 t2 :
  check_calls t1 = [] -> completed t1 = [] -> one_at_a_time t2 ->
  one_at_a_time (t1 ++ t2).
Proof.
  unfold one_at_a_time. rewrite check_calls_app, completed_app.
  by intros -> ->.
Qed.

(** The [try] statement of lines 183-199 and 216-232. *)
Lemma guarded_spec w h interface mac verb verbose message what :
  let p := try_except
             (set_hw_ether interface mac verb verbose;;
              log_action message;; Return true)
             CalledProcessError (command_failed what) in
  let t := (interp w p h).1 in
  let r := (interp w p h).2 in
  procedures t = [] /\
  commands t = check_calls t /\
  check_calls t `prefix_of` hw_commands interface mac /\
  one_at_a_time t /\
  (r = Returns true ->
   completed t = hw_commands interface mac /\
   check_calls t = hw_commands interface mac) /\
  (written t = [] \/
   written t = [Log_line message] /\ completed t = hw_commands interface mac).
Proof.
  intros p t r. subst p t r.
  rewrite interp_try_except, interp_bind.
  pose proof (set_hw_ether_spec w h interface mac verb verbose)
    as (Hw1 & Hp1 & Hk1 & Hc1 & Ho1 & Hr1).
  destruct (interp w (set_hw_ether interface mac verb verbose) h)
    as [t1 [[]|e1]] eqn:E1; cbn [fst snd] in *.
  - destruct (Hr1 eq_refl) as [Hd1 Hf1].
    rewrite interp_bind.
    pose proof (log_action_spec w (h ++ t1) message)
      as (Hc2 & Hk2 & Hd2 & Hw2 & Hp2).
    destruct (interp w (log_action message) (h ++ t1)) as [t2 [[]|e2]] eqn:E2;
      cbn [fst snd] in *.
    + cbn [interp fst snd]. rewrite app_nil_r.
      rewrite written_app, procedures_app, commands_app, check_calls_app,
        completed_app.
      rewrite Hw1, Hp1, Hc2, Hk2, Hd2, Hw2, Hp2, !app_nil_r.
      split_and!; try done.
      * by apply one_at_a_time_app_r.
      * by right.
    + pose proof (no_command_run (command_failed what e2) w (h ++ t1 ++ t2)
                    (command_failed_no_command _ _)) as (Hc3 & Hk3 & Hd3).
      pose proof (harmless_run (command_failed what e2) w (h ++ t1 ++ t2)
                    (command_failed_harmless _ _)) as (_ & _ & Hw3 & Hp3 & _).
      pose proof (command_failed_false w (h ++ t1 ++ t2) what e2) as Hf3.
      destruct (catches CalledProcessError e2).
      * destruct (interp w (command_failed what e2) (h ++ t1 ++ t2))
          as [t3 r3] eqn:E3; cbn [fst snd] in *.
        rewrite !written_app, !procedures_app, !commands_app, !check_calls_app,
          !completed_app.
        rewrite Hw1, Hp1, Hc2, Hk2, Hd2, Hw2, Hp2, Hc3, Hk3, Hd3, Hw3, Hp3,
          !app_nil_r.
        split_and!; try done.
        -- do 2 (apply one_at_a_time_app_r; try done).
        -- by right.
      * cbn [fst snd].
        rewrite !written_app, !procedures_app, !commands_app, !check_calls_app,
          !completed_app.
        rewrite Hw1, Hp1, Hc2, Hk2, Hd2, Hw2, Hp2, !app_nil_r.
        split_and!; try done.
        -- by apply one_at_a_time_app_r.
        -- by right.
  - pose proof (no_command_run (command_failed what e1) w (h ++ t1)
                  (command_failed_no_command _ _)) as (Hc3 & Hk3 & Hd3).
    pose proof (harmless_run (command_failed what e1) w (h ++ t1)
                  (command_failed_harmless _ _)) as (_ & _ & Hw3 & Hp3 & _).
    pose proof (command_failed_false w (h ++ t1) what e1) as Hf3.
    destruct (catches CalledProcessError e1).
    + destruct (interp w (command_failed what e1) (h ++ t1))
        as [t3 r3] eqn:E3; cbn [fst snd] in *.
      rewrite !written_app, !procedures_app, !commands_app, !check_calls_app,
        !completed_app.
      rewrite Hw1, Hp1, Hc3, Hk3, Hd3, Hw3, Hp3, !app_nil_r.
      split_and!; try done.
      * by apply one_at_a_time_app_r.
      * by left.
    + cbn [fst snd]. split_and!; try done. by left.
Qed.

Lemma prefix_of_nil {A} (l : list A) : [] `prefix_of` l.
Proof. by exists l. Qed.

Lemma announce_old_no_command interface old_mac force :
  performs no_command (announce_old interface old_mac force).
Proof.
  unfold announce_old. case_match.
  - apply performs_bind; [by apply performs_call|]. intros _.
    apply save_original_mac_no_command.
  - by apply performs_call.
Qed.

Lemma check_new_harmless interface new_mac :
  performs harmless (check_new interface new_mac).
Proof.
  unfold check_new.
  apply performs_bind; [apply get_mac_from_ifconfig_harmless|]. intros mac.
  case_match; [|apply print_colored_io_harmless].
  apply performs_bind; [apply print_colored_io_harmless|]. intros _.
  case_match; apply print_colored_io_harmless.
Qed.

(** What follows the reading of the address, in both procedures: lines
    that are printed. *)
Lemma read_back_commands {A} w h interface (f : option string -> Prog A) :
  (forall mac, performs no_command (f mac)) ->
  commands (interp w (get_mac_from_ifconfig interface ≫= f) h).1
  = [ifconfig_of interface].
Proof.
  intros Hf. rewrite interp_bind.
  pose proof (get_mac_from_ifconfig_commands w h interface) as Hc1.
  destruct (interp w (get_mac_from_ifconfig interface) h) as [t1 [mac|e1]];
    cbn [fst snd] in *; [|done].
  pose proof (no_command_run _ w (h ++ t1) (Hf mac)) as (Hc2 & _).
  destruct (interp w (f mac) (h ++ t1)) as [t2 r2]. cbn [fst snd] in *.
  by rewrite commands_app, Hc1, Hc2.
Qed.

Lemma check_new_commands w h interface new_mac :
  commands (interp w (check_new interface new_mac) h).1
  = [ifconfig_of interface].
Proof.
  unfold check_new. apply read_back_commands. intros mac.
  case_match; [|apply print_colored_io_no_command].
  apply performs_bind; [apply print_colored_io_no_command|]. intros _.
  case_match; apply print_colored_io_no_command.
Qed.

(** Lines 177-208. *)
Lemma apply_new_spec w h interface new_mac old_mac verbose :
  let t := (interp w (apply_new interface new_mac old_mac verbose) h).1 in
  procedures t = [] /\
  commands t `prefix_of` hw_commands interface new_mac ++ [ifconfig_of interface] /\
  check_calls t `prefix_of` hw_commands interface new_mac /\
  one_at_a_time t /\
  (is_valid_mac new_mac = false -> commands t = []) /\
  (is_set old_mac && String.eqb (lower (value old_mac)) (lower new_mac) = true ->
   commands t = []) /\
  (written t = [] \/
   written t = [Log_line (changed_message interface old_mac new_mac)] /\
   completed t = hw_commands interface new_mac).
Proof.
  intros t. subst t. unfold apply_new.
  assert (forall message level,
            let t := (interp w (print_colored_io message level) h).1 in
            procedures t = [] /\
            commands t `prefix_of`
              hw_commands interface new_mac ++ [ifconfig_of interface] /\
            check_calls t `prefix_of` hw_commands interface new_mac /\
            one_at_a_time t /\ commands t = [] /\ written t = []) as Hprint.
  { intros message level.
    pose proof (no_command_run _ w h (print_colored_io_no_command message level))
      as (Hc & Hk & Hd).
    pose proof (harmless_run _ w h (print_colored_io_harmless message level))
      as (_ & _ & Hw & Hp & _).
    cbn zeta. rewrite Hc, Hk, Hw, Hp.
    split_and!; try done; try apply prefix_of_nil. by apply one_at_a_time_nil. }
  destruct (is_valid_mac new_mac) eqn:Hvalid; cbn [negb].
  2:{ destruct (Hprint (String.append "Invalid MAC address format: " new_mac)
                       "error"%string) as (?&?&?&?&?&?).
      split_and!; try done. by left. }
  destruct (is_set old_mac && String.eqb (lower (value old_mac)) (lower new_mac))
    eqn:Hsame.
  { match goal with |- context [interp w (print_colored_io ?m ?l) h] =>
      destruct (Hprint m l) as (?&?&?&?&?&?) end.
    split_and!; try done. by left. }
  rewrite interp_bind.
  pose proof (guarded_spec w h interface new_mac "Changing" verbose
                (changed_message interface old_mac new_mac) "change")
    as (Hp3 & Hk3 & Hc3 & Ho3 & Hr3 & Hw3).
  unfold changed_message in Hp3, Hk3, Hc3, Ho3, Hr3, Hw3. cbn zeta in *.
  match goal with |- context [interp w (try_except ?body ?cls ?hd) h] =>
    destruct (interp w (try_except body cls hd) h) as [t3 r3] eqn:E3
  end.
  cbn [fst snd] in *.
  destruct r3 as [changed|e3]; cbn [fst snd].
  2:{ split_and!; try done. rewrite Hk3. by apply prefix_app_r. }
  destruct changed; cbn [negb].
  - destruct (Hr3 eq_refl) as [Hd3 Hf3].
    pose proof (check_new_commands w (h ++ t3) interface new_mac) as Hc4.
    pose proof (harmless_run _ w (h ++ t3) (check_new_harmless interface new_mac))
      as (Hk4 & Hd4 & Hw4 & Hp4 & _).
    destruct (interp w (check_new interface new_mac) (h ++ t3)) as [t4 r4].
    cbn [fst snd] in *.
    rewrite procedures_app, commands_app, check_calls_app, written_app,
      completed_app, Hp3, Hp4, Hk4, Hd4, Hw4, Hc4, Hk3, Hf3, !app_nil_r.
    split_and!; try done.
    by apply one_at_a_time_app_r.
  - cbn [interp fst snd]. rewrite app_nil_r.
    split_and!; try done. rewrite Hk3. by apply prefix_app_r.
Qed.

Lemma save_original_mac_spec w h interface mac force_overwrite :
  let t := (interp w (save_original_mac interface mac force_overwrite) h).1 in
  procedures t = [] /\
  (written t = [] \/
   exists path,
     In (Ev (get_mac_savefile interface) (Returns path)) t /\
     (force_overwrite = false -> In (Ev (path_exists path) (Returns false)) t) /\
     (written t = [Save_file path mac] \/
      written t = [Save_file path mac; Log_line (saved_message interface mac)])).
Proof.
  unfold save_original_mac, log_action, print_colored_io.
  destruct force_overwrite; simpl.
  - repeat (answer w; simpl).
    all: split; [done|].
    all: first [by left|right; eexists; split_and!;
                  [by left|done|first [by left|by right]]].
  - repeat (answer w; simpl).
    all: split; [done|].
    all: first [by left|right; eexists; split_and!;
                  [by left|intros _; right; by left|first [by left|by right]]].
Qed.

Lemma announce_old_spec w h interface old_mac force_overwrite :
  let t := (interp w (announce_old interface old_mac force_overwrite) h).1 in
  procedures t = [] /\
  (written t = [] \/
   exists path mac,
     old_mac = Some mac /\
     In (Ev (get_mac_savefile interface) (Returns path)) t /\
     (force_overwrite = false -> In (Ev (path_exists path) (Returns false)) t) /\
     (written t = [Save_file path mac] \/
      written t = [Save_file path mac; Log_line (saved_message interface mac)])).
Proof.
  unfold announce_old. destruct old_mac as [old|]; cbn [is_set].
  2:{ pose proof (harmless_run _ w h
                    (print_colored_io_harmless
                       "Could not read the current MAC address." "error"))
        as (_ & _ & Hw & Hp & _).
      cbn zeta. rewrite Hw, Hp. split; [done|by left]. }
  destruct (truthy old).
  2:{ pose proof (harmless_run _ w h
                    (print_colored_io_harmless
                       "Could not read the current MAC address." "error"))
        as (_ & _ & Hw & Hp & _).
      cbn zeta. rewrite Hw, Hp. split; [done|by left]. }
  cbn zeta. rewrite interp_bind.
  pose proof (harmless_run _ w h
                (print_colored_io_harmless
                   (String.append "Old MAC address: " (fmt (Some old))) "warning"))
    as (_ & _ & Hw1 & Hp1 & _).
  destruct (interp w (print_colored_io _ "warning") h) as [t1 [[]|e1]];
    cbn [fst snd] in *.
  2:{ rewrite Hw1, Hp1. split; [done|by left]. }
  pose proof (save_original_mac_spec w (h ++ t1) interface old force_overwrite)
    as (Hp2 & Hw2).
  cbn [value] in *.
  destruct (interp w (save_original_mac interface old force_overwrite) (h ++ t1))
    as [t2 r2]; cbn [fst snd] in *.
  rewrite procedures_app, written_app, Hw1, Hp1, Hp2. cbn [app].
  split; [done|].
  destruct Hw2 as [Hw2|(path & Hs & He & Hw2)]; [by left|].
  right. exists path, old. split_and!; [done|apply in_or_app; by right| |done].
  intros Hf. apply in_or_app. right. by apply He.
Qed.

Lemma change_mac_parts interface new_mac verbose force_overwrite :
  change_mac interface new_mac verbose force_overwrite
  = (old_mac ← get_mac_from_ifconfig interface;
     announce_old interface old_mac force_overwrite;;
     apply_new interface new_mac old_mac verbose).
Proof. reflexivity. Qed.

(** X23: whatever the system answers, [change_mac] first runs
    [ifconfig interface] (line 171); the processes it starts after that
    are the first ones of: interface down, set the address [new_mac],
    interface up, all three through [sudo] and [check_call], and
    [ifconfig interface] again (line 200).  Each of the three is started
    only after the one before it returned.  When [new_mac] is not valid,
    and when the address read at the start equals [new_mac] up to case,
    the [ifconfig interface] of line 171 is the only process. *)
Theorem change_mac_commands w h interface new_mac verbose force_overwrite :
  let t := (interp w (change_mac interface new_mac verbose force_overwrite) h).1 in
  (exists rest,
     commands t = ifconfig_of interface :: rest /\
     rest `prefix_of` hw_commands interface new_mac ++ [ifconfig_of interface]) /\
  check_calls t `prefix_of` hw_commands interface new_mac /\
  one_at_a_time t /\
  (is_valid_mac new_mac = false -> commands t = [ifconfig_of interface]) /\
  (forall old_mac,
     (interp w (get_mac_from_ifconfig interface) h).2 = Returns (Some old_mac) ->
     lower old_mac = lower new_mac -> commands t = [ifconfig_of interface]).
Proof.
  intros t. subst t. rewrite change_mac_parts, interp_bind.
  pose proof (get_mac_from_ifconfig_commands w h interface) as Hc1.
  pose proof (harmless_run _ w h (get_mac_from_ifconfig_harmless interface))
    as (Hk1 & Hd1 & _).
  destruct (interp w (get_mac_from_ifconfig interface) h) as [t1 [old|e1]] eqn:E1;
    cbn [fst snd] in *.
  2:{ rewrite Hc1, Hk1. split_and!; try done.
      - exists []. split; [done|apply prefix_of_nil].
      - apply prefix_of_nil.
      - by apply one_at_a_time_nil. }
  rewrite interp_bind.
  pose proof (no_command_run _ w (h ++ t1)
                (announce_old_no_command interface old force_overwrite))
    as (Hc2 & Hk2 & Hd2).
  destruct (interp w (announce_old interface old force_overwrite) (h ++ t1))
    as [t2 [[]|e2]] eqn:E2; cbn [fst snd] in *.
  2:{ rewrite commands_app, check_calls_app, Hc1, Hc2, Hk1, Hk2.
      split_and!; try done.
      - exists []. split; [done|apply prefix_of_nil].
      - apply prefix_of_nil.
      - apply one_at_a_time_app_l; try done. by apply one_at_a_time_nil. }
  pose proof (apply_new_spec w ((h ++ t1) ++ t2) interface new_mac old verbose)
    as (_ & Hc3 & Hk3 & Ho3 & Hv3 & Hs3 & _).
  destruct (interp w (apply_new interface new_mac old verbose) ((h ++ t1) ++ t2))
    as [t3 r3]; cbn [fst snd] in *.
  rewrite !commands_app, !check_calls_app, Hc1, Hc2, Hk1, Hk2. cbn [app].
  split_and!.
  - by exists (commands t3).
  - done.
  - by do 2 (apply one_at_a_time_app_l; try done).
  - intros Hv. by rewrite (Hv3 Hv).
  - intros old_mac [= ->] Heq.
    destruct (is_valid_mac new_mac) eqn:Hvalid; [|by rewrite Hv3].
    rewrite Hs3; [done|].
    cbn [is_set value]. rewrite Heq, String.eqb_refl, andb_true_r.
    unfold truthy. apply negb_true_iff, String.eqb_neq. intros ->.
    destruct new_mac; done.
Qed.

(** X24: [change_mac] calls none of the procedures on JSON files, and the
    files it writes to are, in this order and each at most once: the save
    file of the interface, with the address that [ifconfig] showed at the
    start, and without [force_overwrite] only after the file was found
    absent; the log, with the line of line 141, only after the save file
    was written; the log, with the line of line 193, only after the three
    commands returned. *)
Theorem change_mac_saves_original w h interface new_mac verbose force_overwrite :
  let t := (interp w (change_mac interface new_mac verbose force_overwrite) h).1 in
  procedures t = [] /\
  exists save log,
    written t = save ++ log /\
    (save = [] \/
     exists path old_mac,
       (interp w (get_mac_from_ifconfig interface) h).2
       = Returns (Some old_mac) /\
       In (Ev (get_mac_savefile interface) (Returns path)) t /\
       (force_overwrite = false ->
        In (Ev (path_exists path) (Returns false)) t) /\
       (save = [Save_file path old_mac] \/
        save = [Save_file path old_mac;
                Log_line (saved_message interface old_mac)])) /\
    (log = [] \/
     exists old_mac,
       (interp w (get_mac_from_ifconfig interface) h).2 = Returns old_mac /\
       log = [Log_line (changed_message interface old_mac new_mac)] /\
       completed t = hw_commands interface new_mac).
Proof.
  intros t. subst t. rewrite change_mac_parts, interp_bind.
  pose proof (harmless_run _ w h (get_mac_from_ifconfig_harmless interface))
    as (_ & Hd1 & Hw1 & Hp1 & _).
  destruct (interp w (get_mac_from_ifconfig interface) h) as [t1 [old|e1]] eqn:E1;
    cbn [fst snd] in *.
  2:{ rewrite Hw1, Hp1. split; [done|]. exists [], []. split_and!; by try left. }
  rewrite interp_bind.
  pose proof (announce_old_spec w (h ++ t1) interface old force_overwrite)
    as (Hp2 & Hw2).
  pose proof (no_command_run _ w (h ++ t1)
                (announce_old_no_command interface old force_overwrite))
    as (_ & _ & Hd2).
  assert (forall t2 t3,
            written t2 = [] \/
            (exists path mac,
               old = Some mac /\
               In (Ev (get_mac_savefile interface) (Returns path)) t2 /\
               (force_overwrite = false ->
                In (Ev (path_exists path) (Returns false)) t2) /\
               (written t2 = [Save_file path mac] \/
                written t2 = [Save_file path mac;
                              Log_line (saved_message interface mac)])) ->
            written t2 = [] \/
            exists path old_mac,
              Returns (A:=option string) old = Returns (Some old_mac) /\
              In (Ev (get_mac_savefile interface) (Returns path))
                 (t1 ++ t2 ++ t3) /\
              (force_overwrite = false ->
               In (Ev (path_exists path) (Returns false)) (t1 ++ t2 ++ t3)) /\
              (written t2 = [Save_file path old_mac] \/
               written t2 = [Save_file path old_mac;
                             Log_line (saved_message interface old_mac)]))
    as Hsave.
  { intros t2 t3 [Hw|(path & mac & -> & Hs & He & Hw)]; [by left|].
    right. exists path, mac. split_and!; [done| | |done].
    - apply in_or_app; right; apply in_or_app; by left.
    - intros Hf. apply in_or_app; right; apply in_or_app; left. by apply He. }
  destruct (interp w (announce_old interface old force_overwrite) (h ++ t1))
    as [t2 [[]|e2]] eqn:E2; cbn [fst snd] in *.
  - pose proof (apply_new_spec w ((h ++ t1) ++ t2) interface new_mac old verbose)
      as (Hp3 & _ & _ & _ & _ & _ & Hw3).
    destruct (interp w (apply_new interface new_mac old verbose) _) as [t3 r3];
      cbn [fst snd] in *.
    rewrite !procedures_app, !written_app, !completed_app, Hw1, Hp1, Hp2, Hp3,
      Hd1, Hd2.
    cbn [app]. split; [done|].
    exists (written t2), (written t3). split_and!; [done|by apply Hsave|].
    destruct Hw3 as [Hw3|[Hw3 Hd3]]; [by left|].
    right. by exists old.
  - rewrite !procedures_app, !written_app, Hw1, Hp1, Hp2.
    cbn [app]. split; [done|].
    exists (written t2), []. split_and!; [by rewrite app_nil_r| |by left].
    specialize (Hsave t2 [] Hw2). by rewrite app_nil_r in Hsave.
Qed.

Lemma not_changed_line_trace t :
  forallb (event_ok not_changed_line) t = true -> ~ In changed_line (printed t).
Proof.
  induction t as [|[B op r] t IH]; simpl; [by intros _ []|].
  intros [Hop Ht]%andb_prop Hin. apply (IH Ht). clear IH Ht.
  unfold printed in *. simpl in Hin.
  destruct r as [b|e]; [|done].
  destruct op; try done. destruct Hin as [Hin|Hin]; [|done].
  subst what. simpl in Hop. done.
Qed.

Lemma get_mac_from_ifconfig_not_changed_line interface :
  performs not_changed_line (get_mac_from_ifconfig interface).
Proof.
  unfold get_mac_from_ifconfig, get_interface_block. performs_tac.
Qed.

Lemma announce_old_not_changed_line interface old_mac force_overwrite :
  performs not_changed_line (announce_old interface old_mac force_overwrite).
Proof.
  unfold announce_old, save_original_mac, log_action, print_colored_io.
  performs_tac.
Qed.

Lemma guarded_not_changed_line interface new_mac verbose message :
  performs not_changed_line
    (try_except
       (set_hw_ether interface new_mac "Changing" verbose;;
        log_action message;; Return true)
       CalledProcessError (command_failed "change")).
Proof.
  unfold set_hw_ether, log_action, command_failed, print_colored_io.
  performs_tac.
Qed.

Lemma check_new_spec w h interface new_mac :
  In changed_line (printed (interp w (check_new interface new_mac) h).1) ->
  exists actual,
    (interp w (get_mac_from_ifconfig interface) h).2 = Returns (Some actual) /\
    lower actual = lower new_mac.
Proof.
  unfold check_new. rewrite interp_bind.
  pose proof (performs_interp _ _ w h
                (get_mac_from_ifconfig_not_changed_line interface)) as H1.
  apply not_changed_line_trace in H1.
  destruct (interp w (get_mac_from_ifconfig interface) h) as [t1 [actual|e1]];
    cbn [fst snd] in *; [|done].
  assert (forall (p : Prog unit) h',
             performs not_changed_line p ->
             ~ In changed_line
                 (printed (let '(t2, r) := interp w p h' in (t1 ++ t2, r)).1))
    as Hnot.
  { intros p h' Hp Hin.
    pose proof (performs_interp _ _ w h' Hp) as H2.
    apply not_changed_line_trace in H2.
    destruct (interp w p h') as [t2 r2]. cbn [fst snd] in *.
    rewrite printed_app in Hin. apply in_app_or in Hin as [?|?]; done. }
  destruct actual as [actual|]; cbn [is_set].
  2:{ intros Hin. exfalso. revert Hin. apply Hnot. by apply performs_call. }
  destruct (truthy actual).
  2:{ intros Hin. exfalso. revert Hin. apply Hnot. by apply performs_call. }
  cbn [value].
  destruct (String.eqb (lower actual) (lower new_mac)) eqn:Heq.
  - intros _. exists actual. split; [done|]. by apply String.eqb_eq.
  - intros Hin. exfalso. revert Hin. apply Hnot.
    apply performs_bind; [by apply performs_call|]. intros _.
    by apply performs_call.
Qed.

(** X25: [change_mac] prints "MAC address was successfully changed!" only
    when [new_mac] is valid, the three commands returned, and [ifconfig],
    asked after them, showed an address equal to [new_mac] up to case. *)
Theorem change_mac_success_is_checked
        w h interface new_mac verbose force_overwrite :
  let t := (interp w (change_mac interface new_mac verbose force_overwrite) h).1 in
  In changed_line (printed t) ->
  is_valid_mac new_mac = true /\
  completed t = hw_commands interface new_mac /\
  exists t' actual,
    t' `prefix_of` t /\
    completed t' = hw_commands interface new_mac /\
    (interp w (get_mac_from_ifconfig interface) (h ++ t')).2
    = Returns (Some actual) /\
    lower actual = lower new_mac.
Proof.
  intros t. subst t. rewrite change_mac_parts, interp_bind.
  pose proof (performs_interp _ _ w h
                (get_mac_from_ifconfig_not_changed_line interface)) as H1.
  pose proof (harmless_run _ w h (get_mac_from_ifconfig_harmless interface))
    as (_ & Hd1 & _).
  apply not_changed_line_trace in H1.
  destruct (interp w (get_mac_from_ifconfig interface) h) as [t1 [old|e1]];
    cbn [fst snd] in *; [|done].
  rewrite interp_bind.
  pose proof (performs_interp _ _ w (h ++ t1)
                (announce_old_not_changed_line interface old force_overwrite))
    as H2.
  pose proof (no_command_run _ w (h ++ t1)
                (announce_old_no_command interface old force_overwrite))
    as (_ & _ & Hd2).
  apply not_changed_line_trace in H2.
  destruct (interp w (announce_old interface old force_overwrite) (h ++ t1))
    as [t2 [[]|e2]]; cbn [fst snd] in *.
  2:{ rewrite printed_app. intros [?|?]%in_app_or; done. }
  unfold apply_new.
  assert (forall (p : Prog unit) h',
             performs not_changed_line p ->
             ~ In changed_line
                 (printed (let '(t3, r) :=
                             let '(t3, r) := interp w p h' in (t2 ++ t3, r)
                           in (t1 ++ t3, r)).1))
    as Hnot.
  { intros p h' Hp Hin.
    pose proof (performs_interp _ _ w h' Hp) as H3.
    apply not_changed_line_trace in H3.
    destruct (interp w p h') as [t3 r3]. cbn [fst snd] in *.
    rewrite !printed_app in Hin.
    apply in_app_or in Hin as [?|[?|?]%in_app_or]; done. }
  destruct (is_valid_mac new_mac); cbn [negb].
  2:{ intros Hin. exfalso. revert Hin. apply Hnot. by apply performs_call. }
  destruct (is_set old && String.eqb (lower (value old)) (lower new_mac)).
  { intros Hin. exfalso. revert Hin. apply Hnot. by apply performs_call. }
  rewrite interp_bind.
  match goal with |- context [interp w (try_except ?body ?cls ?hd) ?h'] =>
    pose proof (guarded_spec w h' interface new_mac "Changing" verbose
                  (String.append "Changed MAC for "
                     (String.append interface
                        (String.append " from "
                           (String.append (fmt old)
                              (String.append " to " new_mac)))))
                  "change") as (_ & _ & _ & _ & Hr3 & _);
    pose proof (performs_interp _ _ w h'
                  (guarded_not_changed_line interface new_mac verbose
                     (String.append "Changed MAC for "
                        (String.append interface
                           (String.append " from "
                              (String.append (fmt old)
                                 (String.append " to " new_mac))))))) as H3;
    apply not_changed_line_trace in H3;
    destruct (interp w (try_except body cls hd) h') as [t3 r3] eqn:E3
  end.
  cbn [fst snd] in *.
  destruct r3 as [[]|e3]; cbn [negb fst snd interp].
  - apply proj1 in Hr3; [|done].
    pose proof (check_new_spec w (((h ++ t1) ++ t2) ++ t3) interface new_mac)
      as H4.
    pose proof (harmless_run _ w (((h ++ t1) ++ t2) ++ t3)
                  (check_new_harmless interface new_mac)) as (_ & Hd4 & _).
    destruct (interp w (check_new interface new_mac) _) as [t4 r4];
      cbn [fst snd] in *.
    rewrite !printed_app.
    intros [?|[?|[?|Hin]%in_app_or]%in_app_or]%in_app_or; try done.
    destruct (H4 Hin) as (actual & Hread & Heq).
    split_and!; [done| |].
    + by rewrite !completed_app, Hd1, Hd2, Hd4, app_nil_r.
    + exists (t1 ++ t2 ++ t3), actual. split_and!; try done.
      * exists t4. by rewrite <- !app_assoc.
      * by rewrite !completed_app, Hd1, Hd2.
      * by rewrite !app_assoc.
  - rewrite app_nil_r, !printed_app.
    intros [?|[?|?]%in_app_or]%in_app_or; done.
  - rewrite !printed_app.
    intros [?|[?|?]%in_app_or]%in_app_or; done.
Qed.

Lemma load_original_mac_spec w h interface :
  let t := (interp w (load_original_mac interface) h).1 in
  let r := (interp w (load_original_mac interface) h).2 in
  forall orig_mac,
    r = Returns (Some orig_mac) ->
    exists path content,
      In (Ev (get_mac_savefile interface) (Returns path)) t /\
      In (Ev (read_text path) (Returns content)) t /\
      orig_mac = strip content.
Proof.
  unfold load_original_mac, print_colored_io. simpl.
  repeat (answer w; simpl).
  all: intros orig_mac Hr; simplify_eq.
  all: do 2 eexists; split_and!; [|by right; right; left; reflexivity|reflexivity].
  all: by left.
Qed.

Lemma load_original_mac_no_command interface :
  performs no_command (load_original_mac interface).
Proof.
  unfold load_original_mac. performs_tac; apply print_colored_io_no_command.
Qed.

(** The last part of [restore_mac], lines 233-237. *)
Lemma restore_check_commands w h interface orig_mac :
  commands
    (interp w
       (new_mac_actual ← get_mac_from_ifconfig interface;
        if is_set new_mac_actual
           && String.eqb (lower (value new_mac_actual)) (lower orig_mac)
        then print_colored_io "MAC address was successfully restored!" "success"
        else print_colored_io
               "MAC address was not restored as expected!" "error") h).1
  = [ifconfig_of interface].
Proof.
  apply read_back_commands. intros mac.
  case_match; apply print_colored_io_no_command.
Qed.

Lemma restore_check_harmless interface orig_mac :
  performs harmless
    (new_mac_actual ← get_mac_from_ifconfig interface;
     if is_set new_mac_actual
        && String.eqb (lower (value new_mac_actual)) (lower orig_mac)
     then print_colored_io "MAC address was successfully restored!" "success"
     else print_colored_io "MAC address was not restored as expected!" "error").
Proof.
  apply performs_bind; [apply get_mac_from_ifconfig_harmless|].
  intros mac. case_match; apply print_colored_io_harmless.
Qed.

(** X26: [restore_mac] calls none of the procedures on JSON files.  It
    starts no process and writes to no file unless the save file was read
    and its content, without the whitespace around it, is not empty; that
    string is not checked any further.  The processes are then the first
    ones of: interface down, set that address, interface up, each through
    [check_call] and only after the one before it returned, and
    [ifconfig interface] (line 233).  The only file written to is the log,
    with the one line of line 226, and only after the three commands
    returned. *)
Theorem restore_mac_commands w h interface verbose :
  let t := (interp w (restore_mac interface verbose) h).1 in
  procedures t = [] /\ one_at_a_time t /\
  (commands t = [] /\ written t = [] \/
   exists path content,
     In (Ev (get_mac_savefile interface) (Returns path)) t /\
     In (Ev (read_text path) (Returns content)) t /\
     strip content <> EmptyString /\
     commands t `prefix_of`
       hw_commands interface (strip content) ++ [ifconfig_of interface] /\
     check_calls t `prefix_of` hw_commands interface (strip content) /\
     (written t = [] \/
      written t = [Log_line (restored_message interface (strip content))] /\
      completed t = hw_commands interface (strip content))).
Proof.
  intros t. subst t. unfold restore_mac. rewrite interp_bind.
  pose proof (harmless_run _ w h (load_original_mac_harmless interface))
    as (Hk1 & Hd1 & Hw1 & Hp1 & _).
  pose proof (no_command_run _ w h (load_original_mac_no_command interface))
    as (Hc1 & _).
  pose proof (load_original_mac_spec w h interface) as Hload.
  destruct (interp w (load_original_mac interface) h) as [t1 [orig|e1]] eqn:E1;
    cbn [fst snd] in *.
  2:{ split_and!; [done|by apply one_at_a_time_nil|by left]. }
  destruct (is_set orig) eqn:Hset; cbn [negb interp].
  2:{ rewrite app_nil_r.
      split_and!; [done|by apply one_at_a_time_nil|by left]. }
  destruct orig as [orig|]; [|done]. cbn [is_set value fmt] in *.
  destruct (Hload orig eq_refl) as (path & content & Hpath & Hread & ->).
  assert (strip content <> EmptyString) as Hne.
  { intros Heq. by rewrite Heq in Hset. }
  rewrite interp_bind.
  pose proof (harmless_run _ w (h ++ t1)
                (print_colored_io_harmless
                   (String.append "Restoring original MAC address: "
                      (strip content)) "warning"))
    as (Hk2 & Hd2 & Hw2 & Hp2 & _).
  pose proof (no_command_run _ w (h ++ t1)
                (print_colored_io_no_command
                   (String.append "Restoring original MAC address: "
                      (strip content)) "warning"))
    as (Hc2 & _).
  destruct (interp w (print_colored_io _ "warning") (h ++ t1))
    as [t2 [[]|e2]]; cbn [fst snd] in *.
  2:{ rewrite written_app, procedures_app, commands_app, Hw1, Hp1, Hw2, Hp2,
        Hc1, Hc2.
      split_and!; [done| |by left].
      apply one_at_a_time_app_l; try done. by apply one_at_a_time_nil. }
  rewrite interp_bind.
  pose proof (guarded_spec w ((h ++ t1) ++ t2) interface (strip content)
                "Restoring" verbose
                (restored_message interface (strip content)) "restore")
    as (Hp3 & Hk3 & Hc3 & Ho3 & Hr3 & Hw3).
  unfold restored_message in Hp3, Hk3, Hc3, Ho3, Hr3, Hw3. cbn zeta in *.
  match goal with |- context [interp w (try_except ?body ?cls ?hd) ?h'] =>
    destruct (interp w (try_except body cls hd) h') as [t3 r3] eqn:E3
  end.
  cbn [fst snd] in *.
  assert (forall t4,
            check_calls t4 = [] -> completed t4 = [] ->
            written t4 = [] -> procedures t4 = [] ->
            commands (t3 ++ t4) `prefix_of`
              hw_commands interface (strip content) ++ [ifconfig_of interface] ->
            let t := t1 ++ t2 ++ t3 ++ t4 in
            procedures t = [] /\ one_at_a_time t /\
            (commands t = [] /\ written t = [] \/
             exists path content0,
               In (Ev (get_mac_savefile interface) (Returns path)) t /\
               In (Ev (read_text path) (Returns content0)) t /\
               strip content0 <> EmptyString /\
               commands t `prefix_of`
                 hw_commands interface (strip content0)
                 ++ [ifconfig_of interface] /\
               check_calls t `prefix_of`
                 hw_commands interface (strip content0) /\
               (written t = [] \/
                written t
                = [Log_line (restored_message interface (strip content0))] /\
                completed t = hw_commands interface (strip content0))))
    as Hend.
  { intros t4 Hk4 Hd4 Hw4 Hp4 Hc34. cbn zeta.
    rewrite !written_app, !procedures_app, !check_calls_app, !completed_app.
    rewrite (commands_app t1), (commands_app t2).
    rewrite Hw1, Hw2, Hw4, Hp1, Hp2, Hp3, Hp4, Hc1, Hc2, Hk1, Hk2, Hk4,
      Hd1, Hd2, Hd4, !app_nil_r.
    cbn [app]. split_and!; [done| |].
    - do 2 (apply one_at_a_time_app_l; try done).
      by apply one_at_a_time_app_r.
    - right. exists path, content.
      split_and!; [apply in_or_app; by left|apply in_or_app; by left|done..]. }
  destruct r3 as [restored|e3]; cbn [fst snd].
  2:{ specialize (Hend [] eq_refl eq_refl eq_refl eq_refl).
      rewrite !app_nil_r in Hend. apply Hend.
      rewrite Hk3. by apply prefix_app_r. }
  destruct restored; cbn [negb].
  - destruct (Hr3 eq_refl) as [Hd3 Hf3].
    pose proof (restore_check_commands w (((h ++ t1) ++ t2) ++ t3) interface
                  (strip content)) as Hc4.
    pose proof (harmless_run _ w (((h ++ t1) ++ t2) ++ t3)
                  (restore_check_harmless interface (strip content)))
      as (Hk4 & Hd4 & Hw4 & Hp4 & _).
    destruct (interp w _ (((h ++ t1) ++ t2) ++ t3)) as [t4 r4].
    cbn [fst snd] in *. apply Hend; try done.
    by rewrite commands_app, Hc4, Hk3, Hf3.
  - cbn [interp fst snd].
    specialize (Hend [] eq_refl eq_refl eq_refl eq_refl).
    apply Hend. rewrite app_nil_r, Hk3. by apply prefix_app_r.
Qed.

(** *** [main] *)

Section MainFacts.

Variable randint : nat -> Z -> Z -> Z.

Variable int16 : string -> option Z.

Lemma dispatch_ignores_dry_run args dry_run interface :
  asks_for_action args = true ->
  dispatch randint int16 (with_dry_run dry_run args) interface
  = dispatch randint int16 args interface.
Proof.
  unfold asks_for_action, dispatch. simpl.
  destruct (args_restore args); [done|].
  destruct (is_set (args_new_mac args)); [done|].
  destruct (args_random args); [done|].
  destruct (is_set (args_vendor args)); [done|].
  destruct (args_restore_all args); [done|].
  destruct (args_history args); [done|]. done.
Qed.

Lemma interp_bind_ext {A B} w (p : Prog A) (f g : A -> Prog B) h :
  (forall a h', interp w (f a) h' = interp w (g a) h') ->
  interp w (p ≫= f) h = interp w (p ≫= g) h.
Proof.
  intros Hfg. rewrite !interp_bind.
  destruct (interp w p h) as [t [a|e]]; [|done]. by rewrite Hfg.
Qed.

(** X27: together with [--restore], [--mac], [--random], [--vendor],
    [--restore-all] or [--history], the option [--dry-run] changes
    nothing: the run of [main] is the same with and without it. *)
Theorem main_ignores_dry_run w h args dry_run :
  asks_for_action args = true ->
  interp w (main randint int16 (with_dry_run dry_run args)) h
  = interp w (main randint int16 args) h.
Proof.
  intros Hask. unfold main. cbn [with_dry_run args_interface args_verbose
    args_list_interfaces args_show_mac].
  apply interp_bind_ext. intros _ h0.
  apply interp_bind_ext. intros _ h1.
  destruct (args_list_interfaces args); [done|].
  apply interp_bind_ext. intros _ h2.
  destruct (args_show_mac args && negb (is_set (args_interface args)));
    [done|].
  destruct (args_show_mac args && is_set (args_interface args)); [done|].
  destruct (negb (is_set (args_interface args))); [done|].
  apply interp_bind_ext. intros out h3.
  destruct (negb (existsb _ _)); [done|].
  apply interp_bind_ext. intros block h4.
  apply interp_bind_ext. intros mac h5.
  apply interp_bind_ext. intros _ h6.
  by rewrite dispatch_ignores_dry_run.
Qed.

Lemma harmless_quiet {A} (p : Prog A) w h :
  performs harmless p -> quiet (interp w p h).1.
Proof.
  intros Hp. destruct (harmless_run p w h Hp) as (?&?&?&?&?). by split_and!.
Qed.

Lemma quiet_app t1 t2 : quiet t1 -> quiet t2 -> quiet (t1 ++ t2).
Proof.
  unfold quiet. rewrite check_calls_app, written_app, procedures_app.
  by intros (-> & -> & ->) (-> & -> & ->).
Qed.

Lemma changes_bind {A B} w (p : Prog A) (f : A -> Prog B) h :
  performs harmless p ->
  ~ quiet (interp w (p ≫= f) h).1 ->
  exists a t1,
    interp w p h = (t1, Returns a) /\ ~ quiet (interp w (f a) (h ++ t1)).1.
Proof.
  intros Hp. rewrite interp_bind.
  pose proof (harmless_quiet p w h Hp) as Hq.
  destruct (interp w p h) as [t1 [a|e]]; cbn [fst snd] in *; [|done].
  intros Hn. exists a, t1. split; [done|]. intros Hq2. apply Hn.
  destruct (interp w (f a) (h ++ t1)) as [t2 r2]. cbn [fst snd] in *.
  by apply quiet_app.
Qed.

Lemma existsb_eqb_In x (l : list string) :
  existsb (String.eqb x) l = true -> In x l.
Proof.
  intros (y & Hy & Heq)%existsb_exists. by apply String.eqb_eq in Heq as ->.
Qed.

(** X28: [main] starts a process through [check_call], writes to a file
    (a save file or the log) or calls one of the procedures on JSON files
    only when [--list] is absent and [-i] names an interface that
    [get_interfaces] finds in the output of [ifconfig]; never for "lo",
    and never without [-i].  This does not hold of the processes started
    through [check_output]: [ifconfig] and [ifconfig interface] are run
    for [--list], for [--show] and to check the interface. *)
Theorem main_requires_known_interface w h args :
  let t := (interp w (main randint int16 args) h).1 in
  check_calls t <> [] \/ written t <> [] \/ procedures t <> [] ->
  args_list_interfaces args = false /\
  exists interface h' ifconfig_output,
    args_interface args = Some interface /\
    (interp w get_ifconfig_output h').2 = Returns ifconfig_output /\
    In interface (get_interfaces ifconfig_output) /\
    interface <> "lo"%string.
Proof.
  intros t Hchanges.
  assert (~ quiet t) as H.
  { intros (Hc & Hw & Hp). destruct Hchanges as [?|[?|?]]; done. }
  clear Hchanges. subst t. unfold main in H.
  apply changes_bind in H as ([] & t0 & _ & H); [|by apply performs_call].
  apply changes_bind in H as ([] & t1 & _ & H);
    [|apply performs_when, print_colored_io_harmless].
  destruct (args_list_interfaces args).
  { exfalso. apply H; clear H. apply harmless_quiet, list_interfaces_harmless. }
  apply changes_bind in H as ([] & t2 & _ & H);
    [|apply performs_when, print_colored_io_harmless].
  destruct (args_interface args) as [interface|] eqn:Hi; cbn [is_set value] in H.
  2:{ exfalso. apply H; clear H. apply harmless_quiet.
      rewrite andb_false_r, andb_true_r.
      case_match; apply print_colored_io_harmless. }
  destruct (truthy interface) eqn:Hset.
  2:{ exfalso. apply H; clear H. apply harmless_quiet.
      rewrite andb_false_r, andb_true_r.
      case_match; apply print_colored_io_harmless. }
  rewrite andb_false_r, andb_true_r in H. cbn [negb] in H.
  destruct (args_show_mac args).
  { exfalso. apply H; clear H. apply harmless_quiet.
    apply performs_bind; [apply get_mac_from_ifconfig_harmless|]. intros mac.
    case_match; apply print_colored_io_harmless. }
  apply changes_bind in H as (out & t3 & Hout & H);
    [|apply get_ifconfig_output_harmless].
  destruct (existsb (String.eqb interface) (get_interfaces out)) eqn:Hex;
    cbn [negb] in H.
  2:{ exfalso. apply H; clear H. apply harmless_quiet.
      apply performs_bind; [apply print_colored_io_harmless|]. intros _.
      apply print_colored_io_harmless. }
  apply existsb_eqb_In in Hex.
  split; [done|]. exists interface, (((h ++ t0) ++ t1) ++ t2), out.
  split_and!; [done|by rewrite Hout|done|].
  intros ->. unfold get_interfaces in Hex.
  by apply filter_In in Hex as [_ Hlo].
Qed.

Lemma harmless_dry {A} (p : Prog A) :
  performs harmless p -> performs dry p.
Proof. apply performs_weaken. intros B op. by destruct op. Qed.

Lemma dry_trace t :
  forallb (event_ok dry) t = true ->
  forallb is_ifconfig (commands t) = true /\
  check_calls t = [] /\ written t = [] /\
  forall p, In p (procedures t) ->
            exists profile_name verbose, p = import_profile profile_name verbose true.
Proof.
  induction t as [|[B op r] t IH]; simpl.
  { intros _. by split_and!. }
  intros [Hop Ht]%andb_prop. destruct (IH Ht) as (IH0 & IH1 & IH2 & IH3).
  unfold commands, check_calls, written, procedures in *. simpl.
  rewrite IH1, IH2. destruct op; try done.
  - simpl in *. by rewrite Hop, IH0.
  - split_and!; [done..|]. intros q [<-|Hq]; [|by apply IH3].
    destruct p as [| | |name v []]; try done. by exists name, v.
Qed.

(** X29: with [--dry-run] and none of the options tested before it, the
    only processes that [main] starts are [ifconfig] and
    [ifconfig interface], which it runs through [check_output] to read
    the state of the interfaces; it starts none through [check_call],
    writes to no file, the log included, and the only procedure on JSON
    files it may call is [import_profile] in dry-run mode. *)
Theorem main_dry_run_alone w h args :
  args_dry_run args = true ->
  asks_for_action args = false ->
  let t := (interp w (main randint int16 args) h).1 in
  forallb is_ifconfig (commands t) = true /\
  check_calls t = [] /\ written t = [] /\
  forall p, In p (procedures t) ->
            exists profile_name verbose, p = import_profile profile_name verbose true.
Proof.
  intros Hdry Hask t. subst t. apply dry_trace, performs_interp.
  unfold asks_for_action in Hask.
  repeat (apply orb_false_iff in Hask as [Hask ?]).
  unfold main.
  apply performs_bind; [by apply performs_call|]. intros _.
  apply performs_bind;
    [apply performs_when; by apply performs_call|]. intros _.
  case_match; [apply harmless_dry, list_interfaces_harmless|].
  apply performs_bind;
    [apply performs_when; by apply performs_call|]. intros _.
  case_match; [by apply performs_call|].
  case_match.
  { apply harmless_dry.
    apply performs_bind; [apply get_mac_from_ifconfig_harmless|]. intros mac.
    case_match; apply print_colored_io_harmless. }
  case_match; [by apply performs_call|].
  apply performs_bind; [apply harmless_dry, get_ifconfig_output_harmless|].
  intros out. case_match.
  { apply performs_bind; [by apply performs_call|]. intros _.
    by apply performs_call. }
  apply performs_bind; [apply harmless_dry, get_interface_block_harmless|].
  intros block.
  apply performs_bind; [apply harmless_dry, get_mac_from_ifconfig_harmless|].
  intros mac.
  apply performs_bind; [case_match; by apply performs_call|]. intros _.
  unfold dispatch.
  rewrite Hask, Hdry.
  repeat match goal with H : _ = false |- _ => rewrite H end.
  case_match; [by apply performs_call|].
  by apply performs_call.
Qed.

End MainFacts.

(** ** The properties on examples *)

Lemma is_valid_mac_shape_witness :
  is_valid_mac "00:1A:2b:3C:4d:5E" = true /\
  exists body,
    take_mac_chars 17 "00:1A:2b:3C:4d:5E" = Some body /\
    String.length body = 17 /\
    ("00:1A:2b:3C:4d:5E"%string = body \/
     "00:1A:2b:3C:4d:5E"%string
     = String.append body (String newline EmptyString)) /\
    is_valid_mac body = true.
Proof.
  split; [reflexivity|]. apply (is_valid_mac_shape "00:1A:2b:3C:4d:5E").
  reflexivity.
Defined.

(** An address with a newline behind it is accepted. *)
Lemma is_valid_mac_trailing_newline_witness :
  String.length "00:1a:2b:3c:4d:5e" = 17 /\
  is_valid_mac (String.append "00:1a:2b:3c:4d:5e" (String newline EmptyString))
  = is_valid_mac "00:1a:2b:3c:4d:5e" /\
  is_valid_mac "00:1a:2b:3c:4d:5e" = true.
Proof.
  split_and!; [reflexivity| |reflexivity].
  apply (is_valid_mac_trailing_newline "00:1a:2b:3c:4d:5e"). reflexivity.
Defined.

Lemma get_interfaces_names_witness :
  let output := ifconfig_text "08:00:27:aa:bb:cc" in
  In "eth0"%string (get_interfaces output) /\
  "eth0"%string <> "lo"%string /\
  exists line rest,
    In line (split_on newline output) /\
    line = String.append "eth0" (String ":" rest).
Proof.
  intros output.
  assert (In "eth0"%string (get_interfaces output)) as Hin
      by (vm_compute; left; reflexivity).
  destruct (get_interfaces_names output "eth0" Hin) as (Hlo & _ & _ & Hline).
  split_and!; [exact Hin|exact Hlo|exact Hline].
Defined.

(** The loopback interface first, then [eth0]. *)
Lemma get_interfaces_line_by_line_witness :
  let line := "lo: flags=73<UP,LOOPBACK,RUNNING>  mtu 65536"%string in
  let more := ifconfig_text "08:00:27:aa:bb:cc" in
  all_chars not_newline line = true /\
  get_interfaces (String.append line (String newline more))
  = get_interfaces line ++ get_interfaces more /\
  get_interfaces line = [] /\
  get_interfaces more = ["eth0"%string].
Proof.
  intros line more.
  split_and!; [reflexivity| |reflexivity|reflexivity].
  apply (get_interfaces_line_by_line line more). reflexivity.
Defined.

Lemma search_mac_sound_witness :
  let output := ifconfig_text "08:00:27:aa:bb:cc" in
  search_mac output = Some "08:00:27:aa:bb:cc"%string /\
  String.length "08:00:27:aa:bb:cc" = 17 /\
  all_chars is_mac_char "08:00:27:aa:bb:cc" = true.
Proof.
  intros output.
  destruct (search_mac_sound output "08:00:27:aa:bb:cc") as (Hlen & Hall & _);
    [reflexivity|].
  split_and!; [reflexivity|exact Hlen|exact Hall].
Defined.

(** Seventeen colons are found as well. *)
Lemma search_mac_complete_witness :
  is_keyword "HWaddr" /\
  all_chars is_space " " = true /\
  String.length ":::::::::::::::::" = 17 /\
  all_chars is_mac_char ":::::::::::::::::" = true /\
  exists found,
    search_mac
      (String.append "eth0      Link encap:Ethernet  "
         (String.append "HWaddr"
            (String.append " " (String.append ":::::::::::::::::" "  "))))
    = Some found.
Proof.
  assert (is_keyword "HWaddr") as Hkey by (right; reflexivity).
  split_and!; [exact Hkey|reflexivity..|].
  apply (search_mac_complete "eth0      Link encap:Ethernet  " "HWaddr" " "
           ":::::::::::::::::" "  " Hkey); reflexivity.
Defined.

Lemma search_mac_reads_valid_mac_witness :
  is_keyword "ether" /\
  all_chars is_space " " = true /\
  is_valid_mac "08:00:27:aa:bb:cc" = true /\
  String.length "08:00:27:aa:bb:cc" = 17 /\
  search_mac
    (String.append "ether"
       (String.append " "
          (String.append "08:00:27:aa:bb:cc" "  txqueuelen 1000  (Ethernet)")))
  = Some "08:00:27:aa:bb:cc"%string.
Proof.
  assert (is_keyword "ether") as Hkey by (left; reflexivity).
  split_and!; [exact Hkey|reflexivity..|].
  apply (search_mac_reads_valid_mac "ether" " " "08:00:27:aa:bb:cc"
           "  txqueuelen 1000  (Ethernet)" Hkey); reflexivity.
Defined.

Lemma lowest_randint_in_range : randint_in_range lowest_randint.
Proof. intros k lo hi Hle. unfold lowest_randint. lia. Qed.

Lemma hex_number_reads_hex_pairs : int16_reads_hex_pairs hex_number.
Proof.
  intros a b Ha Hb. unfold hex_number. cbn [hex_number_from].
  rewrite Ha, Hb. f_equal; lia.
Qed.

Lemma generate_random_mac_is_valid_witness :
  randint_in_range lowest_randint /\
  generate_random_mac lowest_randint = "02:00:00:00:00:00"%string /\
  is_valid_mac (generate_random_mac lowest_randint) = true /\
  String.length (generate_random_mac lowest_randint) = 17.
Proof.
  destruct (generate_random_mac_is_valid lowest_randint lowest_randint_in_range)
    as (Hvalid & Hlen & _).
  split_and!; [exact lowest_randint_in_range|reflexivity|exact Hvalid|exact Hlen].
Defined.

Lemma generate_vendor_mac_group_count_witness :
  length (split_on ":" "00:11") <> 3 /\
  generate_vendor_mac lowest_randint hex_number "00:11"
  = (None, [("Invalid OUI format. Use format like 00:11:22", "red")%string]).
Proof.
  assert (length (split_on ":" "00:11") <> 3) as Hlen
      by (vm_compute; lia).
  split; [exact Hlen|].
  exact (generate_vendor_mac_group_count lowest_randint hex_number "00:11" Hlen).
Defined.

(** A group above ff is taken, and the address is not valid. *)
Lemma generate_vendor_mac_valid_iff_witness :
  randint_in_range lowest_randint /\
  mapM hex_number (split_on ":" "00:1a:100") = Some [0; 26; 256]%Z /\
  generate_vendor_mac lowest_randint hex_number "00:1a:100"
  = (Some "00:1a:100:00:00:00"%string, []) /\
  is_valid_mac "00:1a:100:00:00:00" = false /\
  exists mac,
    generate_vendor_mac lowest_randint hex_number "00:1a:100" = (Some mac, []) /\
    (is_valid_mac mac = true <->
     (0 <= 0 <= 255 /\ 0 <= 26 <= 255 /\ 0 <= 256 <= 255)%Z).
Proof.
  split_and!; [exact lowest_randint_in_range|reflexivity..|].
  apply (generate_vendor_mac_valid_iff lowest_randint hex_number "00:1a:100"
           0 26 256 lowest_randint_in_range).
  reflexivity.
Defined.

Lemma generate_vendor_mac_keeps_oui_witness :
  randint_in_range lowest_randint /\
  int16_reads_hex_pairs hex_number /\
  oui_of "0" "0" "1" "A" "2" "b" = "00:1A:2b"%string /\
  generate_vendor_mac lowest_randint hex_number "00:1A:2b"
  = (Some "00:1a:2b:00:00:00"%string, []) /\
  exists rest,
    generate_vendor_mac lowest_randint hex_number (oui_of "0" "0" "1" "A" "2" "b")
    = (Some (String.append (lower (oui_of "0" "0" "1" "A" "2" "b"))
                           (String ":" rest)), []) /\
    String.length rest = 8 /\
    is_valid_mac (String.append (lower (oui_of "0" "0" "1" "A" "2" "b"))
                                (String ":" rest)) = true.
Proof.
  split_and!;
    [exact lowest_randint_in_range|exact hex_number_reads_hex_pairs
    |reflexivity..|].
  apply (generate_vendor_mac_keeps_oui lowest_randint hex_number
           "0" "0" "1" "A" "2" "b"
           lowest_randint_in_range hex_number_reads_hex_pairs); reflexivity.
Defined.

(** On the machine, the change of [eth0] succeeds and says so. *)
Lemma change_mac_success_is_checked_witness :
  let t := (interp machine
              (change_mac "eth0" "02:00:00:00:00:01" false false) []).1 in
  In changed_line (printed t) /\
  is_valid_mac "02:00:00:00:00:01" = true /\
  completed t = hw_commands "eth0" "02:00:00:00:00:01" /\
  written t
  = [Save_file "/root/.machanger/eth0.mac" "08:00:27:aa:bb:cc";
     Log_line (saved_message "eth0" "08:00:27:aa:bb:cc");
     Log_line (changed_message "eth0" (Some "08:00:27:aa:bb:cc"%string)
                               "02:00:00:00:00:01")].
Proof.
  intros t.
  assert (In changed_line (printed t)) as Hin
      by (vm_compute; do 3 right; left; reflexivity).
  destruct (change_mac_success_is_checked machine [] "eth0" "02:00:00:00:00:01"
              false false Hin) as (Hvalid & Hdone & _).
  split_and!; [exact Hin|exact Hvalid|exact Hdone|reflexivity].
Defined.

(** [-i eth0 --dry-run --mac 02:00:00:00:00:01] on the machine: the run is
    that without [--dry-run], and it sets the address. *)
Lemma main_ignores_dry_run_witness :
  asks_for_action dry_mac_args = true /\
  interp machine
    (main lowest_randint hex_number (with_dry_run false dry_mac_args)) []
  = interp machine (main lowest_randint hex_number dry_mac_args) [] /\
  completed (interp machine (main lowest_randint hex_number dry_mac_args) []).1
  = hw_commands "eth0" "02:00:00:00:00:01".
Proof.
  split_and!; [reflexivity| |vm_compute; reflexivity].
  apply (main_ignores_dry_run lowest_randint hex_number machine [] dry_mac_args
           false).
  reflexivity.
Defined.

(** [-i eth0 --dry-run --mac 02:00:00:00:00:01] on the machine sets the
    address of the known interface [eth0]; [--list] starts [ifconfig]
    three times and nothing through [check_call]. *)
Lemma main_requires_known_interface_witness :
  let t := (interp machine (main lowest_randint hex_number dry_mac_args) []).1 in
  let t' := (interp machine (main lowest_randint hex_number list_args) []).1 in
  check_calls t <> [] /\
  args_list_interfaces dry_mac_args = false /\
  (exists interface h' ifconfig_output,
     args_interface dry_mac_args = Some interface /\
     (interp machine get_ifconfig_output h').2 = Returns ifconfig_output /\
     In interface (get_interfaces ifconfig_output) /\
     interface <> "lo"%string) /\
  commands t' = [["ifconfig"]; ifconfig_of "eth0"; ifconfig_of "eth0"]%string /\
  check_calls t' = [] /\ written t' = [] /\ procedures t' = [].
Proof.
  intros t t'.
  assert (check_calls t <> []) as Hc by (vm_compute; discriminate).
  destruct (main_requires_known_interface lowest_randint hex_number machine []
              dry_mac_args (or_introl Hc)) as [Hlist Hknown].
  split_and!; [exact Hc|exact Hlist|exact Hknown|vm_compute; reflexivity..].
Defined.

(** [-i eth0 --dry-run --import-profile home] on the machine. *)
Lemma main_dry_run_alone_witness :
  let t := (interp machine (main lowest_randint hex_number dry_import_args) []).1 in
  args_dry_run dry_import_args = true /\
  asks_for_action dry_import_args = false /\
  commands t = [["ifconfig"]; ifconfig_of "eth0"; ifconfig_of "eth0"]%string /\
  check_calls t = [] /\ written t = [] /\
  procedures t = [import_profile "home" false true].
Proof.
  intros t.
  destruct (main_dry_run_alone lowest_randint hex_number machine []
              dry_import_args eq_refl eq_refl) as (_ & Hc & Hw & _).
  split_and!;
    [reflexivity|reflexivity|vm_compute; reflexivity|exact Hc|exact Hw
    |reflexivity].
Defined.

Lemma get_interfaces_one_line_witness :
  get_interfaces "eth0: flags=4163<UP,BROADCAST,RUNNING,MULTICAST>  mtu 1500"
  = ["eth0"%string] /\
  get_interfaces "        ether 08:00:27:aa:bb:cc  txqueuelen 1000  (Ethernet)"
  = [] /\
  get_interfaces "eth0      Link encap:Ethernet  HWaddr 08:00:27:aa:bb:cc" = [].
Proof.
  destruct get_interfaces_one_line as [Hname Hnone].
  split_and!.
  - apply (Hname "eth0"%string
             " flags=4163<UP,BROADCAST,RUNNING,MULTICAST>  mtu 1500"%string);
      [discriminate|reflexivity..].
  - apply (Hnone EmptyString
             "        ether 08:00:27:aa:bb:cc  txqueuelen 1000  (Ethernet)"%string);
      reflexivity.
  - apply (Hnone "eth0"%string
             "      Link encap:Ethernet  HWaddr 08:00:27:aa:bb:cc"%string);
      reflexivity.
Defined.

(** On the machine that refuses to set an address, [change_mac] reads the
    address, takes the interface down, fails, and leaves it down. *)
Lemma change_mac_commands_witness :
  let t := (interp refusing_machine
              (change_mac "eth0" "02:00:00:00:00:01" false false) []).1 in
  commands t = [ifconfig_of "eth0";
                sudo_ifconfig "eth0" ["down"%string];
                sudo_ifconfig "eth0" ["hw"; "ether"; "02:00:00:00:00:01"]%string] /\
  completed t = [sudo_ifconfig "eth0" ["down"%string]] /\
  check_calls t `prefix_of` hw_commands "eth0" "02:00:00:00:00:01" /\
  one_at_a_time t.
Proof.
  intros t.
  destruct (change_mac_commands refusing_machine [] "eth0" "02:00:00:00:00:01"
              false false) as (_ & Hprefix & Hone & _).
  split_and!;
    [vm_compute; reflexivity|vm_compute; reflexivity|exact Hprefix|exact Hone].
Defined.

(** On the machine, [change_mac] saves the address it found, once, and
    appends two lines to the log. *)
Lemma change_mac_saves_original_witness :
  let t := (interp machine
              (change_mac "eth0" "02:00:00:00:00:01" false false) []).1 in
  written t
  = [Save_file "/root/.machanger/eth0.mac" "08:00:27:aa:bb:cc";
     Log_line (saved_message "eth0" "08:00:27:aa:bb:cc");
     Log_line (changed_message "eth0" (Some "08:00:27:aa:bb:cc"%string)
                               "02:00:00:00:00:01")] /\
  procedures t = [] /\
  In (Ev (path_exists "/root/.machanger/eth0.mac") (Returns false)) t.
Proof.
  intros t.
  destruct (change_mac_saves_original machine [] "eth0" "02:00:00:00:00:01"
              false false) as (Hnone & _).
  split_and!; [vm_compute; reflexivity|exact Hnone|].
  vm_compute. do 3 right. left. reflexivity.
Defined.

(** What the save file holds is handed to [ifconfig] as it is, stripped. *)
Lemma restore_mac_commands_witness :
  let t := (interp stale_machine (restore_mac "eth0" false) []).1 in
  commands t = hw_commands "eth0" "not-a-mac" ++ [ifconfig_of "eth0"] /\
  is_valid_mac "not-a-mac" = false /\
  written t = [Log_line (restored_message "eth0" "not-a-mac")] /\
  procedures t = [] /\ one_at_a_time t.
Proof.
  intros t.
  destruct (restore_mac_commands stale_machine [] "eth0" false)
    as (Hnone & Hone & _).
  split_and!;
    [vm_compute; reflexivity|reflexivity|vm_compute; reflexivity|exact Hnone
    |exact Hone].
Defined.
